(** * remember-names: the persistence layer and its repositories

    A shallow embedding of [js/db.js], [js/contacts.js] and
    [js/connections.js].  The embedded relational engine (sql.js, i.e.
    SQLite compiled to WebAssembly) is modelled statement by statement:
    every SQL text that occurs in the source becomes one function on the
    three tables, with the constraints of [createSchema] checked where
    SQLite checks them.

    Conventions of the model.
    - A table is the list of its rows in insertion (rowid) order.
    - A nullable SQL value is an [option string]; [None] is NULL.  The two
      [id] columns are TEXT PRIMARY KEY without NOT NULL, which SQLite lets
      hold NULL, any number of times.  [from_contact_id] and
      [to_contact_id] are NOT NULL and typed [string], as is [contact_id],
      which is only ever written from the keys of an object.
    - Text is a string of bytes (UTF-8).  sql.js hands a TEXT column back
      cut at its first U+0000 ([UTF8ToString]).  The cut is modelled where
      one row or the export is read ([getContactById], [exportData]); the
      listings are given with the stored text, which is what they return
      when no stored text holds U+0000.
    - A property of a row of an imported document is absent, null or a
      string; numbers, booleans and arrays are left out.
    - [crypto.randomUUID()] and [datetime('now')] are inputs of the
      operation that draws them.
    - A JavaScript exception is the [Throw] result; the in-memory database
      keeps whatever the statements executed before the throw have done.
    - The browser store is the list of the snapshots written under the key
      ["database"], newest first; a store write is taken to succeed.
    - Coordinates are IEEE-754 doubles carried as their 64-bit pattern.
    - [String.prototype.toLowerCase] and [toUpperCase] are modelled on the
      26 letters of ASCII, where they agree with the engine's LOWER; they
      stand for the code on ASCII text only. *)

From Stdlib Require Import String Ascii List Bool ZArith NArith Lia.
Import ListNotations.
Local Open Scope string_scope.
Local Open Scope list_scope.

(** ** Values and rows *)

Definition value := option string.
Definition float64 := Z.

Module Contact.
Record t := mk {
  id : value;
  name : value;
  image_url : value;
  image_blob : value;
  notes : value;
  created_at : value
}.
End Contact.

Module Connection.
Record t := mk {
  id : value;
  from_contact_id : string;
  to_contact_id : string;
  label : value;
  created_at : value
}.
End Connection.

Module NodePosition.
Record t := mk {
  contact_id : string;
  x : float64;
  y : float64;
  fixed : Z
}.
End NodePosition.

(** The database of one connection.  [foreign_keys] is SQLite's
    per-connection [PRAGMA foreign_keys] switch: the FOREIGN KEY clauses of
    the schema are enforced (and ON DELETE CASCADE performed) only while it
    is on. *)
Record database := mkDatabase {
  contacts : list Contact.t;
  connections : list Connection.t;
  node_positions : list NodePosition.t;
  foreign_keys : bool
}.

Definition with_contacts (d : database) (cs : list Contact.t) : database :=
  mkDatabase cs (connections d) (node_positions d) (foreign_keys d).

Definition with_connections (d : database) (ks : list Connection.t) : database :=
  mkDatabase (contacts d) ks (node_positions d) (foreign_keys d).

Definition with_node_positions (d : database) (ps : list NodePosition.t) : database :=
  mkDatabase (contacts d) (connections d) ps (foreign_keys d).

(** [new SQL.Database()] followed by [createSchema()]: three empty tables.
    SQLite opens every connection with foreign-key enforcement off, and no
    statement of the source issues [PRAGMA foreign_keys = ON]. *)
Definition createSchema : database := mkDatabase [] [] [] false.

(** ** Exceptions *)

Inductive constraint := NOTNULL | PRIMARYKEY | UNIQUE | FOREIGNKEY.

(** [new Error(message)], a constraint failure reported by the engine, or
    a bare string, which is what sql.js throws when it cannot bind a
    parameter. *)
Inductive exn :=
| Error (message : string)
| SqliteConstraint (c : constraint)
| Thrown (text : string).

Inductive result (A : Type) :=
| Ok (a : A)
| Throw (e : exn).
Arguments Ok {A} a.
Arguments Throw {A} e.

(** ** The SQL statements of the source *)

(** [column = ?] with a text bound: a NULL column equals nothing. *)
Definition is_text (v : value) (s : string) : bool :=
  match v with
  | Some t => t =? s
  | None => false
  end.

(** [SELECT id FROM contacts WHERE id = ?] returns a row. *)
Definition has_contact (i : string) (d : database) : bool :=
  existsb (fun c => is_text (Contact.id c) i) (contacts d).

(** [SELECT id FROM connections WHERE id = ?] returns a row. *)
Definition has_connection (i : string) (d : database) : bool :=
  existsb (fun k => is_text (Connection.id k) i) (connections d).

(** The same two queries with a parameter that may be NULL, and the
    primary-key index asked for a key that may be NULL: [id = NULL] selects
    nothing, and a NULL key collides with nothing. *)
Definition selects_contact (v : value) (d : database) : bool :=
  match v with
  | Some i => has_contact i d
  | None => false
  end.

Definition selects_connection (v : value) (d : database) : bool :=
  match v with
  | Some i => has_connection i d
  | None => false
  end.

(** Some row carries the ordered pair: the UNIQUE(from_contact_id,
    to_contact_id) index already holds it. *)
Definition has_pair (a b : string) (d : database) : bool :=
  existsb (fun k => (Connection.from_contact_id k =? a)
                    && (Connection.to_contact_id k =? b)) (connections d).

(** [INSERT INTO contacts (...) VALUES (...)]: NOT NULL on [name], then the
    primary key. *)
Definition insert_contact (r : Contact.t) (d : database) : result database :=
  match Contact.name r with
  | None => Throw (SqliteConstraint NOTNULL)
  | Some _ =>
      if selects_contact (Contact.id r) d then Throw (SqliteConstraint PRIMARYKEY)
      else Ok (with_contacts d (contacts d ++ [r]))
  end.

(** [INSERT INTO connections (...) VALUES (...)]: NOT NULL on [label], the
    primary key, the unique pair, and, when enforcement is on, both foreign
    keys. *)
Definition insert_connection (r : Connection.t) (d : database) : result database :=
  match Connection.label r with
  | None => Throw (SqliteConstraint NOTNULL)
  | Some _ =>
      if selects_connection (Connection.id r) d then Throw (SqliteConstraint PRIMARYKEY)
      else if has_pair (Connection.from_contact_id r) (Connection.to_contact_id r) d
      then Throw (SqliteConstraint UNIQUE)
      else if foreign_keys d
                && negb (has_contact (Connection.from_contact_id r) d
                         && has_contact (Connection.to_contact_id r) d)
      then Throw (SqliteConstraint FOREIGNKEY)
      else Ok (with_connections d (connections d ++ [r]))
  end.

(** The same INSERT on bound parameters, as importData issues it: NOT NULL
    on the two endpoints as well. *)
Definition insert_connection_values
    (id from_contact_id to_contact_id label created_at : value) (d : database)
  : result database :=
  match from_contact_id, to_contact_id with
  | Some a, Some b => insert_connection (Connection.mk id a b label created_at) d
  | _, _ => Throw (SqliteConstraint NOTNULL)
  end.

(** The WHERE clause shared by connectionExists, updateConnection and
    deleteConnection: either ordering of the pair. *)
Definition between (a b : string) (k : Connection.t) : bool :=
  ((Connection.from_contact_id k =? a) && (Connection.to_contact_id k =? b))
  || ((Connection.from_contact_id k =? b) && (Connection.to_contact_id k =? a)).

(** [WHERE from_contact_id = ? OR to_contact_id = ?] with the same id twice. *)
Definition mentions (a : string) (k : Connection.t) : bool :=
  (Connection.from_contact_id k =? a) || (Connection.to_contact_id k =? a).

(** [DELETE FROM connections WHERE (from = ? AND to = ?) OR (from = ? AND to = ?)] *)
Definition delete_connections_between (a b : string) (d : database) : result database :=
  Ok (with_connections d (filter (fun k => negb (between a b k)) (connections d))).

(** [DELETE FROM connections WHERE from_contact_id = ? OR to_contact_id = ?] *)
Definition delete_connections_of (a : string) (d : database) : result database :=
  Ok (with_connections d (filter (fun k => negb (mentions a k)) (connections d))).

(** [DELETE FROM contacts WHERE id = ?].  The ON DELETE CASCADE clauses of
    [connections] and [node_positions] fire only under enforcement. *)
Definition delete_contact (a : string) (d : database) : result database :=
  let cs := filter (fun c => negb (is_text (Contact.id c) a)) (contacts d) in
  if foreign_keys d then
    Ok (mkDatabase cs
          (filter (fun k => negb (mentions a k)) (connections d))
          (filter (fun p => negb (NodePosition.contact_id p =? a)) (node_positions d))
          (foreign_keys d))
  else Ok (with_contacts d cs).

Definition set_label (l : value) (k : Connection.t) : Connection.t :=
  Connection.mk (Connection.id k) (Connection.from_contact_id k)
    (Connection.to_contact_id k) l (Connection.created_at k).

(** [UPDATE connections SET label = ? WHERE ...]: NOT NULL is checked on
    each row the statement rewrites, and a failure undoes the statement. *)
Definition update_connection_label (l : value) (a b : string) (d : database)
  : result database :=
  match l with
  | None =>
      if existsb (between a b) (connections d)
      then Throw (SqliteConstraint NOTNULL) else Ok d
  | Some _ =>
      Ok (with_connections d
            (map (fun k => if between a b k then set_label l k else k) (connections d)))
  end.

Definition set_fields (n u b s : value) (c : Contact.t) : Contact.t :=
  Contact.mk (Contact.id c) n u b s (Contact.created_at c).

(** [UPDATE contacts SET name = ?, image_url = ?, image_blob = ?, notes = ?
    WHERE id = ?] *)
Definition update_contact (i : string) (n u b s : value) (d : database)
  : result database :=
  match n with
  | None =>
      if has_contact i d then Throw (SqliteConstraint NOTNULL) else Ok d
  | Some _ =>
      Ok (with_contacts d
            (map (fun c => if is_text (Contact.id c) i then set_fields n u b s c else c)
                 (contacts d)))
  end.

(** A double is NaN when its exponent bits are all ones and its fraction
    is not zero. *)
Definition is_nan (x : float64) : bool :=
  (Z.land (Z.shiftr x 52) 2047 =? 2047)%Z
  && negb (Z.land x (Z.ones 52) =? 0)%Z.

Definition negative_zero : float64 := Z.shiftl 1 63.

(** [bindNumber] of sql.js and what the engine stores for it: NaN is stored
    as NULL; [-0], for which [val === (val | 0)] holds, is bound as the
    integer 0; every other number is stored as it is. *)
Definition bindNumber (x : float64) : option float64 :=
  if is_nan x then None
  else if (x =? negative_zero)%Z then Some 0%Z
  else Some x.

Arguments is_nan : simpl never.
Arguments negative_zero : simpl never.
Arguments bindNumber : simpl never.

(** [INSERT OR REPLACE INTO node_positions (contact_id, x, y, fixed)
    VALUES (?, ?, ?, ?)]: NOT NULL on [x] and [y], which have no default,
    aborts the statement; a row with the same primary key is replaced; the
    foreign key is not subject to REPLACE. *)
Definition replace_node_position (contact_id : string) (x y : option float64)
    (fixed : Z) (d : database) : result database :=
  match x, y with
  | Some x, Some y =>
      if foreign_keys d && negb (has_contact contact_id d)
      then Throw (SqliteConstraint FOREIGNKEY)
      else Ok (with_node_positions d
                 (filter (fun q => negb (NodePosition.contact_id q =? contact_id))
                         (node_positions d)
                  ++ [NodePosition.mk contact_id x y fixed]))
  | _, _ => Throw (SqliteConstraint NOTNULL)
  end.

(** [DELETE FROM node_positions] *)
Definition delete_node_positions (d : database) : result database :=
  Ok (with_node_positions d []).

(** ** ORDER BY, LOWER and LIKE *)

Fixpoint insert_by {A : Type} (le : A -> A -> bool) (a : A) (l : list A) : list A :=
  match l with
  | [] => [a]
  | b :: l' => if le a b then a :: l else b :: insert_by le a l'
  end.

(** A stable sort; rows with equal keys keep their table order. *)
Definition order_by {A : Type} (le : A -> A -> bool) (l : list A) : list A :=
  fold_right (insert_by le) [] l.

(** SQLite orders NULL before every text, and text bytewise (BINARY). *)
Definition value_leb (a b : value) : bool :=
  match a, b with
  | None, _ => true
  | Some _, None => false
  | Some s, Some t => String.leb s t
  end.

(** Case folding of the 26 ASCII letters, which is all that SQLite's
    built-in LOWER and LIKE fold; [String.prototype.toLowerCase] agrees with
    it on ASCII text. *)
Definition lower_ascii (c : ascii) : ascii :=
  let n := N_of_ascii c in
  if ((65 <=? n) && (n <=? 90))%N then ascii_of_N (n + 32) else c.

Fixpoint toLowerCase (s : string) : string :=
  match s with
  | EmptyString => EmptyString
  | String c s' => String (lower_ascii c) (toLowerCase s')
  end.

(** [text LIKE pattern] without ESCAPE: [%] matches any run of characters,
    [_] any one character, every other character itself up to ASCII case. *)
Fixpoint like (pattern text : string) : bool :=
  match pattern with
  | EmptyString => match text with EmptyString => true | _ => false end
  | String "%" p =>
      (fix rest (t : string) : bool :=
         like p t || match t with
                     | EmptyString => false
                     | String _ t' => rest t'
                     end) text
  | String "_" p =>
      match text with
      | EmptyString => false
      | String _ t => like p t
      end
  | String c p =>
      match text with
      | EmptyString => false
      | String e t => (lower_ascii c =? lower_ascii e)%char && like p t
      end
  end.

(** The engine refuses a LIKE pattern of more than 50 000 bytes
    (SQLITE_MAX_LIKE_PATTERN_LENGTH) when it evaluates the operator, that
    is, on the first row it scans. *)
Definition pattern_too_long (pattern : string) : bool :=
  (50000 <? N.of_nat (String.length pattern))%N.

(** What [sqlite3_column_text] gives as sql.js wraps it: the text up to its
    first U+0000. *)
Fixpoint UTF8ToString (s : string) : string :=
  match s with
  | EmptyString => EmptyString
  | String c s' => if (c =? "000")%char then EmptyString else String c (UTF8ToString s')
  end.

(** [getString] on a column that holds text or NULL. *)
Definition getString (v : value) : value := option_map UTF8ToString v.

(** ** Effects: the module state of db.js *)

(** [db] is the module-level engine handle; [idb] is what
    [store.put(buffer, "database")] has written so far, newest first. *)
Record world := mkWorld {
  db : database;
  idb : list database
}.

(** State after [initDatabase()] found nothing saved. *)
Definition initDatabase : world := mkWorld createSchema [].

(** A computation runs on the world and either returns or throws; the world
    it leaves behind is kept in both cases. *)
Definition M (A : Type) : Type := world -> result A * world.

Definition ret {A : Type} (a : A) : M A := fun w => (Ok a, w).

Definition throw {A : Type} (e : exn) : M A := fun w => (Throw e, w).

(** A result computed without the world. *)
Definition lift {A : Type} (r : result A) : M A := fun w => (r, w).

Definition bind {A B : Type} (m : M A) (k : A -> M B) : M B :=
  fun w =>
    match m w with
    | (Ok a, w') => k a w'
    | (Throw e, w') => (Throw e, w')
    end.

Definition try_catch {A : Type} (m : M A) (handler : exn -> M A) : M A :=
  fun w =>
    match m w with
    | (Ok a, w') => (Ok a, w')
    | (Throw e, w') => handler e w'
    end.

Declare Scope js_scope.
Delimit Scope js_scope with js.
Notation "x <- m ;; k" := (bind m (fun x => k))
  (at level 61, m at next level, right associativity) : js_scope.
Notation "m ;; k" := (bind m (fun _ => k))
  (at level 61, right associativity) : js_scope.
Local Open Scope js_scope.

(** [for (const a of l) { body(a) }] *)
Fixpoint for_each {A : Type} (l : list A) (body : A -> M unit) : M unit :=
  match l with
  | [] => ret tt
  | a :: l' => body a ;; for_each l' body
  end.

(** [query(sql, params)]: reads, never writes. *)
Definition query {A : Type} (select : database -> A) : M A :=
  fun w => (Ok (select (db w)), w).

(** [query] on a statement the engine may refuse while it steps through the
    rows: [stmt.step()] throws and nothing is returned. *)
Definition query_stepping {A : Type} (select : database -> result A) : M A :=
  fun w => (select (db w), w).

(** [execute(sql, params)]: [db.run] either applies the statement or throws
    and leaves the tables as they were.  No caller reads the row count it
    returns. *)
Definition execute (statement : database -> result database) : M unit :=
  fun w =>
    match statement (db w) with
    | Ok d => (Ok tt, mkWorld d (idb w))
    | Throw e => (Throw e, w)
    end.

(** [saveToIndexedDB()]: serialise the whole database and put it under the
    one key. *)
Definition saveToIndexedDB : M unit :=
  fun w => (Ok tt, mkWorld (db w) (db w :: idb w)).

Definition run {A : Type} (m : M A) (w : world) : world := snd (m w).
Definition outcome {A : Type} (m : M A) (w : world) : result A := fst (m w).

(** ** js/db.js: export, import, node positions *)

(** A property of a row object: absent (reads as [undefined]), [null], or
    a string. *)
Inductive field := Absent | Null | Text (s : string).

Module ContactRow.
Record t := mk {
  id : field;
  name : field;
  image_url : field;
  image_blob : field;
  notes : field;
  created_at : field
}.
End ContactRow.

Module ConnectionRow.
Record t := mk {
  id : field;
  from_contact_id : field;
  to_contact_id : field;
  label : field;
  created_at : field
}.
End ConnectionRow.

(** [data.contacts] and [data.connections] are [None] when falsy. *)
Module Document.
Record t := mk {
  version : Z;
  exportedAt : string;
  contacts : option (list ContactRow.t);
  connections : option (list ConnectionRow.t)
}.
End Document.

Definition field_of (v : value) : field :=
  match v with
  | Some s => Text s
  | None => Null
  end.

(** A row of [SELECT * FROM contacts] as [getAsObject] hands it over. *)
Definition contact_object (c : Contact.t) : ContactRow.t :=
  ContactRow.mk
    (field_of (getString (Contact.id c)))
    (field_of (getString (Contact.name c)))
    (field_of (getString (Contact.image_url c)))
    (field_of (getString (Contact.image_blob c)))
    (field_of (getString (Contact.notes c)))
    (field_of (getString (Contact.created_at c))).

(** A row of [SELECT * FROM connections] likewise. *)
Definition connection_object (k : Connection.t) : ConnectionRow.t :=
  ConnectionRow.mk
    (field_of (getString (Connection.id k)))
    (Text (UTF8ToString (Connection.from_contact_id k)))
    (Text (UTF8ToString (Connection.to_contact_id k)))
    (field_of (getString (Connection.label k)))
    (field_of (getString (Connection.created_at k))).

(** [exportData()]; [now] is [new Date().toISOString()]. *)
Definition exportData (now : string) : M Document.t :=
  contacts <- query (fun d => map contact_object (contacts d)) ;;
  connections <- query (fun d => map connection_object (connections d)) ;;
  ret (Document.mk 1 now (Some contacts) (Some connections)).

Definition unbound : exn :=
  Thrown "Wrong API use : tried to bind a value of an unknown type (undefined).".

(** [bindValue] of sql.js on one parameter: a string or [null] is bound,
    [undefined] is refused with a thrown string. *)
Definition bindValue (v : field) : result value :=
  match v with
  | Absent => Throw unbound
  | Null => Ok None
  | Text s => Ok (Some s)
  end.

(** [db.run(sql, params)] for the contact INSERT of importData: the six
    parameters are bound, then the statement steps. *)
Definition insert_contact_row (contact : ContactRow.t) (d : database) : result database :=
  match bindValue (ContactRow.id contact), bindValue (ContactRow.name contact),
        bindValue (ContactRow.image_url contact), bindValue (ContactRow.image_blob contact),
        bindValue (ContactRow.notes contact), bindValue (ContactRow.created_at contact)
  with
  | Ok id, Ok name, Ok image_url, Ok image_blob, Ok notes, Ok created_at =>
      insert_contact (Contact.mk id name image_url image_blob notes created_at) d
  | _, _, _, _, _, _ => Throw unbound
  end.

(** Likewise for the connection INSERT and its five parameters. *)
Definition insert_connection_row (conn : ConnectionRow.t) (d : database)
  : result database :=
  match bindValue (ConnectionRow.id conn), bindValue (ConnectionRow.from_contact_id conn),
        bindValue (ConnectionRow.to_contact_id conn), bindValue (ConnectionRow.label conn),
        bindValue (ConnectionRow.created_at conn)
  with
  | Ok id, Ok from_contact_id, Ok to_contact_id, Ok label, Ok created_at =>
      insert_connection_values id from_contact_id to_contact_id label created_at d
  | _, _, _, _, _ => Throw unbound
  end.

(** The body of the first loop of importData: the existence query binds
    [contact.id]; the INSERT is in no try/catch. *)
Definition import_contact (contact : ContactRow.t) : M unit :=
  id <- lift (bindValue (ContactRow.id contact)) ;;
  existing <- query (selects_contact id) ;;
  if existing then ret tt else execute (insert_contact_row contact).

(** The body of the second loop: the existence query is outside the
    try/catch, the INSERT inside. *)
Definition import_connection (conn : ConnectionRow.t) : M unit :=
  id <- lift (bindValue (ConnectionRow.id conn)) ;;
  existing <- query (selects_connection id) ;;
  if existing then ret tt
  else try_catch (execute (insert_connection_row conn)) (fun _ => ret tt).

(** [importData(data)] *)
Definition importData (data : Document.t) : M unit :=
  match Document.contacts data, Document.connections data with
  | Some contacts, Some connections =>
      for_each contacts import_contact ;;
      for_each connections import_connection ;;
      saveToIndexedDB
  | _, _ => throw (Error "Invalid import data format")
  end.

Module Position.
Record t := mk {
  id : string;
  x : float64;
  y : float64;
  fixed : bool
}.
End Position.

(** [saveNodePositions(positions)].  [ensurePositionsTable()] does nothing
    here: the table is part of every database of the model. *)
Definition saveNodePositions (positions : list Position.t) : M unit :=
  for_each positions (fun pos =>
    execute (replace_node_position (Position.id pos)
               (bindNumber (Position.x pos)) (bindNumber (Position.y pos))
               (if Position.fixed pos then 1 else 0)%Z)) ;;
  saveToIndexedDB.

(** [getNodePositions()] *)
Definition getNodePositions : M (list NodePosition.t) := query node_positions.

(** [clearNodePositions()] *)
Definition clearNodePositions : M unit :=
  execute delete_node_positions ;;
  saveToIndexedDB.

(** ** js/contacts.js *)

Module ContactInput.
Record t := mk {
  name : value;
  imageUrl : value;
  imageBlob : value;
  notes : value
}.
End ContactInput.

(** [v || null] on a string-or-null: the empty string is falsy. *)
Definition or_null (v : value) : value :=
  match v with
  | Some EmptyString => None
  | _ => v
  end.

Definition name_leb (a b : Contact.t) : bool :=
  value_leb (Contact.name a) (Contact.name b).

(** [getAllContacts()] *)
Definition getAllContacts : M (list Contact.t) :=
  query (fun d => order_by name_leb (contacts d)).

(** A row of contacts as [getAsObject] hands it over: every text cut at
    its first U+0000. *)
Definition getAsObject (c : Contact.t) : Contact.t :=
  Contact.mk (getString (Contact.id c)) (getString (Contact.name c))
    (getString (Contact.image_url c)) (getString (Contact.image_blob c))
    (getString (Contact.notes c)) (getString (Contact.created_at c)).

(** [getContactById(id)]: [results[0] || null] *)
Definition getContactById (id : string) : M (option Contact.t) :=
  query (fun d =>
    option_map getAsObject
      (hd_error (filter (fun c => is_text (Contact.id c) id) (contacts d)))).

(** The WHERE clause of searchContacts: [LOWER(name) LIKE ?]; a comparison
    with NULL selects nothing. *)
Definition lower_name_like (term : string) (c : Contact.t) : bool :=
  match Contact.name c with
  | None => false
  | Some n => like term (toLowerCase n)
  end.

(** [SELECT * FROM contacts WHERE LOWER(name) LIKE ? ORDER BY name]: the
    pattern is measured when the first row is scanned. *)
Definition select_contacts_like (term : string) (d : database)
  : result (list Contact.t) :=
  match contacts d with
  | [] => Ok []
  | _ :: _ =>
      if pattern_too_long term
      then Throw (Error "LIKE or GLOB pattern too complex")
      else Ok (order_by name_leb (filter (lower_name_like term) (contacts d)))
  end.

(** [searchContacts(searchTerm)] *)
Definition searchContacts (searchTerm : string) : M (list Contact.t) :=
  let term := ("%" ++ toLowerCase searchTerm ++ "%")%string in
  query_stepping (select_contacts_like term).

(** [createContact({name, imageUrl, imageBlob, notes})]; [id] is the UUID
    drawn by [generateId()], [now] the value of the [created_at] default. *)
Definition createContact (id now : string) (c : ContactInput.t) : M (option Contact.t) :=
  execute (insert_contact
             (Contact.mk (Some id) (ContactInput.name c)
                (or_null (ContactInput.imageUrl c))
                (or_null (ContactInput.imageBlob c))
                (or_null (ContactInput.notes c))
                (Some now))) ;;
  saveToIndexedDB ;;
  getContactById id.

(** [updateContact(id, {name, imageUrl, imageBlob, notes})] *)
Definition updateContact (id : string) (c : ContactInput.t) : M (option Contact.t) :=
  execute (update_contact id (ContactInput.name c)
             (or_null (ContactInput.imageUrl c))
             (or_null (ContactInput.imageBlob c))
             (or_null (ContactInput.notes c))) ;;
  saveToIndexedDB ;;
  getContactById id.

(** [deleteContact(id)] *)
Definition deleteContact (id : string) : M unit :=
  execute (delete_connections_of id) ;;
  execute (delete_contact id) ;;
  saveToIndexedDB.

(** ** js/connections.js *)

Module ConnectionView.
Record t := mk {
  row : Connection.t;
  other_contact_id : value;
  other_contact_name : value;
  other_contact_image_url : value;
  other_contact_image_blob : value
}.
End ConnectionView.

(** One joined row [c JOIN cf JOIN ct] with the four CASE columns. *)
Definition view (contactId : string) (c : Connection.t) (cf ct : Contact.t)
  : ConnectionView.t :=
  let other := if Connection.from_contact_id c =? contactId then ct else cf in
  ConnectionView.mk c (Contact.id other) (Contact.name other)
    (Contact.image_url other) (Contact.image_blob other).

Definition created_desc (a b : ConnectionView.t) : bool :=
  value_leb (Connection.created_at (ConnectionView.row b))
            (Connection.created_at (ConnectionView.row a)).

(** [getConnectionsForContact(contactId)]: the connections are scanned in
    rowid order and then sorted, so that rows of equal [created_at] stay in
    that order. *)
Definition getConnectionsForContact (contactId : string) : M (list ConnectionView.t) :=
  query (fun d =>
    order_by created_desc
      (flat_map (fun c =>
         flat_map (fun cf =>
           flat_map (fun ct =>
             if is_text (Contact.id cf) (Connection.from_contact_id c)
                && is_text (Contact.id ct) (Connection.to_contact_id c)
                && mentions contactId c
             then [view contactId c cf ct] else [])
           (contacts d))
         (contacts d))
       (connections d))).

(** [connectionExists(fromId, toId)]: [results.length > 0] *)
Definition connectionExists (fromId toId : string) : M bool :=
  query (fun d => existsb (between fromId toId) (connections d)).

Module Created.
Record t := mk {
  id : string;
  fromContactId : string;
  toContactId : string;
  label : value
}.
End Created.

(** [createConnection({fromContactId, toContactId, label})]; [id1], [id2]
    are the two UUIDs drawn after the checks, [now1], [now2] the
    [created_at] defaults of the two INSERTs. *)
Definition createConnection (id1 id2 now1 now2 : string)
    (fromContactId toContactId : string) (label : value) : M Created.t :=
  if fromContactId =? toContactId
  then throw (Error "Cannot connect a contact to themselves")
  else
    exists_ <- connectionExists fromContactId toContactId ;;
    if exists_
    then throw (Error "Connection already exists between these contacts")
    else
      execute (insert_connection
                 (Connection.mk (Some id1) fromContactId toContactId label (Some now1))) ;;
      execute (insert_connection
                 (Connection.mk (Some id2) toContactId fromContactId label (Some now2))) ;;
      saveToIndexedDB ;;
      ret (Created.mk id1 fromContactId toContactId label).

(** [updateConnection(fromContactId, toContactId, {label})] *)
Definition updateConnection (fromContactId toContactId : string) (label : value) : M unit :=
  execute (update_connection_label label fromContactId toContactId) ;;
  saveToIndexedDB.

(** [deleteConnection(fromContactId, toContactId)] *)
Definition deleteConnection (fromContactId toContactId : string) : M unit :=
  execute (delete_connections_between fromContactId toContactId) ;;
  saveToIndexedDB.

(** * Vocabulary of the properties *)

(** ** Reading the tables *)

Definition row_exists (A B : string) (d : database) : Prop :=
  exists k, In k (connections d)
            /\ Connection.from_contact_id k = A /\ Connection.to_contact_id k = B.

(** A connection row exists between [A] and [B] in either order. *)
Definition row_between (A B : string) (d : database) : Prop :=
  row_exists A B d \/ row_exists B A d.

Definition pair_in (A B : string) (ks : list Connection.t) : Prop :=
  exists k, In k ks /\ Connection.from_contact_id k = A /\ Connection.to_contact_id k = B.

Definition references_exist (d : database) : Prop :=
  (forall k, In k (connections d) ->
             has_contact (Connection.from_contact_id k) d = true
             /\ has_contact (Connection.to_contact_id k) d = true)
  /\ (forall p, In p (node_positions d) ->
                has_contact (NodePosition.contact_id p) d = true).

(** Enforcement is on and every reference resolves. *)
Definition enforced (d : database) : Prop :=
  foreign_keys d = true /\ references_exist d.

(** ** Reachable states *)

(** The calls the presentation layer can make, with the values each call
    draws from [generateId()] and [datetime('now')]. *)
Inductive operation :=
| CreateContact (id now : string) (c : ContactInput.t)
| UpdateContact (id : string) (c : ContactInput.t)
| DeleteContact (id : string)
| CreateConnection (id1 id2 now1 now2 fromContactId toContactId : string) (label : value)
| UpdateConnection (fromContactId toContactId : string) (label : value)
| DeleteConnection (fromContactId toContactId : string)
| ImportData (data : Document.t)
| SaveNodePositions (positions : list Position.t)
| ClearNodePositions.

(** The world a call leaves behind, whether it returned or threw. *)
Definition perform (o : operation) (w : world) : world :=
  match o with
  | CreateContact id now c => run (createContact id now c) w
  | UpdateContact id c => run (updateContact id c) w
  | DeleteContact id => run (deleteContact id) w
  | CreateConnection id1 id2 now1 now2 a b l =>
      run (createConnection id1 id2 now1 now2 a b l) w
  | UpdateConnection a b l => run (updateConnection a b l) w
  | DeleteConnection a b => run (deleteConnection a b) w
  | ImportData data => run (importData data) w
  | SaveNodePositions ps => run (saveNodePositions ps) w
  | ClearNodePositions => run clearNodePositions w
  end.

(** [crypto.randomUUID()] is taken to return identifiers that no stored row
    of the table carries, and two different ones for two draws. *)
Definition generated_fresh (o : operation) (w : world) : bool :=
  match o with
  | CreateContact id _ _ => negb (has_contact id (db w))
  | CreateConnection id1 id2 _ _ _ _ _ =>
      negb (id1 =? id2)
      && negb (has_connection id1 (db w))
      && negb (has_connection id2 (db w))
  | _ => true
  end.

(** States reached from a fresh database by calls among [allowed]. *)
Inductive reachable (allowed : operation -> bool) : world -> Prop :=
| reachable_init : reachable allowed initDatabase
| reachable_step (w : world) (o : operation) :
    reachable allowed w ->
    allowed o = true ->
    generated_fresh o w = true ->
    reachable allowed (perform o w).

Definition any_operation (o : operation) : bool := true.

(** The five operations that write to [connections]: createConnection,
    updateConnection, deleteConnection, deleteContact and importData. *)
Definition connection_writer (o : operation) : bool :=
  match o with
  | CreateConnection _ _ _ _ _ _ _ | UpdateConnection _ _ _
  | DeleteConnection _ _ | DeleteContact _ | ImportData _ => true
  | _ => false
  end.

Definition not_import (o : operation) : bool :=
  match o with
  | ImportData _ => false
  | _ => true
  end.

(** The four ways a repository call rewrites [connections]. *)
Inductive rewrites (ks : list Connection.t) : list Connection.t -> Prop :=
| rewrites_none : rewrites ks ks
| rewrites_delete (p : string -> string -> bool) :
    (forall a b, p a b = p b a) ->
    rewrites ks (filter (fun k => p (Connection.from_contact_id k)
                                    (Connection.to_contact_id k)) ks)
| rewrites_relabel (f : Connection.t -> Connection.t) :
    (forall k, Connection.from_contact_id (f k) = Connection.from_contact_id k
               /\ Connection.to_contact_id (f k) = Connection.to_contact_id k) ->
    rewrites ks (map f ks)
| rewrites_pair (k1 k2 : Connection.t) :
    Connection.from_contact_id k2 = Connection.to_contact_id k1 ->
    Connection.to_contact_id k2 = Connection.from_contact_id k1 ->
    rewrites ks (ks ++ [k1; k2])
| rewrites_then (ks1 ks2 : list Connection.t) :
    rewrites ks ks1 -> rewrites ks1 ks2 -> rewrites ks ks2.

(** ** What a computation keeps *)

(** A property of the database that a computation keeps, whether it
    returns or throws. *)
Definition preserves {A : Type} (P : database -> Prop) (m : M A) : Prop :=
  forall w, P (db w) -> P (db (snd (m w))).

Definition statement_preserves (P : database -> Prop)
    (statement : database -> result database) : Prop :=
  forall d d', P d -> statement d = Ok d' -> P d'.

(** ** Substrings and wildcards *)

(** [s.includes(t)], the test the search dropdowns of the interface apply to
    the lower-cased name and query. *)
Fixpoint includes (s t : string) : bool :=
  String.prefix t s
  || match s with
     | EmptyString => false
     | String _ s' => includes s' t
     end.

Definition wildcard (c : ascii) : bool := ((c =? "%") || (c =? "_"))%char.

Fixpoint wildcard_free (t : string) : bool :=
  match t with
  | EmptyString => true
  | String c t' => negb (wildcard c) && wildcard_free t'
  end.

(** ** Rows of a document *)

(** What a property is bound to; nothing when it is absent. *)
Definition bound (v : field) : option value :=
  match v with
  | Absent => None
  | Null => Some None
  | Text s => Some (Some s)
  end.

(** The row a contact row of a document is stored as, if its six
    properties can be bound. *)
Definition contact_of_row (c : ContactRow.t) : option Contact.t :=
  match bound (ContactRow.id c), bound (ContactRow.name c),
        bound (ContactRow.image_url c), bound (ContactRow.image_blob c),
        bound (ContactRow.notes c), bound (ContactRow.created_at c)
  with
  | Some id, Some name, Some image_url, Some image_blob, Some notes, Some created_at =>
      Some (Contact.mk id name image_url image_blob notes created_at)
  | _, _, _, _, _, _ => None
  end.

(** The row a connection row of a document is stored as, if its five
    properties can be bound and its endpoints are not null. *)
Definition connection_of_row (k : ConnectionRow.t) : option Connection.t :=
  match bound (ConnectionRow.id k), ConnectionRow.from_contact_id k,
        ConnectionRow.to_contact_id k, bound (ConnectionRow.label k),
        bound (ConnectionRow.created_at k)
  with
  | Some id, Text a, Text b, Some label, Some created_at =>
      Some (Connection.mk id a b label created_at)
  | _, _, _, _, _ => None
  end.

(** A stored row written out as a row of a document. *)
Definition contact_row (c : Contact.t) : ContactRow.t :=
  ContactRow.mk (field_of (Contact.id c)) (field_of (Contact.name c))
    (field_of (Contact.image_url c)) (field_of (Contact.image_blob c))
    (field_of (Contact.notes c)) (field_of (Contact.created_at c)).

Definition connection_row (k : Connection.t) : ConnectionRow.t :=
  ConnectionRow.mk (field_of (Connection.id k))
    (Text (Connection.from_contact_id k)) (Text (Connection.to_contact_id k))
    (field_of (Connection.label k)) (field_of (Connection.created_at k)).

(** A connection row as it is read back: every text up to its first
    U+0000. *)
Definition read_connection (k : Connection.t) : Connection.t :=
  Connection.mk (getString (Connection.id k))
    (UTF8ToString (Connection.from_contact_id k))
    (UTF8ToString (Connection.to_contact_id k))
    (getString (Connection.label k)) (getString (Connection.created_at k)).


(** ** Scenarios and documents *)

(** The example scenario of the specification: Alice, Bob, and one
    connection Alice -> Bob labelled "friend". *)
Definition Alice : ContactInput.t := ContactInput.mk (Some "Alice") None None None.
Definition Bob : ContactInput.t := ContactInput.mk (Some "Bob") None None None.

Definition example_scenario : world :=
  perform (CreateConnection "k1" "k2" "2024-05-01 09:00:02" "2024-05-01 09:00:02"
             "alice" "bob" (Some "friend"))
    (perform (CreateContact "bob" "2024-05-01 09:00:01" Bob)
       (perform (CreateContact "alice" "2024-05-01 09:00:00" Alice) initDatabase)).

(** What [exportData()] returns in the example scenario. *)
Definition example_export : Document.t :=
  Document.mk 1 "2024-05-01T10:00:00.000Z"
    (Some (map contact_object (contacts (db example_scenario))))
    (Some (map connection_object (connections (db example_scenario)))).

(** A contact with a saved node position. *)
Definition Alice_positioned : world :=
  perform (SaveNodePositions [Position.mk "alice" 0%Z 0%Z false])
    (perform (CreateContact "alice" "2024-05-01 09:00:00" Alice) initDatabase).

Definition Alice_alone : world :=
  perform (CreateContact "alice" "2024-05-01 09:00:00" Alice) initDatabase.

(** A document with two contacts and a single directed row between them. *)
Definition one_way_document : Document.t :=
  Document.mk 1 "2024-05-01T10:00:00.000Z"
    (Some [ContactRow.mk (Text "a") (Text "Alice") Null Null Null
             (Text "2024-05-01 09:00:00");
           ContactRow.mk (Text "b") (Text "Bob") Null Null Null
             (Text "2024-05-01 09:00:01")])
    (Some [ConnectionRow.mk (Text "k") (Text "a") (Text "b") (Text "friend")
             (Text "2024-05-01 09:00:02")]).

(** A document whose only row references two contacts nobody has. *)
Definition orphan_document : Document.t :=
  Document.mk 1 "2024-05-01T10:00:00.000Z"
    (Some [])
    (Some [ConnectionRow.mk (Text "k") (Text "a") (Text "b") (Text "friend")
             (Text "2024-05-01 09:00:02")]).


(** A document whose only contact row has a null id. *)
Definition null_id_document : Document.t :=
  Document.mk 1 "2024-05-01T10:00:00.000Z"
    (Some [ContactRow.mk Null (Text "Nora") Null Null Null (Text "2024-05-01 09:00:00")])
    (Some []).

(** A document whose only contact row has an id that holds U+0000. *)
Definition nul_id_document : Document.t :=
  Document.mk 1 "2024-05-01T10:00:00.000Z"
    (Some [ContactRow.mk (Text (String "a" (String "000" (String "b" EmptyString))))
             (Text "Nell") Null Null Null (Text "2024-05-01 09:00:00")])
    (Some []).


(** A document that repeats a pair under a new id and has a row without
    label. *)
Definition overlapping_document : Document.t :=
  Document.mk 1 "2024-05-01T10:00:00.000Z"
    (Some [ContactRow.mk (Text "a") (Text "Alice") Null Null Null
             (Text "2024-05-01 09:00:00");
           ContactRow.mk (Text "b") (Text "Bob") Null Null Null
             (Text "2024-05-01 09:00:01")])
    (Some [ConnectionRow.mk (Text "k1") (Text "a") (Text "b") (Text "friend")
             (Text "2024-05-01 09:00:02");
           ConnectionRow.mk (Text "k3") (Text "a") (Text "b") (Text "colleague")
             (Text "2024-05-01 09:00:03");
           ConnectionRow.mk (Text "k4") (Text "a") (Text "b") Null
             (Text "2024-05-01 09:00:04");
           ConnectionRow.mk (Text "k2") (Text "b") (Text "a") (Text "friend")
             (Text "2024-05-01 09:00:05")]).

(** * More of the code *)

From Stdlib Require Import Permutation Sorted.

(** ** js/db.js: the next page load *)

(** [loadFromIndexedDB()]: [getRequest.result || null]. *)
Definition loadFromIndexedDB (w : world) : option database := hd_error (idb w).

(** [initDatabase()] when the page is loaded again: the saved snapshot is
    opened if there is one, else a fresh schema is created.  A snapshot
    holds the tables; the new connection starts, like every connection,
    with foreign-key enforcement off. *)
Definition initDatabase_again (w : world) : world :=
  mkWorld
    (match loadFromIndexedDB w with
     | Some savedData =>
         mkDatabase (contacts savedData) (connections savedData)
           (node_positions savedData) false
     | None => createSchema
     end)
    (idb w).

(** ** js/contacts.js: the image of a contact *)

(** A string-or-null is truthy when it is a non-empty string. *)
Definition truthy (v : value) : bool :=
  match v with
  | Some (String _ _) => true
  | _ => false
  end.

(** [getContactImage(contact)] *)
Definition getContactImage (contact : Contact.t) : string :=
  match Contact.image_blob contact with
  | Some (String c s) => String c s
  | _ =>
      match Contact.image_url contact with
      | Some (String c s) => String c s
      | _ => "assets/placeholder.svg"
      end
  end.

(** ** js/connections.js: the two listings *)

Module ConnectionNames.
Record t := mk {
  row : Connection.t;
  from_name : value;
  from_image_url : value;
  from_image_blob : value;
  to_name : value;
  to_image_url : value;
  to_image_blob : value
}.
End ConnectionNames.




Module UniqueConnection.
Record t := mk {
  id : value;
  contact1_id : string;
  contact2_id : string;
  label : value
}.
End UniqueConnection.

(** [CASE WHEN c.from_contact_id < c.to_contact_id THEN c.from_contact_id
    ELSE c.to_contact_id END], text compared bytewise. *)
Definition contact1 (c : Connection.t) : string :=
  if String.ltb (Connection.from_contact_id c) (Connection.to_contact_id c)
  then Connection.from_contact_id c else Connection.to_contact_id c.

(** [CASE WHEN c.from_contact_id < c.to_contact_id THEN c.to_contact_id
    ELSE c.from_contact_id END] *)
Definition contact2 (c : Connection.t) : string :=
  if String.ltb (Connection.from_contact_id c) (Connection.to_contact_id c)
  then Connection.to_contact_id c else Connection.from_contact_id c.

(** The two GROUP BY expressions of a row. *)
Definition group_key (c : Connection.t) : string * string := (contact1 c, contact2 c).

Definition key_eqb (a b : string * string) : bool :=
  (fst a =? fst b) && (snd a =? snd b).

Definition key_leb (a b : string * string) : bool :=
  String.ltb (fst a) (fst b) || ((fst a =? fst b) && String.leb (snd a) (snd b)).

(** The keys of a list, each once, at its first occurrence. *)
Fixpoint distinct_keys (seen : list (string * string)) (l : list (string * string))
  : list (string * string) :=
  match l with
  | [] => []
  | a :: l' =>
      if existsb (key_eqb a) seen then distinct_keys seen l'
      else a :: distinct_keys (a :: seen) l'
  end.

(** [MIN(c.id)] steps through the rows of a group: a row takes the place
    of the one held so far when its id is below the minimum, NULL being
    ignored, or when no minimum has been found yet. *)
Definition takes_over (k c : Connection.t) : bool :=
  match Connection.id k, Connection.id c with
  | Some a, Some b => String.ltb a b
  | Some _, None => true
  | None, None => true
  | None, Some _ => false
  end.

(** The row of a group that [MIN(c.id)] selects; the bare column [c.label]
    is read from the same row. *)
Fixpoint min_id_row (c : Connection.t) (rest : list Connection.t) : Connection.t :=
  match rest with
  | [] => c
  | k :: rest' => min_id_row (if takes_over k c then k else c) rest'
  end.

(** One output row per group.  SQL leaves the order of the groups open; the
    engine sorts the rows on the two GROUP BY expressions, so the groups
    come in the order of their keys. *)
Definition grouped (ks : list Connection.t) : list UniqueConnection.t :=
  flat_map (fun key =>
    match filter (fun c => key_eqb (group_key c) key) ks with
    | [] => []
    | c :: rest =>
        let m := min_id_row c rest in
        [UniqueConnection.mk (Connection.id m) (fst key) (snd key) (Connection.label m)]
    end)
    (order_by key_leb (distinct_keys [] (map group_key ks))).

Definition value_eqb (a b : value) : bool :=
  match a, b with
  | None, None => true
  | Some s, Some t => s =? t
  | _, _ => false
  end.

Definition unique_eqb (a b : UniqueConnection.t) : bool :=
  value_eqb (UniqueConnection.id a) (UniqueConnection.id b)
  && (UniqueConnection.contact1_id a =? UniqueConnection.contact1_id b)
  && (UniqueConnection.contact2_id a =? UniqueConnection.contact2_id b)
  && value_eqb (UniqueConnection.label a) (UniqueConnection.label b).

(** [SELECT DISTINCT]: a row equal to an earlier one is dropped. *)
Fixpoint distinct (seen rows : list UniqueConnection.t) : list UniqueConnection.t :=
  match rows with
  | [] => []
  | r :: rows' =>
      if existsb (unique_eqb r) seen then distinct seen rows'
      else r :: distinct (r :: seen) rows'
  end.

(** [getUniqueConnections()] *)
Definition getUniqueConnections : M (list UniqueConnection.t) :=
  query (fun d => distinct [] (grouped (connections d))).

(** ** js/ui.js: initials *)

(** [name.split(" ")] *)
Fixpoint split_spaces (s : string) : list string :=
  match s with
  | EmptyString => [EmptyString]
  | String c s' =>
      if (c =? " ")%char then EmptyString :: split_spaces s'
      else match split_spaces s' with
           | w :: ws => String c w :: ws
           | [] => [String c EmptyString]
           end
  end.

(** [word[0]] as [join("")] prints it: nothing for the empty word. *)
Definition first_letter (word : string) : string :=
  match word with
  | EmptyString => EmptyString
  | String c _ => String c EmptyString
  end.

(** [toUpperCase] on the 26 ASCII letters, as [toLowerCase] above. *)
Definition upper_ascii (c : ascii) : ascii :=
  let n := N_of_ascii c in
  if ((97 <=? n) && (n <=? 122))%N then ascii_of_N (n - 32) else c.

Fixpoint toUpperCase (s : string) : string :=
  match s with
  | EmptyString => EmptyString
  | String c s' => String (upper_ascii c) (toUpperCase s')
  end.

(** [getInitials(name)] *)
Definition getInitials (name : string) : string :=
  String.substring 0 2
    (toUpperCase (String.concat "" (map first_letter (split_spaces name)))).

(** ** js/network.js: positions and the graph *)

(** [saveCurrentPositions()]; the argument is [network.getPositions()] as
    the list of its entries, or [None] before the network exists. *)
Definition saveCurrentPositions
    (network : option (list (string * (float64 * float64)))) : M unit :=
  match network with
  | None => ret tt
  | Some positions =>
      let posArray :=
        map (fun entry => Position.mk (fst entry) (fst (snd entry)) (snd (snd entry)) false)
            positions in
      if (0 <? length posArray)%nat then saveNodePositions posArray else ret tt
  end.

Module Node.
Record t := mk {
  id : value;
  label : value;
  shape : string;
  image : option string;
  x : option float64;
  y : option float64
}.
End Node.

Module Edge.
Record t := mk {
  id : string;
  from : string;
  to : string;
  label : value;
  fromId : string;
  toId : string
}.
End Edge.

(** [Map.prototype.set] and [get] on a map kept as its entries. *)
Definition map_set {V : Type} (k : string) (v : V) (m : list (string * V))
  : list (string * V) :=
  (k, v) :: filter (fun e => negb (fst e =? k)) m.

Definition map_get {V : Type} (k : string) (m : list (string * V)) : option V :=
  option_map snd (find (fun e => fst e =? k) m).

(** [contacts.filter((c) => c.name.toLowerCase().includes(
    searchTerm.toLowerCase()))]; a null name makes [toLowerCase] a
    TypeError. *)
Fixpoint filter_by_name (searchTerm : string) (cs : list Contact.t)
  : result (list Contact.t) :=
  match cs with
  | [] => Ok []
  | c :: cs' =>
      match Contact.name c with
      | None => Throw (Error "Cannot read properties of null (reading 'toLowerCase')")
      | Some n =>
          match filter_by_name searchTerm cs' with
          | Ok rest =>
              Ok (if includes (toLowerCase n) (toLowerCase searchTerm)
                  then c :: rest else rest)
          | Throw e => Throw e
          end
      end
  end.

Definition node_of (positionMap : list (string * (float64 * float64 * Z)))
    (contact : Contact.t) : Node.t :=
  let savedPos :=
    match Contact.id contact with
    | Some id => map_get id positionMap
    | None => None
    end in
  let hasImage := truthy (Contact.image_blob contact) || truthy (Contact.image_url contact) in
  Node.mk (Contact.id contact) (Contact.name contact)
    (if hasImage then "circularImage" else "box")
    (if hasImage then Some (getContactImage contact) else None)
    (option_map (fun p => fst (fst p)) savedPos)
    (option_map (fun p => snd (fst p)) savedPos).

Definition edge_of (conn : UniqueConnection.t) : Edge.t :=
  Edge.mk
    (UniqueConnection.contact1_id conn ++ "-" ++ UniqueConnection.contact2_id conn)%string
    (UniqueConnection.contact1_id conn) (UniqueConnection.contact2_id conn)
    (UniqueConnection.label conn)
    (UniqueConnection.contact1_id conn) (UniqueConnection.contact2_id conn).

(** [refreshNetwork(searchTerm)], up to the two lists it hands to the
    vis-network data sets; the fixed colours, fonts and margins of a node
    are left out. *)
Definition refreshNetwork (searchTerm : string) : M (list Node.t * list Edge.t) :=
  contacts <- getAllContacts ;;
  connections <- getUniqueConnections ;;
  savedPositions <- getNodePositions ;;
  let positionMap :=
    fold_left (fun m pos =>
                 map_set (NodePosition.contact_id pos)
                   (NodePosition.x pos, NodePosition.y pos, NodePosition.fixed pos) m)
              savedPositions [] in
  filteredContacts <-
    (match searchTerm with
     | EmptyString => ret contacts
     | _ => lift (filter_by_name searchTerm contacts)
     end) ;;
  let filteredContactIds := map Contact.id filteredContacts in
  let nodes := map (node_of positionMap) filteredContacts in
  let edges :=
    map edge_of
      (filter (fun conn =>
                 existsb (fun id => is_text id (UniqueConnection.contact1_id conn))
                         filteredContactIds
                 && existsb (fun id => is_text id (UniqueConnection.contact2_id conn))
                            filteredContactIds)
              connections) in
  ret (nodes, edges).

(** [resetPositions()] *)
Definition resetPositions : M (list Node.t * list Edge.t) :=
  clearNodePositions ;;
  refreshNetwork "".

(** ** Vocabulary for the rest of the code *)

Definition is_ok {A : Type} (r : result A) : bool :=
  match r with
  | Ok _ => true
  | Throw _ => false
  end.

(** The call returned rather than threw. *)
Definition completes (o : operation) (w : world) : bool :=
  match o with
  | CreateContact id now c => is_ok (outcome (createContact id now c) w)
  | UpdateContact id c => is_ok (outcome (updateContact id c) w)
  | DeleteContact id => is_ok (outcome (deleteContact id) w)
  | CreateConnection id1 id2 now1 now2 a b l =>
      is_ok (outcome (createConnection id1 id2 now1 now2 a b l) w)
  | UpdateConnection a b l => is_ok (outcome (updateConnection a b l) w)
  | DeleteConnection a b => is_ok (outcome (deleteConnection a b) w)
  | ImportData data => is_ok (outcome (importData data) w)
  | SaveNodePositions ps => is_ok (outcome (saveNodePositions ps) w)
  | ClearNodePositions => is_ok (outcome clearNodePositions w)
  end.

(** The ordered pair of a row, the key of UNIQUE(from_contact_id,
    to_contact_id). *)
Definition pair_of (k : Connection.t) : string * string :=
  (Connection.from_contact_id k, Connection.to_contact_id k).

(** The entries of a column that are not NULL. *)
Definition keys (column : list value) : list string :=
  flat_map (fun v => match v with Some s => [s] | None => [] end) column.

(** The text holds no U+0000, so it is read back whole. *)
Definition nul_free (s : string) : Prop := UTF8ToString s = s.

(** The value is NULL or a text without U+0000. *)
Definition read_whole (v : value) : Prop := getString v = v.

(** The PRIMARY KEY, UNIQUE and NOT NULL clauses of the schema, as facts
    about the tables; a primary key may be NULL any number of times. *)
Definition constraints_hold (d : database) : Prop :=
  NoDup (keys (map Contact.id (contacts d)))
  /\ (forall c, In c (contacts d) -> Contact.name c <> None)
  /\ NoDup (keys (map Connection.id (connections d)))
  /\ NoDup (map pair_of (connections d))
  /\ (forall k, In k (connections d) -> Connection.label k <> None)
  /\ NoDup (map NodePosition.contact_id (node_positions d)).


(** The row [saveNodePositions] writes for one entry, if the engine takes
    its coordinates. *)
Definition position_row (pos : Position.t) : option NodePosition.t :=
  match bindNumber (Position.x pos), bindNumber (Position.y pos) with
  | Some x, Some y =>
      Some (NodePosition.mk (Position.id pos) x y (if Position.fixed pos then 1 else 0)%Z)
  | _, _ => None
  end.

(** The stored position of a contact, if any. *)
Definition saved_position (id : string) (d : database) : option NodePosition.t :=
  find (fun p => NodePosition.contact_id p =? id) (node_positions d).

(** The stored position of the contact with that id; none for a null id,
    which is no key of the table. *)
Definition position_of (id : value) (d : database) : option NodePosition.t :=
  match id with
  | Some i => saved_position i d
  | None => None
  end.

(** The last entry of a list of positions that names [id], if any. *)
Definition last_position (id : string) (ps : list Position.t) : option Position.t :=
  find (fun p => Position.id p =? id) (rev ps).


(** The computation leaves the store alone. *)
Definition silent {A : Type} (m : M A) : Prop :=
  forall w, idb (snd (m w)) = idb w.

(** The computation only reads: it returns and leaves the world as it is. *)
Definition reads {A : Type} (m : M A) : Prop :=
  forall w, exists a, m w = (Ok a, w).

(** The computation writes the store once, as its last change, when it
    returns, and not at all when it throws. *)
Definition flushes_last {A : Type} (m : M A) : Prop :=
  forall w,
    match m w with
    | (Ok _, w') => idb w' = db w' :: idb w
    | (Throw _, w') => idb w' = idb w
    end.

(** What is stored for a number that is not NaN: [-0] is stored as 0. *)
Definition stored_number (x : float64) : float64 :=
  if (x =? negative_zero)%Z then 0%Z else x.

(** The engine takes every coordinate of the list: none is NaN. *)
Definition storable (ps : list Position.t) : bool :=
  forallb (fun pos => negb (is_nan (Position.x pos)) && negb (is_nan (Position.y pos))) ps.

(** The rows that the loop of [saveNodePositions] writes: one for each
    entry, up to the first entry with a coordinate the engine refuses. *)
Fixpoint rows_written (ps : list Position.t) : list NodePosition.t :=
  match ps with
  | [] => []
  | pos :: ps' =>
      match position_row pos with
      | Some row => row :: rows_written ps'
      | None => []
      end
  end.

(** What one [INSERT OR REPLACE] of [saveNodePositions] does to the table
    when it is not rejected. *)
Definition save_step (table : list NodePosition.t) (row : NodePosition.t)
  : list NodePosition.t :=
  filter (fun q => negb (NodePosition.contact_id q =? NodePosition.contact_id row)) table
  ++ [row].


(** The [positionMap] that [refreshNetwork] builds from the saved rows. *)
Definition position_map (rows : list NodePosition.t)
  : list (string * (float64 * float64 * Z)) :=
  fold_left (fun m pos =>
               map_set (NodePosition.contact_id pos)
                 (NodePosition.x pos, NodePosition.y pos, NodePosition.fixed pos) m)
            rows [].

(** Both ends of the row are among the contacts shown. *)
Definition visible (ids : list value) (conn : UniqueConnection.t) : bool :=
  existsb (fun id => is_text id (UniqueConnection.contact1_id conn)) ids
  && existsb (fun id => is_text id (UniqueConnection.contact2_id conn)) ids.

(** The text is of ASCII characters other than U+0000: its bytes are its
    UTF-16 units, the engine's C-string functions read it whole, and the
    case mapping of JavaScript and that of the engine agree on it. *)
Fixpoint plain_text (s : string) : bool :=
  match s with
  | EmptyString => true
  | String c s' => (0 <? N_of_ascii c)%N && (N_of_ascii c <? 128)%N && plain_text s'
  end.

(** Every byte of the text is below 128: the text is ASCII, and its bytes
    are its UTF-16 units. *)
Fixpoint ascii_text (s : string) : bool :=
  match s with
  | EmptyString => true
  | String c s' => (N_of_ascii c <? 128)%N && ascii_text s'
  end.

(** Neither a space nor a lower-case letter. *)
Definition initial_char (c : ascii) : Prop :=
  c <> " "%char /\ upper_ascii c = c.

Fixpoint every_char (P : ascii -> Prop) (s : string) : Prop :=
  match s with
  | EmptyString => True
  | String c s' => P c /\ every_char P s'
  end.

(** Alice and Bob, not yet connected. *)
Definition Alice_and_Bob : world :=
  perform (CreateContact "bob" "2024-05-01 09:00:01" Bob)
    (perform (CreateContact "alice" "2024-05-01 09:00:00" Alice) initDatabase).

(** * Properties *)

Ltac each_ascii c := destruct c as [[] [] [] [] [] [] [] []].

(** ** Reading the tables *)

Lemma is_text_true v s : is_text v s = true <-> v = Some s.
Proof.
  destruct v as [t|]; simpl; [rewrite String.eqb_eq|]; split; congruence.
Qed.

Lemma is_text_false v s : is_text v s = false <-> v <> Some s.
Proof.
  rewrite <- is_text_true. destruct (is_text v s); split; congruence.
Qed.

Lemma has_contact_true i d :
  has_contact i d = true <-> exists c, In c (contacts d) /\ Contact.id c = Some i.
Proof.
  unfold has_contact. rewrite existsb_exists.
  split; intros [c [Hin Hc]]; exists c; split; trivial; now apply is_text_true.
Qed.

Lemma has_connection_true i d :
  has_connection i d = true
  <-> exists k, In k (connections d) /\ Connection.id k = Some i.
Proof.
  unfold has_connection. rewrite existsb_exists.
  split; intros [k [Hin Hk]]; exists k; split; trivial; now apply is_text_true.
Qed.

Lemma has_pair_true a b d : has_pair a b d = true <-> row_exists a b d.
Proof.
  unfold has_pair, row_exists. rewrite existsb_exists.
  split; intros [k [Hin Hk]]; exists k; split; trivial.
  - apply andb_true_iff in Hk. now rewrite !String.eqb_eq in Hk.
  - apply andb_true_iff. now rewrite !String.eqb_eq.
Qed.

Lemma between_true a b k :
  between a b k = true <->
  (Connection.from_contact_id k = a /\ Connection.to_contact_id k = b)
  \/ (Connection.from_contact_id k = b /\ Connection.to_contact_id k = a).
Proof.
  unfold between. now rewrite orb_true_iff, !andb_true_iff, !String.eqb_eq.
Qed.

Lemma exists_between_true a b d :
  existsb (between a b) (connections d) = true <-> row_between a b d.
Proof.
  unfold row_between, row_exists. rewrite existsb_exists. split.
  - intros [k [Hin Hk]]. apply between_true in Hk.
    destruct Hk as [Hk | Hk]; [left | right]; now exists k.
  - intros [[k [Hin Hk]] | [k [Hin Hk]]]; exists k; split; trivial;
      apply between_true; tauto.
Qed.

(** ** Rejected connections (C8) *)

(** C8.  [createConnection(A, A, L)] throws the named error "Cannot connect
    a contact to themselves"; for distinct [A], [B] with a stored row between
    them in either order it throws "Connection already exists between these
    contacts".  In both cases the world after the call is the world before
    it: no row inserted, nothing written to the store. *)
Theorem createConnection_rejected :
  forall (id1 id2 now1 now2 A B : string) (L : value) (w : world),
    A = B \/ row_between A B (db w) ->
    createConnection id1 id2 now1 now2 A B L w
    = (Throw (Error (if A =? B
                     then "Cannot connect a contact to themselves"
                     else "Connection already exists between these contacts")),
       w).
Proof.
  intros id1 id2 now1 now2 A B L w H.
  unfold createConnection.
  destruct (A =? B) eqn:E; [reflexivity|].
  destruct H as [H | H].
  - apply String.eqb_neq in E. contradiction.
  - apply exists_between_true in H.
    unfold bind, connectionExists, query. now rewrite H.
Qed.

(** C8 at work: a second connection between Bob and Alice, asked for in the
    other direction, is rejected and the example scenario is left as it is. *)
Lemma createConnection_rejected_witness :
  createConnection "k3" "k4" "2024-05-01 09:10:00" "2024-05-01 09:10:00"
    "bob" "alice" (Some "colleague") example_scenario
  = (Throw (Error "Connection already exists between these contacts"), example_scenario).
Proof.
  apply (createConnection_rejected "k3" "k4" "2024-05-01 09:10:00" "2024-05-01 09:10:00"
           "bob" "alice" (Some "colleague") example_scenario).
  right. left. apply has_pair_true. reflexivity.
Defined.

(** ** Importing row by row *)

Lemma bindValue_field_of v : bindValue (field_of v) = Ok v.
Proof. now destruct v. Qed.

Lemma bindValue_bound v :
  bindValue v = match bound v with Some x => Ok x | None => Throw unbound end.
Proof. now destruct v. Qed.

(** What the first loop does with one row. *)
Lemma import_contact_step c w :
  import_contact c w
  = match bindValue (ContactRow.id c) with
    | Throw e => (Throw e, w)
    | Ok id =>
        if selects_contact id (db w) then (Ok tt, w)
        else match insert_contact_row c (db w) with
             | Ok d => (Ok tt, mkWorld d (idb w))
             | Throw e => (Throw e, w)
             end
    end.
Proof.
  unfold import_contact, bind, lift, query, execute.
  destruct (bindValue _); trivial. destruct (selects_contact _ _); trivial.
Qed.

(** What the second loop does with one row. *)
Lemma import_connection_step k w :
  import_connection k w
  = match bindValue (ConnectionRow.id k) with
    | Throw e => (Throw e, w)
    | Ok id =>
        if selects_connection id (db w) then (Ok tt, w)
        else match insert_connection_row k (db w) with
             | Ok d => (Ok tt, mkWorld d (idb w))
             | Throw _ => (Ok tt, w)
             end
    end.
Proof.
  unfold import_connection, bind, lift, query, try_catch, execute, ret.
  destruct (bindValue _); trivial. destruct (selects_connection _ _); trivial.
  destruct (insert_connection_row _ _); trivial.
Qed.

Lemma insert_contact_ok r d d' :
  insert_contact r d = Ok d' ->
  d' = with_contacts d (contacts d ++ [r])
  /\ Contact.name r <> None /\ selects_contact (Contact.id r) d = false.
Proof.
  unfold insert_contact. destruct (Contact.name r); [|discriminate].
  destruct (selects_contact _ _); [discriminate|].
  intros H. injection H as <-. repeat split; discriminate.
Qed.

Lemma insert_connection_ok r d d' :
  insert_connection r d = Ok d' ->
  d' = with_connections d (connections d ++ [r])
  /\ Connection.label r <> None
  /\ selects_connection (Connection.id r) d = false
  /\ has_pair (Connection.from_contact_id r) (Connection.to_contact_id r) d = false.
Proof.
  unfold insert_connection. destruct (Connection.label r); [|discriminate].
  destruct (selects_connection _ _); [discriminate|].
  destruct (has_pair _ _ _); [discriminate|].
  destruct (foreign_keys d && _); [discriminate|].
  intros H. injection H as <-. repeat split; discriminate.
Qed.

(** The contact INSERT of the import is the INSERT of the row its six
    properties are bound to, and is refused when one of them is absent. *)
Lemma insert_contact_row_bound c d :
  insert_contact_row c d
  = match contact_of_row c with
    | Some r => insert_contact r d
    | None => Throw unbound
    end.
Proof.
  destruct c as [i n u b s t]. unfold insert_contact_row, contact_of_row. simpl.
  rewrite !bindValue_bound.
  destruct (bound i); trivial. destruct (bound n); trivial.
  destruct (bound u); trivial. destruct (bound b); trivial.
  destruct (bound s); trivial. destruct (bound t); trivial.
Qed.

Lemma contact_of_row_id c r :
  contact_of_row c = Some r -> bindValue (ContactRow.id c) = Ok (Contact.id r).
Proof.
  destruct c as [i n u b s t]. unfold contact_of_row. simpl.
  rewrite bindValue_bound.
  destruct (bound i); [|discriminate]. destruct (bound n); [|discriminate].
  destruct (bound u); [|discriminate]. destruct (bound b); [|discriminate].
  destruct (bound s); [|discriminate]. destruct (bound t); [|discriminate].
  now intros [= <-].
Qed.

(** Likewise for a connection row; here NOT NULL on an endpoint is a second
    way of being refused. *)
Lemma insert_connection_row_bound k d :
  match connection_of_row k with
  | Some r => insert_connection_row k d = insert_connection r d
  | None => exists e, insert_connection_row k d = Throw e
  end.
Proof.
  destruct k as [i a b l t]. unfold insert_connection_row, connection_of_row. simpl.
  rewrite !bindValue_bound.
  destruct (bound i); [|destruct a; eauto].
  destruct a as [| |a]; simpl; eauto;
    destruct b as [| |b]; simpl; eauto;
    destruct (bound l); eauto; destruct (bound t); eauto.
Qed.

Lemma connection_of_row_id k r :
  connection_of_row k = Some r -> bindValue (ConnectionRow.id k) = Ok (Connection.id r).
Proof.
  destruct k as [i a b l t]. unfold connection_of_row. simpl.
  rewrite bindValue_bound.
  destruct (bound i); [|discriminate].
  destruct a; try discriminate. destruct b; try discriminate.
  destruct (bound l); [|discriminate]. destruct (bound t); [|discriminate].
  now intros [= <-].
Qed.

Lemma insert_connection_row_ok k d d' :
  insert_connection_row k d = Ok d' ->
  exists r, connection_of_row k = Some r /\ insert_connection r d = Ok d'.
Proof.
  intros H. pose proof (insert_connection_row_bound k d) as B.
  destruct (connection_of_row k) as [r|].
  - exists r. split; congruence.
  - destruct B as [e B]. congruence.
Qed.

Lemma insert_contact_row_ok c d d' :
  insert_contact_row c d = Ok d' ->
  exists r, contact_of_row c = Some r /\ insert_contact r d = Ok d'.
Proof.
  rewrite insert_contact_row_bound.
  destruct (contact_of_row c) as [r|]; [eauto | discriminate].
Qed.

Lemma has_contact_app i d d' more :
  contacts d' = contacts d ++ more ->
  has_contact i d = true -> has_contact i d' = true.
Proof.
  unfold has_contact. intros ->. rewrite existsb_app. now intros ->.
Qed.

Lemma has_connection_app i d d' more :
  connections d' = connections d ++ more ->
  has_connection i d = true -> has_connection i d' = true.
Proof.
  unfold has_connection. intros ->. rewrite existsb_app. now intros ->.
Qed.

Lemma has_pair_app a b d d' more :
  connections d' = connections d ++ more ->
  has_pair a b d = true -> has_pair a b d' = true.
Proof.
  unfold has_pair. intros ->. rewrite existsb_app. now intros ->.
Qed.

Lemma has_contact_same i d d' :
  contacts d' = contacts d -> has_contact i d' = has_contact i d.
Proof. unfold has_contact. now intros ->. Qed.

Lemma selects_contact_same v d d' :
  contacts d' = contacts d -> selects_contact v d' = selects_contact v d.
Proof. destruct v; simpl; trivial. apply has_contact_same. Qed.

Lemma selects_contact_app v d d' more :
  contacts d' = contacts d ++ more ->
  selects_contact v d = true -> selects_contact v d' = true.
Proof. destruct v; simpl; [apply has_contact_app | discriminate]. Qed.

Lemma selects_connection_app v d d' more :
  connections d' = connections d ++ more ->
  selects_connection v d = true -> selects_connection v d' = true.
Proof. destruct v; simpl; [apply has_connection_app | discriminate]. Qed.

Lemma insert_contact_row_same c d d' :
  contacts d' = contacts d ->
  forall e, insert_contact_row c d = Throw e -> insert_contact_row c d' = Throw e.
Proof.
  intros H e. rewrite !insert_contact_row_bound.
  destruct (contact_of_row c) as [r|]; trivial.
  unfold insert_contact. rewrite (selects_contact_same _ _ _ H).
  destruct (Contact.name r); trivial. destruct (selects_contact _ _); trivial.
  discriminate.
Qed.

(** What a run of the contact loop may change: it appends rows of the
    document to [contacts] and touches nothing else. *)
Lemma import_contacts_frame cs :
  forall w r w',
    for_each cs import_contact w = (r, w') ->
    idb w' = idb w
    /\ connections (db w') = connections (db w)
    /\ node_positions (db w') = node_positions (db w)
    /\ foreign_keys (db w') = foreign_keys (db w)
    /\ exists added,
         contacts (db w') = contacts (db w) ++ added
         /\ forall a, In a added -> exists c, In c cs /\ contact_of_row c = Some a.
Proof.
  induction cs as [|c cs IH]; intros w r w' H; simpl in H.
  - injection H as <- <-. repeat split; trivial. exists []. split.
    + now rewrite app_nil_r.
    + intros a [].
  - unfold bind in H. rewrite import_contact_step in H.
    assert (Stop : forall e, (Throw e, w) = (r, w') ->
              idb w' = idb w
              /\ connections (db w') = connections (db w)
              /\ node_positions (db w') = node_positions (db w)
              /\ foreign_keys (db w') = foreign_keys (db w)
              /\ exists added,
                   contacts (db w') = contacts (db w) ++ added
                   /\ forall a, In a added ->
                        exists c0, In c0 (c :: cs) /\ contact_of_row c0 = Some a).
    { intros e E. injection E as <- <-. repeat split; trivial. exists []. split.
      - now rewrite app_nil_r.
      - intros a []. }
    destruct (bindValue (ContactRow.id c)) as [v|e]; [|eauto].
    destruct (selects_contact v (db w)).
    + destruct (IH _ _ _ H) as (H1 & H2 & H3 & H4 & added & H5 & H6).
      repeat split; trivial. exists added. split; trivial.
      intros a Ha. destruct (H6 a Ha) as [c0 [? ?]]. exists c0. split; [now right | trivial].
    + destruct (insert_contact_row c (db w)) as [d|e] eqn:I; [|eauto].
      destruct (insert_contact_row_ok _ _ _ I) as [a0 [Ra Ia]].
      destruct (insert_contact_ok _ _ _ Ia) as [-> _].
      destruct (IH _ _ _ H) as (H1 & H2 & H3 & H4 & added & H5 & H6).
      simpl in *. repeat split; trivial. exists (a0 :: added). split.
      * now rewrite H5, <- app_assoc.
      * intros a [<- | Ha]; [exists c; split; [now left | trivial]|].
        destruct (H6 a Ha) as [c0 [? ?]]. exists c0. split; [now right | trivial].
Qed.

(** The connection loop appends rows of the document to [connections] and
    touches nothing else. *)
Lemma import_connections_frame ks :
  forall w r w',
    for_each ks import_connection w = (r, w') ->
    idb w' = idb w
    /\ contacts (db w') = contacts (db w)
    /\ node_positions (db w') = node_positions (db w)
    /\ foreign_keys (db w') = foreign_keys (db w)
    /\ exists added,
         connections (db w') = connections (db w) ++ added
         /\ forall a, In a added -> exists k, In k ks /\ connection_of_row k = Some a.
Proof.
  induction ks as [|k ks IH]; intros w r w' H; simpl in H.
  - injection H as <- <-. repeat split; trivial. exists []. split.
    + now rewrite app_nil_r.
    + intros a [].
  - unfold bind in H. rewrite import_connection_step in H.
    assert (Next : for_each ks import_connection w = (r, w') ->
              idb w' = idb w
              /\ contacts (db w') = contacts (db w)
              /\ node_positions (db w') = node_positions (db w)
              /\ foreign_keys (db w') = foreign_keys (db w)
              /\ exists added,
                   connections (db w') = connections (db w) ++ added
                   /\ forall a, In a added ->
                        exists k0, In k0 (k :: ks) /\ connection_of_row k0 = Some a).
    { intros E. destruct (IH _ _ _ E) as (H1 & H2 & H3 & H4 & added & H5 & H6).
      repeat split; trivial. exists added. split; trivial.
      intros a Ha. destruct (H6 a Ha) as [k0 [? ?]]. exists k0. split; [now right | trivial]. }
    destruct (bindValue (ConnectionRow.id k)) as [v|e].
    2:{ injection H as <- <-. repeat split; trivial. exists []. split.
        - now rewrite app_nil_r.
        - intros a []. }
    destruct (selects_connection v (db w)); [auto|].
    destruct (insert_connection_row k (db w)) as [d|e] eqn:I; [|auto].
    destruct (insert_connection_row_ok _ _ _ I) as [a0 [Ra Ia]].
    destruct (insert_connection_ok _ _ _ Ia) as [-> _].
    destruct (IH _ _ _ H) as (H1 & H2 & H3 & H4 & added & H5 & H6).
    simpl in *. repeat split; trivial. exists (a0 :: added). split.
    + now rewrite H5, <- app_assoc.
    + intros a [<- | Ha]; [exists k; split; [now left | trivial]|].
      destruct (H6 a Ha) as [k0 [? ?]]. exists k0. split; [now right | trivial].
Qed.

(** The three steps of a structurally valid import, spelled out. *)
Lemma importData_valid data cs ks w :
  Document.contacts data = Some cs ->
  Document.connections data = Some ks ->
  importData data w
  = match for_each cs import_contact w with
    | (Ok _, w1) =>
        match for_each ks import_connection w1 with
        | (Ok _, w2) => (Ok tt, mkWorld (db w2) (db w2 :: idb w2))
        | (Throw e, w2) => (Throw e, w2)
        end
    | (Throw e, w1) => (Throw e, w1)
    end.
Proof.
  intros Hc Hk. unfold importData. rewrite Hc, Hk. unfold bind.
  destruct (for_each cs import_contact w) as [[[]|e] w1]; [|reflexivity].
  destruct (for_each ks import_connection w1) as [[[]|e] w2]; reflexivity.
Qed.

(** ** Import after export (C4) *)

Lemma nul_free_getString i : nul_free i -> getString (Some i) = Some i.
Proof. unfold nul_free. simpl. now intros ->. Qed.

(** A row whose id the existence query finds is passed over. *)
Lemma import_contact_present c i w :
  bindValue (ContactRow.id c) = Ok (Some i) ->
  has_contact i (db w) = true -> import_contact c w = (Ok tt, w).
Proof.
  intros B H. rewrite import_contact_step, B. simpl. now rewrite H.
Qed.

Lemma import_connection_present k i w :
  bindValue (ConnectionRow.id k) = Ok (Some i) ->
  has_connection i (db w) = true -> import_connection k w = (Ok tt, w).
Proof.
  intros B H. rewrite import_connection_step, B. simpl. now rewrite H.
Qed.

(** An exported connection row whose endpoints are read back whole is
    refused by the unique pair, if its id is not found first. *)
Lemma import_connection_exported k w :
  In k (connections (db w)) ->
  nul_free (Connection.from_contact_id k) ->
  nul_free (Connection.to_contact_id k) ->
  import_connection (connection_object k) w = (Ok tt, w).
Proof.
  intros Hin Ha Hb. rewrite import_connection_step. simpl.
  rewrite bindValue_field_of.
  destruct (selects_connection _ _); trivial.
  destruct (insert_connection_row _ _) as [d|e] eqn:I; trivial.
  exfalso. revert I. unfold insert_connection_row. simpl.
  rewrite !bindValue_field_of. simpl. intros I.
  apply insert_connection_ok in I. destruct I as (_ & _ & _ & I). simpl in I.
  rewrite Ha, Hb in I.
  assert (T : has_pair (Connection.from_contact_id k) (Connection.to_contact_id k) (db w)
              = true).
  { apply has_pair_true. now exists k. }
  congruence.
Qed.

(** C4, as the code has it.  In a state in which every contact row has an
    id that is not NULL and holds no U+0000, and every connection row has
    such an id or endpoints without U+0000,
    [importData(exportData())] succeeds and leaves the three tables exactly
    as they were. *)
Theorem import_export_roundtrip :
  forall (now : string) (w : world),
    (forall c, In c (contacts (db w)) ->
       exists i, Contact.id c = Some i /\ nul_free i) ->
    (forall k, In k (connections (db w)) ->
       (exists i, Connection.id k = Some i /\ nul_free i)
       \/ (nul_free (Connection.from_contact_id k)
           /\ nul_free (Connection.to_contact_id k))) ->
    outcome (data <- exportData now ;; importData data) w = Ok tt
    /\ db (run (data <- exportData now ;; importData data) w) = db w.
Proof.
  intros now w Hcs Hks.
  assert (E : (data <- exportData now ;; importData data) w
              = (Ok tt, mkWorld (db w) (db w :: idb w))).
  { unfold exportData, bind at 1 2 3, query, ret. simpl.
    rewrite (importData_valid
               (Document.mk 1 now (Some (map contact_object (contacts (db w))))
                  (Some (map connection_object (connections (db w)))))
               _ _ w eq_refl eq_refl).
    assert (C : forall cs, incl cs (contacts (db w)) ->
               for_each (map contact_object cs) import_contact w = (Ok tt, w)).
    { induction cs as [|c cs IH]; intros H; simpl; [reflexivity|].
      unfold bind. destruct (Hcs c (H c (or_introl eq_refl))) as [i [Hi Ni]].
      rewrite (import_contact_present _ i).
      - apply IH. intros x Hx. apply H. now right.
      - simpl. rewrite Hi, (nul_free_getString i Ni). reflexivity.
      - apply has_contact_true. exists c. split; trivial. apply H. now left. }
    rewrite (C _ (incl_refl _)).
    assert (K : forall ks, incl ks (connections (db w)) ->
               for_each (map connection_object ks) import_connection w = (Ok tt, w)).
    { induction ks as [|k ks IH]; intros H; simpl; [reflexivity|].
      unfold bind.
      assert (S : import_connection (connection_object k) w = (Ok tt, w)).
      { destruct (Hks k (H k (or_introl eq_refl))) as [[i [Hi Ni]] | [Na Nb]].
        - apply (import_connection_present _ i).
          + simpl. rewrite Hi, (nul_free_getString i Ni). reflexivity.
          + apply has_connection_true. exists k. split; trivial. apply H. now left.
        - apply import_connection_exported; trivial. apply H. now left. }
      rewrite S. apply IH. intros x Hx. apply H. now right. }
    rewrite (K _ (incl_refl _)). reflexivity. }
  unfold outcome, run. now rewrite E.
Qed.

(** C4 at work on the example scenario. *)
Lemma import_export_roundtrip_witness :
  outcome (data <- exportData "2024-05-01T10:00:00.000Z" ;; importData data)
    example_scenario = Ok tt
  /\ db (run (data <- exportData "2024-05-01T10:00:00.000Z" ;; importData data)
           example_scenario)
     = db example_scenario.
Proof.
  apply (import_export_roundtrip "2024-05-01T10:00:00.000Z" example_scenario).
  - intros c [<- | [<- | []]]; eexists; split; reflexivity.
  - intros k [<- | [<- | []]]; left; eexists; split; reflexivity.
Defined.

(** C4 fails as stated, in two states an import reaches.  After
    [null_id_document] the table holds one contact with a NULL id, which no
    [id = ?] finds: importing the export inserts it a second time.  After
    [nul_id_document] the contact's id holds U+0000 and is exported cut
    there: importing the export inserts a contact under the cut id. *)
Lemma import_export_adds_rows :
  (reachable any_operation (perform (ImportData null_id_document) initDatabase)
   /\ map Contact.name
        (contacts (db (perform (ImportData null_id_document) initDatabase)))
      = [Some "Nora"]
   /\ outcome (data <- exportData "2024-05-01T10:00:00.000Z" ;; importData data)
        (perform (ImportData null_id_document) initDatabase) = Ok tt
   /\ map Contact.name
        (contacts (db (run (data <- exportData "2024-05-01T10:00:00.000Z" ;;
                            importData data)
                         (perform (ImportData null_id_document) initDatabase))))
      = [Some "Nora"; Some "Nora"])
  /\ (reachable any_operation (perform (ImportData nul_id_document) initDatabase)
      /\ has_contact "a" (db (perform (ImportData nul_id_document) initDatabase)) = false
      /\ has_contact "a"
           (db (run (data <- exportData "2024-05-01T10:00:00.000Z" ;; importData data)
                  (perform (ImportData nul_id_document) initDatabase)))
         = true).
Proof.
  repeat split; try reflexivity;
    apply reachable_step; try reflexivity; apply reachable_init.
Qed.

(** ** Importing the same document twice (C5) *)

(** Running the contact loop again on the contacts it has produced changes
    nothing and ends the same way, when no row has a null id. *)
Lemma import_contacts_again cs :
  (forall c, In c cs -> ContactRow.id c <> Null) ->
  forall w r w',
    for_each cs import_contact w = (r, w') ->
    forall v, contacts (db v) = contacts (db w') ->
              for_each cs import_contact v = (r, v).
Proof.
  induction cs as [|c cs IH]; intros Hn w r w' H v Hv; simpl in *.
  - now injection H as <- <-.
  - assert (Hn' : forall c0, In c0 cs -> ContactRow.id c0 <> Null) by auto.
    specialize (IH Hn'). specialize (Hn c (or_introl eq_refl)).
    unfold bind in *. rewrite import_contact_step in *.
    destruct (ContactRow.id c) as [| |i] eqn:Ei; simpl in *;
      [now injection H as <- <- | contradiction |].
    destruct (has_contact i (db w)) eqn:P.
    + destruct (import_contacts_frame _ _ _ _ H) as (_ & _ & _ & _ & added & A & _).
      rewrite (has_contact_same _ _ _ Hv), (has_contact_app _ _ _ _ A P).
      eapply IH; eassumption.
    + destruct (insert_contact_row c (db w)) as [d|e] eqn:I.
      * destruct (insert_contact_row_ok _ _ _ I) as [a [Ra Ia]].
        destruct (insert_contact_ok _ _ _ Ia) as [-> _].
        destruct (import_contacts_frame _ _ _ _ H) as (_ & _ & _ & _ & added & A & _).
        simpl in A.
        assert (T : has_contact i (db v) = true).
        { rewrite (has_contact_same _ _ _ Hv). unfold has_contact.
          rewrite A, !existsb_app. simpl.
          apply contact_of_row_id in Ra. rewrite Ei in Ra. simpl in Ra.
          injection Ra as <-. simpl. rewrite String.eqb_refl.
          now rewrite orb_true_r. }
        rewrite T. eapply IH; eassumption.
      * injection H as <- <-.
        rewrite (has_contact_same _ _ _ Hv), P.
        now rewrite (insert_contact_row_same _ _ _ Hv _ I).
Qed.

(** A connection row the engine rejects stays rejected while rows are only
    added to [connections] and the contacts stay as they are. *)
Lemma insert_connection_stays_rejected k d d' more e :
  insert_connection k d = Throw e ->
  contacts d' = contacts d ->
  foreign_keys d' = foreign_keys d ->
  connections d' = connections d ++ more ->
  exists e', insert_connection k d' = Throw e'.
Proof.
  unfold insert_connection. intros H Hc Hf Hk.
  destruct (Connection.label k); [|eauto].
  destruct (selects_connection (Connection.id k) d') eqn:E1; [eauto|].
  destruct (has_pair (Connection.from_contact_id k) (Connection.to_contact_id k) d')
    eqn:E2; [eauto|].
  rewrite Hf, !(has_contact_same _ _ _ Hc).
  destruct (selects_connection (Connection.id k) d) eqn:E3.
  { rewrite (selects_connection_app _ _ _ _ Hk E3) in E1. discriminate. }
  destruct (has_pair (Connection.from_contact_id k) (Connection.to_contact_id k) d)
    eqn:E4.
  { rewrite (has_pair_app _ _ _ _ _ Hk E4) in E2. discriminate. }
  destruct (foreign_keys d && _); [eauto | discriminate].
Qed.

Lemma insert_connection_row_stays_rejected k d d' more e :
  insert_connection_row k d = Throw e ->
  contacts d' = contacts d ->
  foreign_keys d' = foreign_keys d ->
  connections d' = connections d ++ more ->
  exists e', insert_connection_row k d' = Throw e'.
Proof.
  intros H Hc Hf Hk.
  pose proof (insert_connection_row_bound k d) as B.
  pose proof (insert_connection_row_bound k d') as B'.
  destruct (connection_of_row k) as [r|]; trivial.
  rewrite B in H. rewrite B'.
  eapply insert_connection_stays_rejected; eassumption.
Qed.

(** A row that is stored is refused when it is inserted again: its pair is
    taken. *)
Lemma insert_connection_stored r d :
  In r (connections d) -> exists e, insert_connection r d = Throw e.
Proof.
  intros Hin. unfold insert_connection.
  destruct (Connection.label r); [|eauto].
  destruct (selects_connection _ _); [eauto|].
  assert (T : has_pair (Connection.from_contact_id r) (Connection.to_contact_id r) d = true).
  { apply has_pair_true. now exists r. }
  rewrite T. eauto.
Qed.

(** Running the connection loop again on any later state of the same
    contacts changes nothing and ends the same way. *)
Lemma import_connections_again ks :
  forall w r w',
    for_each ks import_connection w = (r, w') ->
    forall v more,
      contacts (db v) = contacts (db w') ->
      foreign_keys (db v) = foreign_keys (db w') ->
      connections (db v) = connections (db w') ++ more ->
      for_each ks import_connection v = (r, v).
Proof.
  induction ks as [|k ks IH]; intros w r w' H v more Hc Hf Hk; simpl in *.
  - now injection H as <- _.
  - unfold bind in *. rewrite import_connection_step in *.
    destruct (bindValue (ConnectionRow.id k)) as [i|e] eqn:Bi;
      [|now injection H as <- _].
    destruct (selects_connection i (db w)) eqn:P.
    + destruct (import_connections_frame _ _ _ _ H)
        as (_ & F2 & _ & F4 & added & F5 & _).
      assert (A : connections (db v) = connections (db w) ++ (added ++ more)).
      { now rewrite Hk, F5, <- app_assoc. }
      rewrite (selects_connection_app _ _ _ _ A P).
      eapply IH; eassumption.
    + destruct (insert_connection_row k (db w)) as [d|e] eqn:I.
      * destruct (insert_connection_row_ok _ _ _ I) as [a [Ra Ia]].
        destruct (insert_connection_ok _ _ _ Ia) as [-> _].
        destruct (import_connections_frame _ _ _ _ H)
          as (_ & F2 & _ & F4 & added & F5 & _).
        simpl in *.
        assert (S : import_connection k v = (Ok tt, v)).
        { rewrite import_connection_step, Bi.
          destruct (selects_connection i (db v)); trivial.
          pose proof (insert_connection_row_bound k (db v)) as B. rewrite Ra in B.
          destruct (insert_connection_stored a (db v)) as [e E].
          { rewrite Hk, F5, !in_app_iff. simpl. tauto. }
          rewrite B, E. reflexivity. }
        rewrite import_connection_step, Bi in S. rewrite S.
        eapply IH; eassumption.
      * destruct (import_connections_frame _ _ _ _ H)
          as (_ & F2 & _ & F4 & added & F5 & _).
        assert (S : import_connection k v = (Ok tt, v)).
        { rewrite import_connection_step, Bi.
          destruct (selects_connection i (db v)); trivial.
          destruct (insert_connection_row_stays_rejected k (db w) (db v) (added ++ more) e I)
            as [e' R]; try congruence.
          - now rewrite Hk, F5, <- app_assoc.
          - now rewrite R. }
        rewrite import_connection_step, Bi in S. rewrite S.
        eapply IH; eassumption.
Qed.

(** C5, as the code has it.  When no contact row of the document has a
    null id, importing the document a second time, right after the first,
    ends the same way and leaves the database the first import produced:
    same contacts, same connections (and same node positions).  This holds
    from every starting state, whatever else the document holds and
    whether the import returns or throws. *)
Theorem importData_twice :
  forall (data : Document.t) (w : world),
    (forall cs c, Document.contacts data = Some cs -> In c cs ->
                  ContactRow.id c <> Null) ->
    outcome (importData data) (run (importData data) w) = outcome (importData data) w
    /\ db (run (importData data) (run (importData data) w)) = db (run (importData data) w).
Proof.
  intros data w Hn. unfold outcome, run.
  destruct (Document.contacts data) as [cs|] eqn:Hc.
  2:{ unfold importData. rewrite Hc. now split. }
  destruct (Document.connections data) as [ks|] eqn:Hk.
  2:{ unfold importData. rewrite Hc, Hk. now split. }
  rewrite (importData_valid data cs ks w Hc Hk).
  destruct (for_each cs import_contact w) as [r1 w1] eqn:P1.
  pose proof (import_contacts_again cs (fun c => Hn cs c eq_refl) _ _ _ P1) as A1.
  destruct r1 as [[]|e].
  - destruct (for_each ks import_connection w1) as [r2 w2] eqn:P2.
    destruct (import_connections_frame _ _ _ _ P2) as (_ & F2 & _ & _ & _).
    pose proof (import_connections_again _ _ _ _ P2) as A2.
    destruct r2 as [[]|e2]; cbn [fst snd];
      rewrite (importData_valid data cs ks _ Hc Hk).
    + rewrite (A1 (mkWorld (db w2) (db w2 :: idb w2))) by (simpl; congruence).
      rewrite (A2 (mkWorld (db w2) (db w2 :: idb w2)) []);
        simpl; trivial; [now split | now rewrite app_nil_r].
    + rewrite (A1 w2) by congruence.
      rewrite (A2 w2 []); trivial; [now split | now rewrite app_nil_r].
  - cbn [fst snd]. rewrite (importData_valid data cs ks _ Hc Hk).
    rewrite (A1 w1) by reflexivity. now split.
Qed.

(** C5 at work: [overlapping_document], imported twice. *)
Lemma importData_twice_witness :
  outcome (importData overlapping_document)
    (run (importData overlapping_document) initDatabase)
  = outcome (importData overlapping_document) initDatabase
  /\ db (run (importData overlapping_document)
           (run (importData overlapping_document) initDatabase))
     = db (run (importData overlapping_document) initDatabase).
Proof.
  apply (importData_twice overlapping_document initDatabase).
  intros cs c [= <-] [<- | [<- | []]]; discriminate.
Defined.

(** C5 fails as stated: [null_id_document] has one contact row, with a null
    id, and is an export document (of the state its import reaches).  The
    first import stores the row; the second, which finds no row with
    [id = NULL], stores it again, and the listing of the contacts is one
    entry longer. *)
Lemma import_twice_doubles_null_id :
  outcome (exportData "2024-05-01T10:00:00.000Z")
    (run (importData null_id_document) initDatabase) = Ok null_id_document
  /\ outcome (importData null_id_document) initDatabase = Ok tt
  /\ outcome (importData null_id_document)
       (run (importData null_id_document) initDatabase) = Ok tt
  /\ map Contact.name (contacts (db (run (importData null_id_document) initDatabase)))
     = [Some "Nora"]
  /\ map Contact.name
       (contacts (db (run (importData null_id_document)
                        (run (importData null_id_document) initDatabase))))
     = [Some "Nora"; Some "Nora"]
  /\ db (run (importData null_id_document)
           (run (importData null_id_document) initDatabase))
     <> db (run (importData null_id_document) initDatabase).
Proof.
  repeat split; try reflexivity. discriminate.
Qed.

(** ** Mirror rows (C1) *)

Lemma pair_in_filter (p : string -> string -> bool) A B ks :
  pair_in A B (filter (fun k => p (Connection.from_contact_id k)
                                  (Connection.to_contact_id k)) ks)
  <-> pair_in A B ks /\ p A B = true.
Proof.
  unfold pair_in. split.
  - intros [k [Hin [<- <-]]]. apply filter_In in Hin. destruct Hin. eauto.
  - intros [[k [Hin [<- <-]]] Hp]. exists k. rewrite filter_In. auto.
Qed.

Lemma pair_in_relabel (f : Connection.t -> Connection.t) A B ks :
  (forall k, Connection.from_contact_id (f k) = Connection.from_contact_id k
             /\ Connection.to_contact_id (f k) = Connection.to_contact_id k) ->
  pair_in A B (map f ks) <-> pair_in A B ks.
Proof.
  intros Hf. unfold pair_in. split.
  - intros [k [Hin [<- <-]]]. apply in_map_iff in Hin.
    destruct Hin as [k0 [<- Hin]]. exists k0. destruct (Hf k0). auto.
  - intros [k [Hin [<- <-]]]. exists (f k). destruct (Hf k).
    split; [now apply in_map | auto].
Qed.

Lemma pair_in_app A B ks ks' :
  pair_in A B (ks ++ ks') <-> pair_in A B ks \/ pair_in A B ks'.
Proof.
  unfold pair_in. split.
  - intros [k [Hin H]]. apply in_app_or in Hin. destruct Hin; eauto.
  - intros [[k [Hin H]] | [k [Hin H]]]; exists k; split; auto using in_or_app.
Qed.

Lemma rewrites_mirror ks ks' :
  rewrites ks ks' ->
  (forall A B, pair_in A B ks <-> pair_in B A ks) ->
  (forall A B, pair_in A B ks' <-> pair_in B A ks').
Proof.
  induction 1 as [ks | ks p Hp | ks f Hf | ks k1 k2 H1 H2 | ks ks1 ks2 _ IH1 _ IH2];
    intros M A B; auto.
  - rewrite !pair_in_filter, (M A B), (Hp A B). reflexivity.
  - rewrite !pair_in_relabel by assumption. apply M.
  - rewrite !pair_in_app, (M A B).
    assert (S : forall X Y, pair_in X Y [k1; k2] -> pair_in Y X [k1; k2]).
    { intros X Y [k [[<- | [<- | []]] [<- <-]]].
      - exists k2. simpl. auto.
      - exists k1. simpl. auto. }
    split; (intros [H | H]; [now left | right; now apply S]).
Qed.

Lemma saveNodePositions_frame ps :
  forall w r w',
    for_each ps (fun pos =>
      execute (replace_node_position (Position.id pos)
                 (bindNumber (Position.x pos)) (bindNumber (Position.y pos))
                 (if Position.fixed pos then 1 else 0)%Z)) w = (r, w') ->
    contacts (db w') = contacts (db w)
    /\ connections (db w') = connections (db w)
    /\ foreign_keys (db w') = foreign_keys (db w)
    /\ idb w' = idb w.
Proof.
  induction ps as [|p ps IH]; intros w r w' H; simpl in H.
  - now injection H as <- <-.
  - unfold bind, execute, replace_node_position in H.
    destruct (bindNumber (Position.x p)); [|now injection H as <- <-].
    destruct (bindNumber (Position.y p)); [|now injection H as <- <-].
    destruct (foreign_keys (db w) && _).
    + now injection H as <- <-.
    + apply IH in H. simpl in H. exact H.
Qed.

Lemma between_swap a b x y :
  negb ((x =? a) && (y =? b) || (x =? b) && (y =? a))
  = negb ((y =? a) && (x =? b) || (y =? b) && (x =? a)).
Proof.
  destruct (x =? a), (y =? b), (x =? b), (y =? a); reflexivity.
Qed.

Lemma mentions_swap a x y :
  negb ((x =? a) || (y =? a)) = negb ((y =? a) || (x =? a)).
Proof.
  destruct (x =? a), (y =? a); reflexivity.
Qed.

Lemma createConnection_rewrites id1 id2 now1 now2 A B L w :
  generated_fresh (CreateConnection id1 id2 now1 now2 A B L) w = true ->
  run (createConnection id1 id2 now1 now2 A B L) w = w
  \/ connections (db (run (createConnection id1 id2 now1 now2 A B L) w))
     = connections (db w)
       ++ [Connection.mk (Some id1) A B L (Some now1);
           Connection.mk (Some id2) B A L (Some now2)].
Proof.
  simpl. rewrite !andb_true_iff, !negb_true_iff. intros [[N F1] F2].
  destruct (A =? B) eqn:AB.
  { left. unfold run, createConnection. now rewrite AB. }
  destruct (existsb (between A B) (connections (db w))) eqn:Ex.
  { left. unfold run, createConnection, bind, connectionExists, query.
    now rewrite AB, Ex. }
  assert (P1 : has_pair A B (db w) = false).
  { destruct (has_pair A B (db w)) eqn:P; trivial.
    apply has_pair_true in P.
    assert (T : existsb (between A B) (connections (db w)) = true)
      by (apply exists_between_true; now left).
    congruence. }
  assert (P2 : has_pair B A (db w) = false).
  { destruct (has_pair B A (db w)) eqn:P; trivial.
    apply has_pair_true in P.
    assert (T : existsb (between A B) (connections (db w)) = true)
      by (apply exists_between_true; now right).
    congruence. }
  destruct L as [l|].
  2:{ left. unfold run, createConnection, bind, connectionExists, query.
      now rewrite AB, Ex. }
  destruct (foreign_keys (db w)
            && negb (has_contact A (db w) && has_contact B (db w))) eqn:FK.
  { left. unfold run, createConnection, bind, connectionExists, query,
      execute, insert_connection.
    rewrite AB, Ex. simpl. now rewrite F1, P1, FK. }
  right.
  unfold run, createConnection, bind, connectionExists, query,
    execute, insert_connection.
  rewrite AB, Ex. simpl. rewrite F1, P1, FK. simpl.
  unfold has_connection, has_pair, has_contact in *. simpl.
  rewrite !existsb_app. simpl.
  rewrite F2, P2, N, AB. simpl.
  rewrite (andb_comm (existsb _ (contacts (db w))) (existsb _ (contacts (db w)))), FK.
  simpl. now rewrite <- app_assoc.
Qed.

(** Every call other than an import rewrites [connections] in one of the
    four ways. *)
Lemma perform_rewrites o w :
  not_import o = true ->
  generated_fresh o w = true ->
  rewrites (connections (db w)) (connections (db (perform o w))).
Proof.
  destruct o as [id now c | id c | a | id1 id2 n1 n2 a b l | a b l | a b | data | ps | ];
    intros NI GF; try discriminate NI; simpl perform.
  - (* createContact *)
    replace (connections (db (run (createContact id now c) w)))
      with (connections (db w)); [constructor|].
    unfold run, createContact, bind, execute, insert_contact. simpl.
    destruct (ContactInput.name c); [|reflexivity].
    destruct (has_contact id (db w)); reflexivity.
  - (* updateContact *)
    replace (connections (db (run (updateContact id c) w)))
      with (connections (db w)); [constructor|].
    unfold run, updateContact, bind, execute, update_contact. simpl.
    destruct (ContactInput.name c); [reflexivity|].
    destruct (has_contact id (db w)); reflexivity.
  - (* deleteContact *)
    unfold run, deleteContact, bind, execute, delete_contact. simpl.
    destruct (foreign_keys (db w)); simpl.
    + eapply rewrites_then;
        apply (rewrites_delete _ (fun x y => negb ((x =? a) || (y =? a))));
        intros; apply mentions_swap.
    + apply (rewrites_delete _ (fun x y => negb ((x =? a) || (y =? a)))).
      intros; apply mentions_swap.
  - (* createConnection *)
    destruct (createConnection_rewrites _ _ _ _ _ _ _ _ GF) as [-> | ->].
    + constructor.
    + now apply rewrites_pair.
  - (* updateConnection *)
    unfold run, updateConnection, bind, execute, update_connection_label.
    destruct l as [l|].
    + simpl. apply rewrites_relabel.
      intros k. destruct (between a b k); now split.
    + destruct (existsb (between a b) (connections (db w))); simpl; constructor.
  - (* deleteConnection *)
    unfold run, deleteConnection, bind, execute, delete_connections_between. simpl.
    apply (rewrites_delete _
             (fun x y => negb ((x =? a) && (y =? b) || (x =? b) && (y =? a)))).
    intros; apply between_swap.
  - (* saveNodePositions *)
    replace (connections (db (run (saveNodePositions ps) w)))
      with (connections (db w)); [constructor|].
    unfold run, saveNodePositions, bind.
    match goal with |- context [for_each ps ?f w] =>
      destruct (for_each ps f w) as [r w'] eqn:E end.
    apply saveNodePositions_frame in E. destruct E as (_ & E & _).
    destruct r; simpl; congruence.
  - (* clearNodePositions *)
    constructor.
Qed.

(** C1, as the code has it.  In every state reached from a fresh database by
    calls other than [importData] (createContact, updateContact,
    deleteContact, createConnection, updateConnection, deleteConnection,
    saveNodePositions, clearNodePositions), whatever they returned or threw,
    and with generated identifiers fresh, the rows (from = A, to = B) and
    (from = B, to = A) exist together or not at all. *)
Theorem mirror_pairs_without_import :
  forall w : world,
    reachable not_import w ->
    forall A B : string, A <> B -> (row_exists A B (db w) <-> row_exists B A (db w)).
Proof.
  intros w R.
  assert (M : forall A B, pair_in A B (connections (db w))
                          <-> pair_in B A (connections (db w))).
  { induction R as [| w o R IH NI GF].
    - intros A B. split; intros [k [[] _]].
    - eapply rewrites_mirror; [|exact IH]. now apply perform_rewrites. }
  intros A B _. apply M.
Qed.

(** C1 fails as stated: importing [one_way_document] into a fresh database
    is a state reachable through the listed operations, and it holds the row
    (a, b) without the row (b, a). *)
Lemma import_breaks_mirror_pairs :
  reachable connection_writer (perform (ImportData one_way_document) initDatabase)
  /\ "a" <> "b"
  /\ row_exists "a" "b" (db (perform (ImportData one_way_document) initDatabase))
  /\ ~ row_exists "b" "a" (db (perform (ImportData one_way_document) initDatabase)).
Proof.
  split; [|split; [|split]].
  - apply reachable_step; [apply reachable_init | reflexivity | reflexivity].
  - discriminate.
  - apply has_pair_true. reflexivity.
  - intros H. apply has_pair_true in H. discriminate H.
Qed.

(** C1 at work on the example scenario. *)
Lemma mirror_pairs_without_import_witness :
  row_exists "alice" "bob" (db example_scenario)
  <-> row_exists "bob" "alice" (db example_scenario).
Proof.
  apply (mirror_pairs_without_import example_scenario).
  - repeat (apply reachable_step; [| reflexivity | reflexivity]).
    apply reachable_init.
  - apply String.eqb_neq. reflexivity.
Defined.

(** ** The example scenario (C7) *)

(** C7 on the code.  After the example scenario
    [getConnectionsForContact(Alice)] returns two entries, one for each
    mirror row: both match [from_contact_id = ? OR to_contact_id = ?], and
    both name Bob with label "friend". *)
Theorem getConnectionsForContact_example :
  exists e1 e2 : ConnectionView.t,
    outcome (getConnectionsForContact "alice") example_scenario = Ok [e1; e2]
    /\ Connection.id (ConnectionView.row e1) = Some "k1"
    /\ Connection.id (ConnectionView.row e2) = Some "k2"
    /\ ConnectionView.other_contact_id e1 = Some "bob"
    /\ ConnectionView.other_contact_id e2 = Some "bob"
    /\ ConnectionView.other_contact_name e1 = Some "Bob"
    /\ ConnectionView.other_contact_name e2 = Some "Bob"
    /\ Connection.label (ConnectionView.row e1) = Some "friend"
    /\ Connection.label (ConnectionView.row e2) = Some "friend".
Proof.
  do 2 eexists. split; [vm_compute; reflexivity|].
  repeat split.
Qed.

(** ** Deleting a contact (C2) *)

(** What [deleteContact] does achieve, in every state: no connection row
    mentions the contact afterwards and [getContactById] finds nothing. *)
Lemma deleteContact_connections_and_contact A w :
  outcome (deleteContact A) w = Ok tt
  /\ (forall k, In k (connections (db (run (deleteContact A) w))) ->
                Connection.from_contact_id k <> A /\ Connection.to_contact_id k <> A)
  /\ outcome (getContactById A) (run (deleteContact A) w) = Ok None.
Proof.
  assert (F : forall ks k,
             In k (filter (fun k => negb (mentions A k)) ks) ->
             Connection.from_contact_id k <> A /\ Connection.to_contact_id k <> A).
  { intros ks k Hk. apply filter_In in Hk. destruct Hk as [_ Hk].
    unfold mentions in Hk. apply negb_true_iff, orb_false_iff in Hk.
    now rewrite !String.eqb_neq in Hk. }
  assert (G : forall cs,
             filter (fun c => is_text (Contact.id c) A)
                    (filter (fun c => negb (is_text (Contact.id c) A)) cs) = []).
  { induction cs as [|c cs IH]; simpl; trivial.
    destruct (is_text (Contact.id c) A) eqn:E; simpl; trivial. now rewrite E. }
  unfold outcome, run, deleteContact, getContactById, bind, execute, query,
    delete_contact. simpl.
  destruct (foreign_keys (db w)); simpl; rewrite G; repeat split; trivial;
    apply (F _ _ H) || (apply F in H; apply H).
Qed.

(** With foreign-key enforcement on, the ON DELETE CASCADE of
    [node_positions] removes the position row as well. *)
Lemma deleteContact_cascades_when_enforced A w :
  foreign_keys (db w) = true ->
  forall p, In p (node_positions (db (run (deleteContact A) w))) ->
            NodePosition.contact_id p <> A.
Proof.
  intros FK p. unfold run, deleteContact, bind, execute, delete_contact. simpl.
  rewrite FK. simpl. intros Hp. apply filter_In in Hp. destruct Hp as [_ Hp].
  now apply negb_true_iff, String.eqb_neq in Hp.
Qed.

(** C2 on the code.  [deleteContact("alice")] on [Alice_positioned] returns,
    the contact is gone, no connection mentions it, and its
    [node_positions] row is still stored: the engine runs with foreign-key
    enforcement off, so the declared ON DELETE CASCADE never fires, and
    [deleteContact] issues no DELETE on [node_positions] itself. *)
Theorem deleteContact_leaves_node_position :
  reachable any_operation Alice_positioned
  /\ outcome (deleteContact "alice") Alice_positioned = Ok tt
  /\ outcome (getContactById "alice") (run (deleteContact "alice") Alice_positioned)
     = Ok None
  /\ connections (db (run (deleteContact "alice") Alice_positioned)) = []
  /\ node_positions (db (run (deleteContact "alice") Alice_positioned))
     = [NodePosition.mk "alice" 0%Z 0%Z 0%Z].
Proof.
  split.
  - repeat (apply reachable_step; [| reflexivity | reflexivity]).
    apply reachable_init.
  - repeat split.
Qed.

(** ** Referential integrity (C3) *)

(** C3 on the code.  On a fresh database, [createConnection] between two
    identifiers that name no contact inserts both mirror rows, and
    [importData] of [orphan_document] inserts its row: the foreign keys of
    the schema are declared but not enforced, so both reachable states hold
    connection rows that reference no contact. *)
Theorem dangling_references_reachable :
  (reachable any_operation
     (perform (CreateConnection "k1" "k2" "t" "t" "a" "b" (Some "friend")) initDatabase)
   /\ ~ references_exist
        (db (perform (CreateConnection "k1" "k2" "t" "t" "a" "b" (Some "friend"))
               initDatabase)))
  /\ (reachable any_operation (perform (ImportData orphan_document) initDatabase)
      /\ outcome (importData orphan_document) initDatabase = Ok tt
      /\ ~ references_exist (db (perform (ImportData orphan_document) initDatabase))).
Proof.
  split; [split | split; [|split]].
  - apply reachable_step; [apply reachable_init | reflexivity | reflexivity].
  - intros [H _].
    destruct (H (Connection.mk (Some "k1") "a" "b" (Some "friend") (Some "t"))) as [E _].
    + simpl. now left.
    + discriminate E.
  - apply reachable_step; [apply reachable_init | reflexivity | reflexivity].
  - reflexivity.
  - intros [H _].
    destruct (H (Connection.mk (Some "k") "a" "b" (Some "friend")
                   (Some "2024-05-01 09:00:02")))
      as [E _].
    + simpl. now left.
    + discriminate E.
Qed.

(** ** Creating and reading back a contact (C9) *)

Lemma filter_id_absent i d :
  has_contact i d = false -> filter (fun c => is_text (Contact.id c) i) (contacts d) = [].
Proof.
  unfold has_contact. induction (contacts d) as [|c cs IH]; simpl; trivial.
  destruct (is_text (Contact.id c) i); simpl; [discriminate | exact IH].
Qed.

(** C9, as the code has it.  For an input with a name, and a generated id,
    which holds no U+0000 and which no contact carries, [createContact]
    returns the new row as it is read back, and [getContactById] of its id
    returns the same: its [name] is the input's up to its first U+0000, and
    each of [image_url], [image_blob], [notes] is the input's field passed
    through [|| null], so that an empty string is stored as NULL, and then
    read back up to its first U+0000. *)
Theorem createContact_then_getContactById :
  forall (id now : string) (c : ContactInput.t) (n : string) (w : world),
    ContactInput.name c = Some n ->
    nul_free id ->
    has_contact id (db w) = false ->
    exists r : Contact.t,
      outcome (createContact id now c) w = Ok (Some r)
      /\ outcome (getContactById id) (run (createContact id now c) w) = Ok (Some r)
      /\ Contact.id r = Some id
      /\ Contact.name r = Some (UTF8ToString n)
      /\ Contact.image_url r = getString (or_null (ContactInput.imageUrl c))
      /\ Contact.image_blob r = getString (or_null (ContactInput.imageBlob c))
      /\ Contact.notes r = getString (or_null (ContactInput.notes c))
      /\ Contact.created_at r = Some (UTF8ToString now).
Proof.
  intros id now c n w Hn Hz Hid.
  exists (getAsObject
            (Contact.mk (Some id) (ContactInput.name c)
               (or_null (ContactInput.imageUrl c))
               (or_null (ContactInput.imageBlob c))
               (or_null (ContactInput.notes c)) (Some now))).
  unfold outcome, run, createContact, getContactById, bind, execute, query,
    saveToIndexedDB, insert_contact.
  simpl. rewrite Hn, Hid. simpl.
  rewrite filter_app, (filter_id_absent _ _ Hid). simpl.
  rewrite String.eqb_refl. simpl. unfold getAsObject. simpl.
  unfold nul_free in Hz. rewrite ?Hn, Hz. repeat split.
Qed.

(** C9 at work: Alice created in a fresh database. *)
Lemma createContact_then_getContactById_witness :
  exists r : Contact.t,
    outcome (createContact "alice" "2024-05-01 09:00:00" Alice) initDatabase
    = Ok (Some r)
    /\ outcome (getContactById "alice")
         (run (createContact "alice" "2024-05-01 09:00:00" Alice) initDatabase)
       = Ok (Some r)
    /\ Contact.id r = Some "alice"
    /\ Contact.name r = Some (UTF8ToString "Alice")
    /\ Contact.image_url r = getString (or_null (ContactInput.imageUrl Alice))
    /\ Contact.image_blob r = getString (or_null (ContactInput.imageBlob Alice))
    /\ Contact.notes r = getString (or_null (ContactInput.notes Alice))
    /\ Contact.created_at r = Some (UTF8ToString "2024-05-01 09:00:00").
Proof.
  apply (createContact_then_getContactById
           "alice" "2024-05-01 09:00:00" Alice "Alice" initDatabase).
  - reflexivity.
  - reflexivity.
  - reflexivity.
Defined.

(** C9 fails as stated, in two ways.  An input whose [imageUrl] is the
    empty string is stored, and read back, with [image_url] NULL.  An input
    whose name holds U+0000 is stored whole and read back cut there. *)
Lemma createContact_alters_fields :
  (exists r : Contact.t,
     outcome (createContact "alice" "2024-05-01 09:00:00"
                (ContactInput.mk (Some "Alice") (Some "") None None)) initDatabase
     = Ok (Some r)
     /\ outcome (getContactById "alice")
          (run (createContact "alice" "2024-05-01 09:00:00"
                  (ContactInput.mk (Some "Alice") (Some "") None None)) initDatabase)
        = Ok (Some r)
     /\ Contact.image_url r = None
     /\ Contact.image_url r
        <> ContactInput.imageUrl (ContactInput.mk (Some "Alice") (Some "") None None))
  /\ (exists r : Contact.t,
        outcome (createContact "ab" "2024-05-01 09:00:00"
                   (ContactInput.mk
                      (Some (String "A" (String "000" (String "B" EmptyString))))
                      None None None)) initDatabase
        = Ok (Some r)
        /\ outcome (getContactById "ab")
             (run (createContact "ab" "2024-05-01 09:00:00"
                     (ContactInput.mk
                        (Some (String "A" (String "000" (String "B" EmptyString))))
                        None None None)) initDatabase)
           = Ok (Some r)
        /\ Contact.name r = Some "A"
        /\ Contact.name r
           <> ContactInput.name
                (ContactInput.mk
                   (Some (String "A" (String "000" (String "B" EmptyString))))
                   None None None)).
Proof.
  split; (eexists; split; [vm_compute; reflexivity|]); repeat split; discriminate.
Qed.

(** ** Searching by name (C10) *)

(** C10 on the code.  With Alice as the only contact, [searchContacts("_")]
    returns Alice although "alice" does not contain "_": the term is spliced
    into a LIKE pattern unescaped, and LIKE reads [_] as any one character. *)
Theorem searchContacts_underscore :
  exists r : Contact.t,
    outcome (searchContacts "_") Alice_alone = Ok [r]
    /\ Contact.name r = Some "Alice"
    /\ includes (toLowerCase "Alice") (toLowerCase "_") = false.
Proof.
  eexists. split; [vm_compute; reflexivity|].
  split; reflexivity.
Qed.

(** ** Rows skipped by an import (C6) *)







(** ** Search terms without LIKE wildcards *)

Lemma lower_ascii_idempotent c : lower_ascii (lower_ascii c) = lower_ascii c.
Proof. each_ascii c; reflexivity. Qed.

Lemma wildcard_lower_ascii c : wildcard (lower_ascii c) = wildcard c.
Proof. each_ascii c; reflexivity. Qed.

Lemma like_literal c p t :
  wildcard c = false ->
  like (String c p) t
  = match t with
    | EmptyString => false
    | String e t' => (lower_ascii c =? lower_ascii e)%char && like p t'
    end.
Proof. each_ascii c; intros H; try discriminate H; reflexivity. Qed.

Lemma like_percent p t :
  like (String "%" p) t
  = like p t || match t with
                | EmptyString => false
                | String _ t' => like (String "%" p) t'
                end.
Proof. destruct t; reflexivity. Qed.

Lemma like_percent_only t : like "%" t = true.
Proof.
  induction t as [|e t IH]; [reflexivity|].
  rewrite like_percent, IH. apply orb_true_r.
Qed.

Lemma like_prefix t n :
  wildcard_free t = true ->
  like (toLowerCase t ++ "%") (toLowerCase n)
  = String.prefix (toLowerCase t) (toLowerCase n).
Proof.
  revert n. induction t as [|c t IH]; intros n H.
  - simpl toLowerCase. simpl append. rewrite like_percent_only.
    now destruct (toLowerCase n).
  - simpl in H. apply andb_true_iff in H. destruct H as [Hc Ht].
    apply negb_true_iff in Hc.
    simpl toLowerCase. simpl append.
    rewrite like_literal by now rewrite wildcard_lower_ascii.
    destruct n as [|e n]; simpl; [reflexivity|].
    rewrite !lower_ascii_idempotent, IH by assumption.
    destruct (ascii_dec (lower_ascii c) (lower_ascii e)) as [E | E].
    + rewrite E, Ascii.eqb_refl. reflexivity.
    + apply Ascii.eqb_neq in E. now rewrite E.
Qed.

Lemma like_includes t n :
  wildcard_free t = true ->
  like ("%" ++ toLowerCase t ++ "%") (toLowerCase n)
  = includes (toLowerCase n) (toLowerCase t).
Proof.
  intros H. change ("%" ++ toLowerCase t ++ "%")%string
    with (String "%" (toLowerCase t ++ "%")).
  induction n as [|e n IH].
  - rewrite like_percent, like_prefix by assumption. reflexivity.
  - rewrite like_percent, like_prefix by assumption.
    simpl toLowerCase. simpl includes. now rewrite <- IH.
Qed.

Lemma In_insert_by {A : Type} (le : A -> A -> bool) (a x : A) (l : list A) :
  In x (insert_by le a l) <-> x = a \/ In x l.
Proof.
  induction l as [|b l IH]; simpl.
  - intuition.
  - destruct (le a b); simpl; rewrite ?IH; intuition.
Qed.

Lemma In_order_by {A : Type} (le : A -> A -> bool) (x : A) (l : list A) :
  In x (order_by le l) <-> In x l.
Proof.
  unfold order_by. induction l as [|a l IH]; simpl; [tauto|].
  rewrite In_insert_by, IH. intuition.
Qed.

(** [searchContacts] throws when there is a row to scan and the pattern is
    longer than the engine takes, and returns the selected rows in order
    otherwise. *)
Lemma searchContacts_outcome t w :
  outcome (searchContacts t) w
  = match contacts (db w) with
    | [] => Ok []
    | _ :: _ =>
        if pattern_too_long ("%" ++ toLowerCase t ++ "%")
        then Throw (Error "LIKE or GLOB pattern too complex")
        else Ok (order_by name_leb
                   (filter (lower_name_like ("%" ++ toLowerCase t ++ "%"))
                           (contacts (db w))))
    end.
Proof.
  unfold outcome, searchContacts, query_stepping, select_contacts_like. simpl.
  destruct (contacts (db w)); reflexivity.
Qed.

Lemma searchContacts_rows t w rows :
  outcome (searchContacts t) w = Ok rows ->
  rows = order_by name_leb
           (filter (lower_name_like ("%" ++ toLowerCase t ++ "%")) (contacts (db w))).
Proof.
  rewrite searchContacts_outcome.
  destruct (contacts (db w)); [now intros [= <-]|].
  destruct (pattern_too_long _); [discriminate | now intros [= <-]].
Qed.

(** For a term that holds neither [%] nor [_], in the model of the two
    case foldings, which is theirs on ASCII text, what [searchContacts]
    returns is exactly the stored contacts whose lower-cased name includes
    the lower-cased term, as the dropdowns do. *)
Lemma searchContacts_wildcard_free t w rows :
  wildcard_free t = true ->
  outcome (searchContacts t) w = Ok rows ->
  forall c, In c rows <->
            In c (contacts (db w))
            /\ exists n, Contact.name c = Some n
                         /\ includes (toLowerCase n) (toLowerCase t) = true.
Proof.
  intros H R c. rewrite (searchContacts_rows _ _ _ R).
  rewrite In_order_by, filter_In. unfold lower_name_like.
  split; intros [Hin Hc]; split; trivial.
  - destruct (Contact.name c) as [n|]; [|discriminate].
    exists n. split; trivial. now rewrite <- like_includes.
  - destruct Hc as [n [-> Hn]]. now rewrite like_includes.
Qed.

(** ** Properties kept by every statement *)

Section Preservation.
Variable P : database -> Prop.

Lemma preserves_ret {A : Type} (a : A) : preserves P (ret a).
Proof. intros w H. exact H. Qed.

Lemma preserves_throw {A : Type} (e : exn) : preserves P (@throw A e).
Proof. intros w H. exact H. Qed.

Lemma preserves_query {A : Type} (select : database -> A) : preserves P (query select).
Proof. intros w H. exact H. Qed.

Lemma preserves_lift {A : Type} (r : result A) : preserves P (lift r).
Proof. intros w H. exact H. Qed.

Lemma preserves_save : preserves P saveToIndexedDB.
Proof. intros w H. exact H. Qed.

Lemma preserves_execute statement :
  statement_preserves P statement -> preserves P (execute statement).
Proof.
  intros S w H. unfold execute.
  destruct (statement (db w)) as [d|e] eqn:E; simpl; eauto.
Qed.

Lemma preserves_bind {A B : Type} (m : M A) (k : A -> M B) :
  preserves P m -> (forall a, preserves P (k a)) -> preserves P (bind m k).
Proof.
  intros Hm Hk w H. unfold bind. specialize (Hm w H).
  destruct (m w) as [[a|e] w']; simpl in *; [now apply Hk | exact Hm].
Qed.

Lemma preserves_try_catch {A : Type} (m : M A) (handler : exn -> M A) :
  preserves P m -> (forall e, preserves P (handler e)) ->
  preserves P (try_catch m handler).
Proof.
  intros Hm Hh w H. unfold try_catch. specialize (Hm w H).
  destruct (m w) as [[a|e] w']; simpl in *; [exact Hm | now apply Hh].
Qed.

Lemma preserves_for_each {A : Type} (l : list A) (body : A -> M unit) :
  (forall a, preserves P (body a)) -> preserves P (for_each l body).
Proof.
  intros Hb. induction l as [|a l IH]; simpl.
  - apply preserves_ret.
  - apply preserves_bind; [apply Hb | intros _; exact IH].
Qed.

(** When each SQL statement of the source keeps [P], so does every call. *)
Hypothesis P_insert_contact : forall r, statement_preserves P (insert_contact r).
Hypothesis P_update_contact :
  forall i n u b s, statement_preserves P (update_contact i n u b s).
Hypothesis P_delete_contact : forall a, statement_preserves P (delete_contact a).
Hypothesis P_insert_connection : forall r, statement_preserves P (insert_connection r).
Hypothesis P_update_connection_label :
  forall l a b, statement_preserves P (update_connection_label l a b).
Hypothesis P_delete_connections_of :
  forall a, statement_preserves P (delete_connections_of a).
Hypothesis P_delete_connections_between :
  forall a b, statement_preserves P (delete_connections_between a b).
Hypothesis P_replace_node_position :
  forall i x y f, statement_preserves P (replace_node_position i x y f).
Hypothesis P_delete_node_positions : statement_preserves P delete_node_positions.

Lemma perform_preserves o w : P (db w) -> P (db (perform o w)).
Proof.
  destruct o as [id now c | id c | a | id1 id2 n1 n2 a b l | a b l | a b | data | ps | ];
    simpl perform; unfold run; revert w;
    match goal with |- forall w, _ (db w) -> _ (db (snd (?m w))) =>
      change (preserves P m) end.
  - apply preserves_bind; [apply preserves_execute, P_insert_contact|].
    intros _. apply preserves_bind; [apply preserves_save|].
    intros _. apply preserves_query.
  - apply preserves_bind; [apply preserves_execute, P_update_contact|].
    intros _. apply preserves_bind; [apply preserves_save|].
    intros _. apply preserves_query.
  - apply preserves_bind; [apply preserves_execute, P_delete_connections_of|].
    intros _. apply preserves_bind; [|intros _; apply preserves_save].
    apply preserves_execute, P_delete_contact.
  - unfold createConnection. destruct (a =? b); [apply preserves_throw|].
    apply preserves_bind; [apply preserves_query|]. intros [|];
      [apply preserves_throw|].
    apply preserves_bind; [apply preserves_execute, P_insert_connection|].
    intros _.
    apply preserves_bind; [apply preserves_execute, P_insert_connection|].
    intros _. apply preserves_bind; [apply preserves_save|].
    intros _. apply preserves_ret.
  - apply preserves_bind; [|intros _; apply preserves_save].
    apply preserves_execute, P_update_connection_label.
  - apply preserves_bind; [|intros _; apply preserves_save].
    apply preserves_execute, P_delete_connections_between.
  - unfold importData.
    destruct (Document.contacts data) as [cs|]; [|apply preserves_throw].
    destruct (Document.connections data) as [ks|]; [|apply preserves_throw].
    apply preserves_bind; [|intros _; apply preserves_bind;
                              [|intros _; apply preserves_save]].
    + apply preserves_for_each. intros c. unfold import_contact.
      apply preserves_bind; [apply preserves_lift|]. intros id.
      apply preserves_bind; [apply preserves_query|]. intros [|];
        [apply preserves_ret|].
      apply preserves_execute. intros d d' Hd I.
      destruct (insert_contact_row_ok _ _ _ I) as [r [_ Ir]].
      exact (P_insert_contact r d d' Hd Ir).
    + apply preserves_for_each. intros k. unfold import_connection.
      apply preserves_bind; [apply preserves_lift|]. intros id.
      apply preserves_bind; [apply preserves_query|]. intros [|];
        [apply preserves_ret|].
      apply preserves_try_catch; [|intros _; apply preserves_ret].
      apply preserves_execute. intros d d' Hd I.
      destruct (insert_connection_row_ok _ _ _ I) as [r [_ Ir]].
      exact (P_insert_connection r d d' Hd Ir).
  - apply preserves_bind; [|intros _; apply preserves_save].
    apply preserves_for_each. intros p.
    apply preserves_execute, P_replace_node_position.
  - apply preserves_bind; [|intros _; apply preserves_save].
    apply preserves_execute, P_delete_node_positions.
Qed.

End Preservation.

(** ** Enforcement is never switched on *)

(** No statement of the source touches the [foreign_keys] switch. *)
Lemma foreign_keys_perform o w :
  foreign_keys (db (perform o w)) = foreign_keys (db w).
Proof.
  apply (perform_preserves (fun d => foreign_keys d = foreign_keys (db w)));
    trivial; intros; intros d d' H.
  - unfold insert_contact. destruct (Contact.name r); [|discriminate].
    destruct (selects_contact _ d); [discriminate|]. intros E. now injection E as <-.
  - unfold update_contact. destruct n; [|destruct (has_contact i d)];
      try discriminate; intros E; now injection E as <-.
  - unfold delete_contact. destruct (foreign_keys d) eqn:F;
      intros E; injection E as <-; simpl; congruence.
  - unfold insert_connection. destruct (Connection.label r); [|discriminate].
    destruct (selects_connection _ d); [discriminate|].
    destruct (has_pair _ _ d); [discriminate|].
    destruct (foreign_keys d && _); [discriminate|].
    intros E. now injection E as <-.
  - unfold update_connection_label. destruct l; [|destruct (existsb _ _)];
      try discriminate; intros E; now injection E as <-.
  - intros E. now injection E as <-.
  - intros E. now injection E as <-.
  - unfold replace_node_position. destruct x; [|discriminate].
    destruct y; [|discriminate].
    destruct (foreign_keys d && _); [discriminate|].
    intros E. now injection E as <-.
  - intros E. now injection E as <-.
Qed.

(** Every reachable state runs with foreign-key enforcement off. *)
Lemma reachable_not_enforced allowed w :
  reachable allowed w -> foreign_keys (db w) = false.
Proof.
  induction 1 as [| w o _ IH _ _]; [reflexivity|].
  now rewrite foreign_keys_perform.
Qed.

(** With enforcement off, [deleteContact] leaves [node_positions] as it
    is. *)
Lemma deleteContact_keeps_node_positions A w :
  foreign_keys (db w) = false ->
  node_positions (db (run (deleteContact A) w)) = node_positions (db w).
Proof.
  intros F. unfold run, deleteContact, bind, execute, delete_contact. simpl.
  now rewrite F.
Qed.

(** ** Referential integrity under enforcement *)


Lemma has_contact_relabel (f : Contact.t -> Contact.t) i cs :
  (forall c, Contact.id (f c) = Contact.id c) ->
  existsb (fun c => is_text (Contact.id c) i) (map f cs)
  = existsb (fun c => is_text (Contact.id c) i) cs.
Proof.
  intros Hf. induction cs as [|c cs IH]; simpl; trivial. now rewrite Hf, IH.
Qed.

Lemma has_contact_other a i cs :
  i <> a ->
  existsb (fun c => is_text (Contact.id c) i)
          (filter (fun c => negb (is_text (Contact.id c) a)) cs)
  = existsb (fun c => is_text (Contact.id c) i) cs.
Proof.
  intros Hi. induction cs as [|c cs IH]; simpl; trivial.
  destruct (is_text (Contact.id c) a) eqn:E; simpl; rewrite IH; trivial.
  apply is_text_true in E.
  destruct (is_text (Contact.id c) i) eqn:E'; trivial.
  apply is_text_true in E'. congruence.
Qed.

Lemma enforced_insert_contact r : statement_preserves enforced (insert_contact r).
Proof.
  intros d d' [FK [RK RP]]. unfold insert_contact.
  destruct (Contact.name r); [|discriminate].
  destruct (selects_contact (Contact.id r) d); [discriminate|].
  intros E. injection E as <-. split; [exact FK|]. split.
  - intros k Hk. destruct (RK k Hk). split;
      eapply has_contact_app; try eassumption; reflexivity.
  - intros p Hp. eapply has_contact_app; [reflexivity | now apply RP].
Qed.

Lemma enforced_update_contact i n u b s :
  statement_preserves enforced (update_contact i n u b s).
Proof.
  intros d d' [FK [RK RP]]. unfold update_contact.
  assert (E : forall x,
             has_contact x
               (with_contacts d
                  (map (fun c => if is_text (Contact.id c) i then set_fields n u b s c else c)
                       (contacts d)))
             = has_contact x d).
  { intros x. unfold has_contact. simpl. apply has_contact_relabel.
    intros c. now destruct (is_text (Contact.id c) i). }
  destruct n as [n|].
  - intros H. injection H as <-. split; [exact FK|]. split.
    + intros k Hk. rewrite !E. now apply RK.
    + intros p Hp. rewrite E. now apply RP.
  - destruct (has_contact i d); [discriminate|].
    intros H. injection H as <-. now split.
Qed.

Lemma enforced_delete_connections (keep : Connection.t -> bool) d :
  enforced d -> enforced (with_connections d (filter keep (connections d))).
Proof.
  intros [FK [RK RP]]. split; [exact FK|]. split.
  - intros k Hk. simpl in Hk. apply filter_In in Hk. destruct Hk as [Hk _].
    apply (RK k Hk).
  - exact RP.
Qed.

Lemma enforced_delete_contact a : statement_preserves enforced (delete_contact a).
Proof.
  intros d d' [FK [RK RP]]. unfold delete_contact. rewrite FK.
  intros E. injection E as <-. split; [reflexivity|]. split.
  - intros k Hk. simpl in Hk. apply filter_In in Hk. destruct Hk as [Hk Hm].
    unfold mentions in Hm. apply negb_true_iff, orb_false_iff in Hm.
    destruct Hm as [H1 H2]. apply String.eqb_neq in H1, H2.
    destruct (RK k Hk) as [R1 R2]. unfold has_contact in *. simpl.
    now rewrite !has_contact_other.
  - intros p Hp. simpl in Hp. apply filter_In in Hp. destruct Hp as [Hp Hm].
    apply negb_true_iff, String.eqb_neq in Hm.
    specialize (RP p Hp). unfold has_contact in *. simpl.
    now rewrite has_contact_other.
Qed.

Lemma enforced_insert_connection r : statement_preserves enforced (insert_connection r).
Proof.
  intros d d' [FK [RK RP]]. unfold insert_connection.
  destruct (Connection.label r); [|discriminate].
  destruct (selects_connection (Connection.id r) d); [discriminate|].
  destruct (has_pair _ _ d); [discriminate|].
  rewrite FK. simpl.
  destruct (has_contact (Connection.from_contact_id r) d) eqn:E1; [|discriminate].
  destruct (has_contact (Connection.to_contact_id r) d) eqn:E2; [|discriminate].
  simpl. intros E. injection E as <-. split; [exact FK|]. split.
  - intros k Hk. simpl in Hk. apply in_app_or in Hk.
    destruct Hk as [Hk | [<- | []]]; [apply (RK k Hk) | now split].
  - exact RP.
Qed.

Lemma enforced_update_connection_label l a b :
  statement_preserves enforced (update_connection_label l a b).
Proof.
  intros d d' [FK [RK RP]]. unfold update_connection_label.
  destruct l as [l|].
  - intros E. injection E as <-. split; [exact FK|]. split; [|exact RP].
    intros k Hk. simpl in Hk. apply in_map_iff in Hk. destruct Hk as [k0 [<- Hk]].
    destruct (RK k0 Hk). now destruct (between a b k0).
  - destruct (existsb _ _); [discriminate|].
    intros E. injection E as <-. now split.
Qed.

Lemma enforced_replace_node_position i x y f :
  statement_preserves enforced (replace_node_position i x y f).
Proof.
  intros d d' [FK [RK RP]]. unfold replace_node_position. rewrite FK. simpl.
  destruct x as [x|]; [|discriminate]. destruct y as [y|]; [|discriminate].
  destruct (has_contact i d) eqn:E; [|discriminate].
  simpl. intros H. injection H as <-. split; [exact FK|]. split; [exact RK|].
  intros q Hq. simpl in Hq. apply in_app_or in Hq.
  destruct Hq as [Hq | [<- | []]]; [|exact E].
  apply filter_In in Hq. destruct Hq as [Hq _]. now apply RP.
Qed.

(** Were [PRAGMA foreign_keys = ON] in force, every call would keep every
    reference resolved: the statements of the source rely on the engine for
    it. *)
Lemma enforced_perform o w :
  enforced (db w) -> enforced (db (perform o w)).
Proof.
  apply perform_preserves.
  - apply enforced_insert_contact.
  - apply enforced_update_contact.
  - apply enforced_delete_contact.
  - apply enforced_insert_connection.
  - apply enforced_update_connection_label.
  - intros a d d' H E. injection E as <-. now apply enforced_delete_connections.
  - intros a b d d' H E. injection E as <-. now apply enforced_delete_connections.
  - apply enforced_replace_node_position.
  - intros d d' [FK [RK RP]] E. injection E as <-.
    split; [exact FK|]. split; [exact RK | intros p []].
Qed.

(** * The rest of the code *)

Ltac reach :=
  repeat (apply reachable_step; [| reflexivity | reflexivity]); apply reachable_init.

Ltac differ := apply String.eqb_neq; reflexivity.

Ltac unconnected :=
  let H := fresh in intros H; apply exists_between_true in H; discriminate H.

(** ** The constraints of the schema *)

(** A DELETE keeps a key unique: the rows it leaves have different keys
    if the rows of the table had. *)
Lemma delete_keeps_key {Row Key : Type} (key : Row -> Key)
    (kept : Row -> bool) (rows : list Row) :
  NoDup (map key rows) -> NoDup (map key (filter kept rows)).
Proof.
  intros U. induction rows as [|r rows IH]; simpl; [constructor|].
  simpl in U. apply NoDup_cons_iff in U. destruct U as [Hr U].
  destruct (kept r); simpl; auto.
  constructor; auto.
  intros Hin. apply Hr. apply in_map_iff in Hin. destruct Hin as [b [E Hb]].
  apply filter_In in Hb. destruct Hb as [Hb _].
  rewrite <- E. now apply in_map.
Qed.

Lemma NoDup_map_snoc {A B : Type} (f : A -> B) (a : A) (l : list A) :
  NoDup (map f l) -> ~ In (f a) (map f l) -> NoDup (map f (l ++ [a])).
Proof.
  intros H Ha. rewrite map_app. simpl.
  apply NoDup_app; [exact H | repeat constructor; intros [] | ].
  intros x Hx [<- | []]. contradiction.
Qed.

Lemma In_keys i column : In i (keys column) <-> In (Some i) column.
Proof.
  unfold keys. rewrite in_flat_map. split.
  - intros [[s|] [Hin Hs]]; simpl in Hs; [|destruct Hs].
    destruct Hs as [<- | []]. exact Hin.
  - intros Hin. exists (Some i). split; [exact Hin | now left].
Qed.

Lemma keys_app column column' : keys (column ++ column') = keys column ++ keys column'.
Proof. unfold keys. apply flat_map_app. Qed.

(** A DELETE keeps a nullable key unique as well. *)
Lemma delete_keeps_keys {Row : Type} (key : Row -> value)
    (kept : Row -> bool) (rows : list Row) :
  NoDup (keys (map key rows)) -> NoDup (keys (map key (filter kept rows))).
Proof.
  induction rows as [|r rows IH]; simpl; trivial.
  intros U. destruct (kept r); simpl.
  - destruct (key r) as [i|]; simpl in *; auto.
    apply NoDup_cons_iff in U. destruct U as [Hr U].
    constructor; auto.
    intros Hin. apply Hr. apply In_keys, in_map_iff in Hin.
    destruct Hin as [b [E Hb]]. apply filter_In in Hb. destruct Hb as [Hb _].
    apply In_keys, in_map_iff. eauto.
  - destruct (key r); simpl in *; auto.
    apply NoDup_cons_iff in U. destruct U as [_ U]. auto.
Qed.

(** An INSERT keeps a nullable key unique: the new key is NULL or not yet
    in the column. *)
Lemma insert_keeps_keys {Row : Type} (key : Row -> value) (r : Row) (rows : list Row) :
  NoDup (keys (map key rows)) ->
  (forall i, key r = Some i -> ~ In (Some i) (map key rows)) ->
  NoDup (keys (map key (rows ++ [r]))).
Proof.
  intros U F. rewrite map_app, keys_app. simpl.
  destruct (key r) as [i|]; simpl; [|now rewrite app_nil_r].
  apply NoDup_app; [exact U | repeat constructor; intros [] |].
  intros x Hx [E | []]. subst x. apply In_keys in Hx. now apply (F i).
Qed.

Lemma selects_contact_false i d :
  selects_contact (Some i) d = false -> ~ In (Some i) (map Contact.id (contacts d)).
Proof.
  simpl. intros H Hin. apply in_map_iff in Hin. destruct Hin as [c [E Hc]].
  assert (T : has_contact i d = true) by (apply has_contact_true; eauto).
  congruence.
Qed.

Lemma selects_connection_false i d :
  selects_connection (Some i) d = false ->
  ~ In (Some i) (map Connection.id (connections d)).
Proof.
  simpl. intros H Hin. apply in_map_iff in Hin. destruct Hin as [k [E Hk]].
  assert (T : has_connection i d = true) by (apply has_connection_true; eauto).
  congruence.
Qed.

Lemma has_pair_false a b d :
  has_pair a b d = false -> ~ In (a, b) (map pair_of (connections d)).
Proof.
  intros H Hin. apply in_map_iff in Hin. destruct Hin as [k [E Hk]].
  injection E as E1 E2.
  assert (T : has_pair a b d = true) by (apply has_pair_true; exists k; auto).
  congruence.
Qed.

Lemma filter_key_absent (cs : list Contact.t) (id : string) :
  ~ In (Some id) (map Contact.id cs) ->
  filter (fun c => is_text (Contact.id c) id) cs = [].
Proof.
  induction cs as [|c cs IH]; simpl; trivial. intros H.
  destruct (is_text (Contact.id c) id) eqn:E.
  - apply is_text_true in E. tauto.
  - apply IH. tauto.
Qed.

(** Under a unique key, [id = ?] selects at most one row. *)
Lemma at_most_one_row (cs : list Contact.t) (id : string) :
  NoDup (keys (map Contact.id cs)) ->
  length (filter (fun c => is_text (Contact.id c) id) cs) <= 1.
Proof.
  induction cs as [|c cs IH]; simpl; [lia|]. intros U.
  destruct (is_text (Contact.id c) id) eqn:E.
  - apply is_text_true in E. rewrite E in U. simpl in U.
    apply NoDup_cons_iff in U. destruct U as [Hn _].
    rewrite filter_key_absent; [simpl; lia|].
    intros Hin. apply Hn. now apply In_keys.
  - apply IH. destruct (Contact.id c); simpl in U; trivial.
    apply NoDup_cons_iff in U. tauto.
Qed.

Lemma constraints_insert_contact r :
  statement_preserves constraints_hold (insert_contact r).
Proof.
  intros d d' (C1 & C2 & C3 & C4 & C5 & C6). unfold insert_contact.
  destruct (Contact.name r) eqn:N; [|discriminate].
  destruct (selects_contact (Contact.id r) d) eqn:E; [discriminate|].
  intros H. injection H as <-. repeat split; simpl; trivial.
  - apply insert_keeps_keys; [exact C1|].
    intros i Hi. rewrite Hi in E. now apply selects_contact_false.
  - intros c Hc. apply in_app_or in Hc. destruct Hc as [Hc | [<- | []]];
      [now apply C2 | congruence].
Qed.

Lemma constraints_update_contact i n u b s :
  statement_preserves constraints_hold (update_contact i n u b s).
Proof.
  intros d d' (C1 & C2 & C3 & C4 & C5 & C6). unfold update_contact.
  destruct n as [n|].
  - intros H. injection H as <-. repeat split; simpl; trivial.
    + rewrite map_map.
      erewrite map_ext; [exact C1|].
      intros c. simpl. now destruct (is_text (Contact.id c) i).
    + intros c Hc. apply in_map_iff in Hc. destruct Hc as [c0 [<- Hc]].
      destruct (is_text (Contact.id c0) i); [discriminate | now apply C2].
  - destruct (has_contact i d); [discriminate|].
    intros H. injection H as <-. repeat split; trivial.
Qed.

Lemma constraints_delete_contact a :
  statement_preserves constraints_hold (delete_contact a).
Proof.
  intros d d' (C1 & C2 & C3 & C4 & C5 & C6). unfold delete_contact.
  destruct (foreign_keys d); intros H; injection H as <-;
    repeat split; simpl; trivial;
    try (now apply delete_keeps_key); try (now apply delete_keeps_keys);
    intros x Hx; apply filter_In in Hx; destruct Hx as [Hx _]; auto.
Qed.

Lemma constraints_insert_connection r :
  statement_preserves constraints_hold (insert_connection r).
Proof.
  intros d d' (C1 & C2 & C3 & C4 & C5 & C6). unfold insert_connection.
  destruct (Connection.label r) eqn:L; [|discriminate].
  destruct (selects_connection (Connection.id r) d) eqn:E1; [discriminate|].
  destruct (has_pair (Connection.from_contact_id r) (Connection.to_contact_id r) d)
    eqn:E2; [discriminate|].
  destruct (foreign_keys d && _); [discriminate|].
  intros H. injection H as <-. repeat split; simpl; trivial.
  - apply insert_keeps_keys; [exact C3|].
    intros i Hi. rewrite Hi in E1. now apply selects_connection_false.
  - apply NoDup_map_snoc; [exact C4 | now apply has_pair_false].
  - intros k Hk. apply in_app_or in Hk. destruct Hk as [Hk | [<- | []]];
      [now apply C5 | congruence].
Qed.

Lemma constraints_update_connection_label l a b :
  statement_preserves constraints_hold (update_connection_label l a b).
Proof.
  intros d d' (C1 & C2 & C3 & C4 & C5 & C6). unfold update_connection_label.
  destruct l as [l|].
  - intros H. injection H as <-. repeat split; simpl; trivial.
    + rewrite map_map. erewrite map_ext; [exact C3|].
      intros k. simpl. now destruct (between a b k).
    + rewrite map_map. erewrite map_ext; [exact C4|].
      intros k. simpl. now destruct (between a b k).
    + intros k Hk. apply in_map_iff in Hk. destruct Hk as [k0 [<- Hk]].
      destruct (between a b k0); [discriminate | now apply C5].
  - destruct (existsb _ _); [discriminate|].
    intros H. injection H as <-. repeat split; trivial.
Qed.

Lemma constraints_delete_connections (keep : Connection.t -> bool) d :
  constraints_hold d ->
  constraints_hold (with_connections d (filter keep (connections d))).
Proof.
  intros (C1 & C2 & C3 & C4 & C5 & C6). repeat split; simpl; trivial;
    try (now apply delete_keeps_key); try (now apply delete_keeps_keys).
  intros k Hk. apply filter_In in Hk. destruct Hk as [Hk _]. auto.
Qed.

Lemma constraints_replace_node_position i x y f :
  statement_preserves constraints_hold (replace_node_position i x y f).
Proof.
  intros d d' (C1 & C2 & C3 & C4 & C5 & C6). unfold replace_node_position.
  destruct x as [x|]; [|discriminate]. destruct y as [y|]; [|discriminate].
  destruct (foreign_keys d && _); [discriminate|].
  intros H. injection H as <-. repeat split; simpl; trivial.
  apply NoDup_map_snoc; [now apply delete_keeps_key|].
  intros Hin. apply in_map_iff in Hin. destruct Hin as [q [E Hq]].
  apply filter_In in Hq. destruct Hq as [_ Hq].
  apply negb_true_iff, String.eqb_neq in Hq. contradiction.
Qed.

(** Every call keeps the constraints of the schema. *)
Lemma constraints_perform o w :
  constraints_hold (db w) -> constraints_hold (db (perform o w)).
Proof.
  apply perform_preserves.
  - apply constraints_insert_contact.
  - apply constraints_update_contact.
  - apply constraints_delete_contact.
  - apply constraints_insert_connection.
  - apply constraints_update_connection_label.
  - intros a d d' H E. injection E as <-. now apply constraints_delete_connections.
  - intros a b d d' H E. injection E as <-. now apply constraints_delete_connections.
  - apply constraints_replace_node_position.
  - intros d d' (C1 & C2 & C3 & C4 & C5 & C6) E. injection E as <-.
    repeat split; simpl; trivial. constructor.
Qed.

Lemma constraints_reachable allowed w :
  reachable allowed w -> constraints_hold (db w).
Proof.
  induction 1 as [| w o _ IH _ _].
  - repeat split; simpl; try constructor; intros x [].
  - now apply constraints_perform.
Qed.

(** X1.  In every state reached by the repository calls, imports included,
    no two contacts share an id that is not NULL, so that
    [getContactById] has at most one row to choose from; no two connection
    rows share an id that is not NULL, or an ordered pair (from, to); and
    no two position rows share a contact id.  (A NULL id, which an import
    can store, is no key: it may repeat.) *)
Theorem keys_unique_reachable :
  forall (w : world),
    reachable any_operation w ->
    NoDup (keys (map Contact.id (contacts (db w))))
    /\ (forall id, length (filter (fun c => is_text (Contact.id c) id)
                                  (contacts (db w))) <= 1)
    /\ NoDup (keys (map Connection.id (connections (db w))))
    /\ NoDup (map pair_of (connections (db w)))
    /\ NoDup (map NodePosition.contact_id (node_positions (db w))).
Proof.
  intros w R. destruct (constraints_reachable _ _ R) as (C1 & C2 & C3 & C4 & C5 & C6).
  repeat split; trivial.
  intros id. now apply at_most_one_row.
Qed.

(** X2.  In every state reached by the repository calls, imports included,
    every stored contact has a name and every stored connection a label. *)
Theorem required_columns_reachable :
  forall (w : world),
    reachable any_operation w ->
    (forall c, In c (contacts (db w)) -> exists n, Contact.name c = Some n)
    /\ (forall k, In k (connections (db w)) -> exists l, Connection.label k = Some l).
Proof.
  intros w R. destruct (constraints_reachable _ _ R) as (C1 & C2 & C3 & C4 & C5 & C6).
  split.
  - intros c Hc. specialize (C2 c Hc). destruct (Contact.name c); [eauto | congruence].
  - intros k Hk. specialize (C5 k Hk). destruct (Connection.label k); [eauto | congruence].
Qed.

(** ** Mutate, then flush *)

Lemma silent_execute statement : silent (execute statement).
Proof. intros w. unfold execute. now destruct (statement (db w)). Qed.

Lemma silent_query {A : Type} (select : database -> A) : silent (query select).
Proof. intros w. reflexivity. Qed.

Lemma silent_ret {A : Type} (a : A) : silent (ret a).
Proof. intros w. reflexivity. Qed.

Lemma silent_lift {A : Type} (r : result A) : silent (lift r).
Proof. intros w. reflexivity. Qed.

Lemma silent_bind {A B : Type} (m : M A) (k : A -> M B) :
  silent m -> (forall a, silent (k a)) -> silent (bind m k).
Proof.
  intros Hm Hk w. unfold bind. specialize (Hm w).
  destruct (m w) as [[a|e] w']; simpl in *; [|exact Hm].
  now rewrite Hk.
Qed.

Lemma silent_try_catch {A : Type} (m : M A) (handler : exn -> M A) :
  silent m -> (forall e, silent (handler e)) -> silent (try_catch m handler).
Proof.
  intros Hm Hh w. unfold try_catch. specialize (Hm w).
  destruct (m w) as [[a|e] w']; simpl in *; [exact Hm|].
  now rewrite Hh.
Qed.

Lemma silent_for_each {A : Type} (l : list A) (body : A -> M unit) :
  (forall a, silent (body a)) -> silent (for_each l body).
Proof.
  intros Hb. induction l as [|a l IH]; simpl.
  - apply silent_ret.
  - apply silent_bind; [apply Hb | intros _; exact IH].
Qed.

Lemma flushes_last_throw {A : Type} (e : exn) : flushes_last (@throw A e).
Proof. intros w. reflexivity. Qed.

Lemma flushes_last_save : flushes_last saveToIndexedDB.
Proof. intros w. reflexivity. Qed.

Lemma flushes_last_save_then {A : Type} (m : M A) :
  reads m -> flushes_last (bind saveToIndexedDB (fun _ => m)).
Proof.
  intros Hm w. unfold bind, saveToIndexedDB.
  destruct (Hm (mkWorld (db w) (db w :: idb w))) as [a ->]. reflexivity.
Qed.

Lemma flushes_last_after {A B : Type} (m : M A) (k : A -> M B) :
  silent m -> (forall a, flushes_last (k a)) -> flushes_last (bind m k).
Proof.
  intros Hm Hk w. unfold bind. specialize (Hm w).
  destruct (m w) as [[a|e] w'] eqn:E; simpl in *; [|exact Hm].
  specialize (Hk a w'). destruct (k a w') as [[b|e] w'']; congruence.
Qed.

Lemma flushes_last_idb {A : Type} (m : M A) w :
  flushes_last m ->
  idb (run m w) = if is_ok (outcome m w) then db (run m w) :: idb w else idb w.
Proof.
  intros H. specialize (H w). unfold run, outcome.
  now destruct (m w) as [[a|e] w'].
Qed.

Lemma perform_idb o w :
  idb (perform o w) = if completes o w then db (perform o w) :: idb w else idb w.
Proof.
  destruct o as [id now c | id c | a | id1 id2 n1 n2 a b l | a b l | a b | data | ps | ];
    simpl perform; simpl completes; apply flushes_last_idb.
  - apply flushes_last_after; [apply silent_execute|]. intros _.
    apply flushes_last_save_then. intros v. eexists. reflexivity.
  - apply flushes_last_after; [apply silent_execute|]. intros _.
    apply flushes_last_save_then. intros v. eexists. reflexivity.
  - apply flushes_last_after; [apply silent_execute|]. intros _.
    apply flushes_last_after; [apply silent_execute|]. intros _.
    apply flushes_last_save.
  - unfold createConnection. destruct (a =? b); [apply flushes_last_throw|].
    apply flushes_last_after; [apply silent_query|]. intros [|];
      [apply flushes_last_throw|].
    apply flushes_last_after; [apply silent_execute|]. intros _.
    apply flushes_last_after; [apply silent_execute|]. intros _.
    apply flushes_last_save_then. intros v. eexists. reflexivity.
  - apply flushes_last_after; [apply silent_execute|]. intros _.
    apply flushes_last_save.
  - apply flushes_last_after; [apply silent_execute|]. intros _.
    apply flushes_last_save.
  - unfold importData.
    destruct (Document.contacts data) as [cs|]; [|apply flushes_last_throw].
    destruct (Document.connections data) as [ks|]; [|apply flushes_last_throw].
    apply flushes_last_after.
    { apply silent_for_each. intros c. unfold import_contact.
      apply silent_bind; [apply silent_lift|]. intros id.
      apply silent_bind; [apply silent_query|]. intros [|];
        [apply silent_ret | apply silent_execute]. }
    intros _. apply flushes_last_after; [|intros _; apply flushes_last_save].
    apply silent_for_each. intros k. unfold import_connection.
    apply silent_bind; [apply silent_lift|]. intros id.
    apply silent_bind; [apply silent_query|]. intros [|]; [apply silent_ret|].
    apply silent_try_catch; [apply silent_execute | intros _; apply silent_ret].
  - apply flushes_last_after; [|intros _; apply flushes_last_save].
    apply silent_for_each. intros p. apply silent_execute.
  - apply flushes_last_after; [apply silent_execute|]. intros _.
    apply flushes_last_save.
Qed.

(** X3.  Each repository call that returns has written the store exactly
    once, and the snapshot it wrote is the database as the call left it; a
    call that throws has not written the store at all. *)
Theorem store_written_iff_completes :
  forall (o : operation) (w : world),
    idb (perform o w)
    = if completes o w then db (perform o w) :: idb w else idb w.
Proof.
  intros o w. pose proof (perform_idb o w) as H.
  destruct (completes o w); exact H.
Qed.

(** X4.  Loading the page again right after a call that returned gives back
    the database that call left, from every reachable state. *)
Theorem reload_after_completed_call :
  forall (o : operation) (w : world),
    reachable any_operation w ->
    completes o w = true ->
    db (initDatabase_again (perform o w)) = db (perform o w).
Proof.
  intros o w R C.
  unfold initDatabase_again, loadFromIndexedDB.
  rewrite perform_idb, C. simpl.
  pose proof (foreign_keys_perform o w) as F.
  rewrite (reachable_not_enforced _ _ R) in F.
  destruct (db (perform o w)); simpl in *. now rewrite F.
Qed.

(** ** What an import leaves alone *)

Lemma find_app_first {A : Type} (p : A -> bool) (l more : list A) (a : A) :
  find p l = Some a -> find p (l ++ more) = Some a.
Proof.
  induction l as [|b l IH]; simpl; [discriminate|].
  destruct (p b); auto.
Qed.

Lemma hd_error_filter_find {A : Type} (p : A -> bool) (l : list A) :
  hd_error (filter p l) = find p l.
Proof.
  induction l as [|a l IH]; simpl; trivial. destruct (p a); simpl; auto.
Qed.

(** Whatever the document, and whether the import returns or throws, the
    rows stored before it stay, unchanged and in place, at the head of
    their tables. *)
Lemma importData_appends data w :
  (exists cs', contacts (db (run (importData data) w)) = contacts (db w) ++ cs')
  /\ (exists ks', connections (db (run (importData data) w)) = connections (db w) ++ ks')
  /\ node_positions (db (run (importData data) w)) = node_positions (db w).
Proof.
  unfold run.
  destruct (Document.contacts data) as [cs|] eqn:Hc.
  2:{ unfold importData. rewrite Hc. simpl.
      repeat split; try (exists []; now rewrite app_nil_r). }
  destruct (Document.connections data) as [ks|] eqn:Hk.
  2:{ unfold importData. rewrite Hc, Hk. simpl.
      repeat split; try (exists []; now rewrite app_nil_r). }
  rewrite (importData_valid data cs ks w Hc Hk).
  destruct (for_each cs import_contact w) as [r1 w1] eqn:P1.
  destruct (import_contacts_frame _ _ _ _ P1) as (A1 & A2 & A3 & A4 & cs' & A5 & _).
  destruct r1 as [[]|e]; simpl.
  - destruct (for_each ks import_connection w1) as [r2 w2] eqn:P2.
    destruct (import_connections_frame _ _ _ _ P2)
      as (B1 & B2 & B3 & B4 & ks' & B5 & _).
    destruct r2 as [[]|e]; simpl; repeat split.
    + exists cs'. congruence.
    + exists ks'. congruence.
    + congruence.
    + exists cs'. congruence.
    + exists ks'. congruence.
    + congruence.
  - repeat split.
    + exists cs'. congruence.
    + exists []. rewrite app_nil_r. congruence.
    + congruence.
Qed.

(** X5.  An import never changes or removes what is stored: for every
    document and every state, returning or throwing, a contact that
    [getContactById] found before the import is found unchanged after it,
    every connection row stored before is still stored, and the node
    positions are untouched. *)
Theorem importData_keeps_existing_rows :
  forall (data : Document.t) (w : world),
    (forall id c, outcome (getContactById id) w = Ok (Some c) ->
                  outcome (getContactById id) (run (importData data) w) = Ok (Some c))
    /\ (forall k, In k (connections (db w)) ->
                  In k (connections (db (run (importData data) w))))
    /\ node_positions (db (run (importData data) w)) = node_positions (db w).
Proof.
  intros data w.
  destruct (importData_appends data w) as ([cs' Hc] & [ks' Hk] & Hp).
  repeat split; trivial.
  - intros id c. unfold outcome, getContactById, query. simpl.
    rewrite !hd_error_filter_find, Hc.
    destruct (find _ (contacts (db w))) as [c0|] eqn:F; [|discriminate].
    now rewrite (find_app_first _ _ _ _ F).
  - intros k Hin. rewrite Hk. apply in_or_app. now left.
Qed.

(** ** Restoring a backup *)

Lemma keys_app_head (pre : list value) (i : string) (rest : list value) :
  NoDup (keys (pre ++ Some i :: rest)) -> ~ In (Some i) pre.
Proof.
  rewrite keys_app. simpl. intros H Hin.
  apply NoDup_remove_2 in H. apply H. apply in_or_app. left. now apply In_keys.
Qed.

Lemma NoDup_map_app_head {A B : Type} (f : A -> B) (pre : list A) (a : A) (rest : list A) :
  NoDup (map f (pre ++ a :: rest)) -> ~ In (f a) (map f pre).
Proof.
  rewrite map_app. simpl. intros H Hin.
  apply NoDup_remove_2 in H. apply H. apply in_or_app. now left.
Qed.

Lemma contact_of_contact_row c : contact_of_row (contact_row c) = Some c.
Proof.
  destruct c as [i n u b s t]. unfold contact_of_row, contact_row. simpl.
  destruct i, n, u, b, s, t; reflexivity.
Qed.

Lemma connection_of_connection_row k : connection_of_row (connection_row k) = Some k.
Proof.
  destruct k as [i a b l t]. unfold connection_of_row, connection_row. simpl.
  destruct i, l, t; reflexivity.
Qed.

Lemma import_contacts_into rest :
  forall v pre,
    contacts (db v) = pre ->
    NoDup (keys (map Contact.id (pre ++ rest))) ->
    (forall c, In c rest -> Contact.name c <> None) ->
    exists v',
      for_each (map contact_row rest) import_contact v = (Ok tt, v')
      /\ contacts (db v') = pre ++ rest.
Proof.
  induction rest as [|c rest IH]; intros v pre Hv Hn Hname; simpl.
  - exists v. now rewrite app_nil_r.
  - unfold bind. rewrite import_contact_step.
    rewrite (contact_of_row_id _ _ (contact_of_contact_row c)).
    assert (P : selects_contact (Contact.id c) (db v) = false).
    { destruct (Contact.id c) as [i|] eqn:Ei; trivial. simpl.
      destruct (has_contact i (db v)) eqn:P; trivial. exfalso.
      rewrite map_app in Hn. simpl in Hn. rewrite Ei in Hn.
      apply (keys_app_head _ _ _ Hn).
      apply has_contact_true in P. destruct P as [c0 [Hin Hid]].
      rewrite <- Hid. apply in_map. now rewrite <- Hv. }
    rewrite P, insert_contact_row_bound, contact_of_contact_row.
    unfold insert_contact. rewrite P.
    destruct (Contact.name c) eqn:N; [|exfalso; apply (Hname c); [now left | exact N]].
    destruct (IH (mkWorld (with_contacts (db v) (contacts (db v) ++ [c])) (idb v))
                 (pre ++ [c])) as [v' [R1 R2]].
    + simpl. now rewrite Hv.
    + now rewrite <- app_assoc.
    + intros x Hx. apply Hname. now right.
    + exists v'. split; trivial. now rewrite R2, <- app_assoc.
Qed.

Lemma import_connections_into rest :
  forall v pre,
    connections (db v) = pre ->
    foreign_keys (db v) = false ->
    NoDup (keys (map Connection.id (pre ++ rest))) ->
    NoDup (map pair_of (pre ++ rest)) ->
    (forall k, In k rest -> Connection.label k <> None) ->
    exists v',
      for_each (map connection_row rest) import_connection v = (Ok tt, v')
      /\ connections (db v') = pre ++ rest.
Proof.
  induction rest as [|k rest IH]; intros v pre Hv Hf Hi Hp Hl; simpl.
  - exists v. now rewrite app_nil_r.
  - unfold bind. rewrite import_connection_step.
    rewrite (connection_of_row_id _ _ (connection_of_connection_row k)).
    assert (P1 : selects_connection (Connection.id k) (db v) = false).
    { destruct (Connection.id k) as [i|] eqn:Ei; trivial. simpl.
      destruct (has_connection i (db v)) eqn:P; trivial. exfalso.
      rewrite map_app in Hi. simpl in Hi. rewrite Ei in Hi.
      apply (keys_app_head _ _ _ Hi).
      apply has_connection_true in P. destruct P as [k0 [Hin Hid]].
      rewrite <- Hid. apply in_map. now rewrite <- Hv. }
    assert (P2 : has_pair (Connection.from_contact_id k) (Connection.to_contact_id k)
                   (db v) = false).
    { destruct (has_pair _ _ (db v)) eqn:P; trivial.
      exfalso. apply (NoDup_map_app_head _ _ _ _ Hp).
      apply has_pair_true in P. destruct P as [k0 [Hin [E1 E2]]].
      replace (pair_of k) with (pair_of k0) by (unfold pair_of; congruence).
      apply in_map. now rewrite <- Hv. }
    pose proof (insert_connection_row_bound (connection_row k) (db v)) as B.
    rewrite connection_of_connection_row in B. rewrite P1, B.
    unfold insert_connection. rewrite P1, P2, Hf.
    destruct (Connection.label k) eqn:L; [|exfalso; apply (Hl k); [now left | exact L]].
    simpl.
    destruct (IH (mkWorld (with_connections (db v) (connections (db v) ++ [k])) (idb v))
                 (pre ++ [k])) as [v' [R1 R2]].
    + simpl. now rewrite Hv.
    + exact Hf.
    + now rewrite <- app_assoc.
    + now rewrite <- app_assoc.
    + intros x Hx. apply Hl. now right.
    + exists v'. split; trivial. now rewrite R2, <- app_assoc.
Qed.

Lemma map_whole {A : Type} (f : A -> A) (l : list A) :
  (forall a, In a l -> f a = a) -> map f l = l.
Proof.
  intros H. induction l as [|a l IH]; simpl; trivial.
  rewrite H by now left. f_equal. apply IH. intros x Hx. apply H. now right.
Qed.

(** X6.  A backup restores.  Take a reachable state in which no id and no
    endpoint of a connection holds U+0000.  Importing what [exportData()]
    returned there into a fresh database succeeds and rebuilds the contacts
    and the connections row for row and in order, each text as the export
    shows it, that is, up to its first U+0000: the restored tables are the
    stored ones exactly when no text holds U+0000.  Node positions are not
    part of the export, so the restored database has none. *)
Theorem restore_from_export :
  forall (w : world) (now : string) (data : Document.t),
    reachable any_operation w ->
    (forall c, In c (contacts (db w)) -> read_whole (Contact.id c)) ->
    (forall k, In k (connections (db w)) ->
       read_whole (Connection.id k)
       /\ nul_free (Connection.from_contact_id k)
       /\ nul_free (Connection.to_contact_id k)) ->
    outcome (exportData now) w = Ok data ->
    outcome (importData data) initDatabase = Ok tt
    /\ contacts (db (run (importData data) initDatabase))
       = map getAsObject (contacts (db w))
    /\ connections (db (run (importData data) initDatabase))
       = map read_connection (connections (db w))
    /\ node_positions (db (run (importData data) initDatabase)) = []
    /\ ((forall c, In c (contacts (db w)) -> getAsObject c = c) ->
        contacts (db (run (importData data) initDatabase)) = contacts (db w))
    /\ ((forall k, In k (connections (db w)) -> read_connection k = k) ->
        connections (db (run (importData data) initDatabase)) = connections (db w)).
Proof.
  intros w now data R Wc Wk E.
  unfold outcome, exportData, bind, query, ret in E. simpl in E. injection E as <-.
  destruct (constraints_reachable _ _ R) as (C1 & C2 & C3 & C4 & C5 & C6).
  assert (Ic : map Contact.id (map getAsObject (contacts (db w)))
               = map Contact.id (contacts (db w))).
  { rewrite map_map. apply map_ext_in. intros c Hc. apply (Wc c Hc). }
  assert (Ik : map Connection.id (map read_connection (connections (db w)))
               = map Connection.id (connections (db w))).
  { rewrite map_map. apply map_ext_in. intros k Hk. apply (Wk k Hk). }
  assert (Pk : map pair_of (map read_connection (connections (db w)))
               = map pair_of (connections (db w))).
  { rewrite map_map. apply map_ext_in. intros k Hk.
    destruct (Wk k Hk) as (_ & Ha & Hb). unfold pair_of. simpl.
    unfold nul_free in Ha, Hb. now rewrite Ha, Hb. }
  set (doc := Document.mk 1 now
                (Some (map contact_row (map getAsObject (contacts (db w)))))
                (Some (map connection_row (map read_connection (connections (db w)))))).
  assert (T : outcome (importData doc) initDatabase = Ok tt
              /\ contacts (db (run (importData doc) initDatabase))
                 = map getAsObject (contacts (db w))
              /\ connections (db (run (importData doc) initDatabase))
                 = map read_connection (connections (db w))
              /\ node_positions (db (run (importData doc) initDatabase)) = []).
  { unfold outcome, run.
    rewrite (importData_valid doc _ _ initDatabase eq_refl eq_refl).
    destruct (import_contacts_into (map getAsObject (contacts (db w))) initDatabase [])
      as [v1 [R1 S1]]; trivial.
    { simpl. now rewrite Ic. }
    { intros c Hc. apply in_map_iff in Hc. destruct Hc as [c0 [<- Hc0]].
      specialize (C2 c0 Hc0). simpl. destruct (Contact.name c0); [discriminate | tauto]. }
    rewrite R1.
    destruct (import_contacts_frame _ _ _ _ R1) as (A1 & A2 & A3 & A4 & _).
    destruct (import_connections_into (map read_connection (connections (db w))) v1 [])
      as [v2 [R2 S2]]; trivial.
    { simpl. now rewrite Ik. }
    { simpl. now rewrite Pk. }
    { intros k Hk. apply in_map_iff in Hk. destruct Hk as [k0 [<- Hk0]].
      specialize (C5 k0 Hk0). simpl. destruct (Connection.label k0); [discriminate | tauto]. }
    rewrite R2.
    destruct (import_connections_frame _ _ _ _ R2) as (B1 & B2 & B3 & B4 & _).
    simpl in *. repeat split; trivial; congruence. }
  assert (D : Document.mk 1 now (Some (map contact_object (contacts (db w))))
                (Some (map connection_object (connections (db w))))
              = doc).
  { unfold doc. now rewrite !map_map. }
  rewrite D. destruct T as (T1 & T2 & T3 & T4).
  repeat split; trivial.
  - intros H. rewrite T2. now apply map_whole.
  - intros H. rewrite T3. now apply map_whole.
Qed.

(** ** Creating, relabelling and deleting a connection *)

Lemma row_between_false A B d :
  ~ row_between A B d ->
  existsb (between A B) (connections d) = false
  /\ has_pair A B d = false /\ has_pair B A d = false.
Proof.
  intros H. repeat split.
  - destruct (existsb (between A B) (connections d)) eqn:E; trivial.
    apply exists_between_true in E. contradiction.
  - destruct (has_pair A B d) eqn:E; trivial.
    apply has_pair_true in E. exfalso. apply H. now left.
  - destruct (has_pair B A d) eqn:E; trivial.
    apply has_pair_true in E. exfalso. apply H. now right.
Qed.

(** What a [createConnection] that passes its checks does. *)
Lemma createConnection_success id1 id2 now1 now2 A B L w :
  A <> B ->
  ~ row_between A B (db w) ->
  id1 <> id2 ->
  has_connection id1 (db w) = false ->
  has_connection id2 (db w) = false ->
  (foreign_keys (db w) = true ->
   has_contact A (db w) = true /\ has_contact B (db w) = true) ->
  createConnection id1 id2 now1 now2 A B (Some L) w
  = (Ok (Created.mk id1 A B (Some L)),
     mkWorld
       (with_connections (db w)
          (connections (db w)
           ++ [Connection.mk (Some id1) A B (Some L) (Some now1);
               Connection.mk (Some id2) B A (Some L) (Some now2)]))
       (with_connections (db w)
          (connections (db w)
           ++ [Connection.mk (Some id1) A B (Some L) (Some now1);
               Connection.mk (Some id2) B A (Some L) (Some now2)])
        :: idb w)).
Proof.
  intros AB NB N F1 F2 FK.
  apply String.eqb_neq in AB. apply String.eqb_neq in N.
  destruct (row_between_false _ _ _ NB) as (Ex & P1 & P2).
  assert (FK' : foreign_keys (db w)
                && negb (has_contact A (db w) && has_contact B (db w)) = false).
  { destruct (foreign_keys (db w)); [|reflexivity].
    destruct (FK eq_refl) as [-> ->]. reflexivity. }
  unfold createConnection, bind, connectionExists, query, execute,
    insert_connection, saveToIndexedDB, ret.
  rewrite AB, Ex. simpl. rewrite F1, P1, FK'. simpl.
  unfold has_connection, has_pair, has_contact in *. simpl.
  rewrite !existsb_app. simpl.
  rewrite F2, P2, N, AB. simpl.
  rewrite (andb_comm (existsb _ (contacts (db w))) (existsb _ (contacts (db w)))), FK'.
  simpl. unfold with_connections. simpl. now rewrite <- !app_assoc.
Qed.

(** X7.  [createConnection] between two different contacts that no row
    connects yet, with a label and fresh ids, returns the first id and
    appends exactly the two mirror rows with that label; afterwards
    [connectionExists] answers true in both directions.  (Under foreign-key
    enforcement both contacts have to exist.) *)
Theorem createConnection_creates_both_rows :
  forall (id1 id2 now1 now2 A B L : string) (w : world),
    A <> B ->
    ~ row_between A B (db w) ->
    id1 <> id2 ->
    has_connection id1 (db w) = false ->
    has_connection id2 (db w) = false ->
    (foreign_keys (db w) = true ->
     has_contact A (db w) = true /\ has_contact B (db w) = true) ->
    outcome (createConnection id1 id2 now1 now2 A B (Some L)) w
    = Ok (Created.mk id1 A B (Some L))
    /\ connections (db (run (createConnection id1 id2 now1 now2 A B (Some L)) w))
       = connections (db w)
         ++ [Connection.mk (Some id1) A B (Some L) (Some now1);
             Connection.mk (Some id2) B A (Some L) (Some now2)]
    /\ contacts (db (run (createConnection id1 id2 now1 now2 A B (Some L)) w))
       = contacts (db w)
    /\ outcome (connectionExists A B)
         (run (createConnection id1 id2 now1 now2 A B (Some L)) w) = Ok true
    /\ outcome (connectionExists B A)
         (run (createConnection id1 id2 now1 now2 A B (Some L)) w) = Ok true.
Proof.
  intros id1 id2 now1 now2 A B L w AB NB N F1 F2 FK.
  unfold outcome, run.
  rewrite (createConnection_success id1 id2 now1 now2 A B L w AB NB N F1 F2 FK).
  simpl. repeat split.
  - unfold connectionExists, query. simpl. rewrite existsb_app. simpl.
    unfold between. simpl. rewrite !String.eqb_refl. simpl. now rewrite orb_true_r.
  - unfold connectionExists, query. simpl. rewrite existsb_app. simpl.
    unfold between. simpl. rewrite !String.eqb_refl. simpl.
    now rewrite !orb_true_r.
Qed.

Lemma filter_all_true {A : Type} (p : A -> bool) (l : list A) :
  (forall a, In a l -> p a = true) -> filter p l = l.
Proof.
  induction l as [|a l IH]; simpl; intros H; trivial.
  rewrite (H a) by now left. f_equal. apply IH. intros b Hb. apply H. now right.
Qed.

(** X8.  [deleteConnection] undoes [createConnection]: deleting the
    connection that was just created between [A] and [B], from either end,
    leaves the connections table exactly as it was before the creation. *)
Theorem deleteConnection_undoes_createConnection :
  forall (id1 id2 now1 now2 A B L : string) (w : world),
    A <> B ->
    ~ row_between A B (db w) ->
    id1 <> id2 ->
    has_connection id1 (db w) = false ->
    has_connection id2 (db w) = false ->
    (foreign_keys (db w) = true ->
     has_contact A (db w) = true /\ has_contact B (db w) = true) ->
    connections
      (db (run (deleteConnection A B)
             (run (createConnection id1 id2 now1 now2 A B (Some L)) w)))
    = connections (db w)
    /\ connections
         (db (run (deleteConnection B A)
                (run (createConnection id1 id2 now1 now2 A B (Some L)) w)))
       = connections (db w).
Proof.
  intros id1 id2 now1 now2 A B L w AB NB N F1 F2 FK.
  assert (S : forall k, between B A k = between A B k).
  { intros k. unfold between. apply orb_comm. }
  assert (K : filter (fun k => negb (between A B k))
                (connections (db w)
                 ++ [Connection.mk (Some id1) A B (Some L) (Some now1);
                     Connection.mk (Some id2) B A (Some L) (Some now2)])
              = connections (db w)).
  { rewrite filter_app, filter_all_true.
    - simpl. unfold between. simpl. rewrite !String.eqb_refl. simpl.
      rewrite orb_true_r. simpl. apply app_nil_r.
    - intros k Hk. apply negb_true_iff.
      destruct (between A B k) eqn:Bk; trivial.
      exfalso. apply NB. apply exists_between_true.
      apply existsb_exists. eauto. }
  unfold run.
  rewrite (createConnection_success id1 id2 now1 now2 A B L w AB NB N F1 F2 FK).
  unfold deleteConnection, bind, execute, delete_connections_between. simpl.
  split; [exact K|].
  erewrite filter_ext; [exact K|]. intros k. simpl. now rewrite S.
Qed.

(** X9.  [updateConnection(A, B, {label})] with a label returns, keeps
    every row in its place with its id, endpoints and creation time, gives
    the new label to exactly the rows between [A] and [B] (either
    direction), and leaves every other label, the contacts and the node
    positions alone. *)
Theorem updateConnection_relabels_the_pair :
  forall (A B L : string) (w : world),
    outcome (updateConnection A B (Some L)) w = Ok tt
    /\ Forall2
         (fun k k' =>
            Connection.id k' = Connection.id k
            /\ Connection.from_contact_id k' = Connection.from_contact_id k
            /\ Connection.to_contact_id k' = Connection.to_contact_id k
            /\ Connection.created_at k' = Connection.created_at k
            /\ Connection.label k'
               = if between A B k then Some L else Connection.label k)
         (connections (db w))
         (connections (db (run (updateConnection A B (Some L)) w)))
    /\ contacts (db (run (updateConnection A B (Some L)) w)) = contacts (db w)
    /\ node_positions (db (run (updateConnection A B (Some L)) w))
       = node_positions (db w).
Proof.
  intros A B L w.
  unfold outcome, run, updateConnection, bind, execute, update_connection_label.
  simpl. repeat split.
  induction (connections (db w)) as [|k ks IH]; simpl; constructor; trivial.
  destruct (between A B k); simpl; repeat split.
Qed.

(** ** Updating a contact *)

Lemma find_map_same {A : Type} (p : A -> bool) (f : A -> A) (l : list A) :
  (forall a, p (f a) = p a) -> find p (map f l) = option_map f (find p l).
Proof.
  intros H. induction l as [|a l IH]; simpl; trivial.
  rewrite H. now destruct (p a).
Qed.

Lemma find_map_fixed {A : Type} (p : A -> bool) (f : A -> A) (l : list A) :
  (forall a, p (f a) = p a) -> (forall a, p a = true -> f a = a) ->
  find p (map f l) = find p l.
Proof.
  intros H F. induction l as [|a l IH]; simpl; trivial.
  rewrite H. destruct (p a) eqn:E; [now rewrite F | exact IH].
Qed.

(** X10.  [updateContact(id, C)] with a name returns what
    [getContactById(id)] found before, with its name and its three optional
    fields replaced by those of [C] as they are read back (the optional
    ones passed through [|| null], and every text up to its first U+0000)
    and its id and creation time kept, or null when there was no such
    contact; every other contact reads back as before, and connections and
    node positions are untouched. *)
Theorem updateContact_updates_one :
  forall (id : string) (c : ContactInput.t) (n : string) (w : world),
    ContactInput.name c = Some n ->
    (forall old,
        outcome (getContactById id) w = Ok old ->
        outcome (updateContact id c) w
        = Ok (option_map
                (fun o => Contact.mk (Contact.id o) (Some (UTF8ToString n))
                            (getString (or_null (ContactInput.imageUrl c)))
                            (getString (or_null (ContactInput.imageBlob c)))
                            (getString (or_null (ContactInput.notes c)))
                            (Contact.created_at o))
                old))
    /\ (forall other,
           other <> id ->
           outcome (getContactById other) (run (updateContact id c) w)
           = outcome (getContactById other) w)
    /\ length (contacts (db (run (updateContact id c) w))) = length (contacts (db w))
    /\ connections (db (run (updateContact id c) w)) = connections (db w)
    /\ node_positions (db (run (updateContact id c) w)) = node_positions (db w).
Proof.
  intros id c n w Hn.
  unfold outcome, run, updateContact, getContactById, bind, execute, query,
    update_contact, saveToIndexedDB.
  rewrite Hn. simpl. repeat split.
  - intros old H. injection H as <-. f_equal.
    rewrite !hd_error_filter_find, find_map_same.
    + destruct (find _ (contacts (db w))) as [o|] eqn:F; simpl; trivial.
      apply find_some in F. destruct F as [_ F]. now rewrite F.
    + intros a. destruct (is_text (Contact.id a) id) eqn:E; simpl; trivial.
  - intros other Ho. do 2 f_equal. rewrite !hd_error_filter_find.
    apply find_map_fixed.
    + intros a. destruct (is_text (Contact.id a) id) eqn:E; simpl; trivial.
    + intros a Ha. apply is_text_true in Ha.
      destruct (is_text (Contact.id a) id) eqn:E; trivial.
      apply is_text_true in E. congruence.
  - apply length_map.
Qed.

(** ** Listing the connections of a contact *)




(** ** Ordered listings *)

Lemma order_by_permutation {A : Type} (le : A -> A -> bool) (l : list A) :
  Permutation (order_by le l) l.
Proof.
  unfold order_by. induction l as [|a l IH]; simpl; [constructor|].
  transitivity (a :: fold_right (insert_by le) [] l); [|now constructor].
  generalize (fold_right (insert_by le) [] l). clear.
  intros l. induction l as [|b l IH]; simpl; [reflexivity|].
  destruct (le a b); [reflexivity|].
  transitivity (b :: a :: l); [now constructor | constructor].
Qed.




Lemma toLowerCase_length s : String.length (toLowerCase s) = String.length s.
Proof. induction s as [|c s IH]; simpl; congruence. Qed.

Lemma append_length s t :
  String.length (s ++ t) = String.length s + String.length t.
Proof. induction s as [|c s IH]; simpl; congruence. Qed.

(** The pattern of a term is the term between two [%]: it is too long for
    the engine from 49 999 bytes of term on. *)
Lemma pattern_too_long_term t :
  pattern_too_long ("%" ++ toLowerCase t ++ "%")
  = (49998 <? N.of_nat (String.length t))%N.
Proof.
  unfold pattern_too_long.
  replace (String.length ("%" ++ toLowerCase t ++ "%")) with (String.length t + 2).
  2:{ rewrite !append_length, toLowerCase_length. simpl. lia. }
  destruct (N.ltb_spec 50000 (N.of_nat (String.length t + 2)));
    destruct (N.ltb_spec 49998 (N.of_nat (String.length t))); trivial; lia.
Qed.


(** ** The image of a contact *)

(** X14.  [getContactImage] never returns the empty string: it is the
    contact's inline image when that is non-empty, else its image URL when
    that is non-empty, else the placeholder. *)
Theorem getContactImage_never_empty :
  forall (contact : Contact.t),
    getContactImage contact <> ""
    /\ (truthy (Contact.image_blob contact) = true ->
        Contact.image_blob contact = Some (getContactImage contact))
    /\ (truthy (Contact.image_blob contact) = false ->
        truthy (Contact.image_url contact) = true ->
        Contact.image_url contact = Some (getContactImage contact))
    /\ (truthy (Contact.image_blob contact) = false ->
        truthy (Contact.image_url contact) = false ->
        getContactImage contact = "assets/placeholder.svg").
Proof.
  intros contact. unfold getContactImage, truthy.
  destruct (Contact.image_blob contact) as [[|c s]|];
    destruct (Contact.image_url contact) as [[|c' s']|];
    repeat split; intros; try discriminate; trivial.
Qed.

(** ** Saving node positions *)

Lemma position_row_storable pos :
  position_row pos
  = if negb (is_nan (Position.x pos)) && negb (is_nan (Position.y pos))
    then Some (NodePosition.mk (Position.id pos)
                 (stored_number (Position.x pos)) (stored_number (Position.y pos))
                 (if Position.fixed pos then 1 else 0)%Z)
    else None.
Proof.
  unfold position_row, bindNumber, stored_number.
  destruct (is_nan (Position.x pos)); [reflexivity|].
  destruct (is_nan (Position.y pos));
    destruct (Position.x pos =? negative_zero)%Z;
    destruct (Position.y pos =? negative_zero)%Z; reflexivity.
Qed.

Lemma rows_written_storable ps :
  storable ps = true ->
  rows_written ps
  = map (fun pos => NodePosition.mk (Position.id pos)
                      (stored_number (Position.x pos)) (stored_number (Position.y pos))
                      (if Position.fixed pos then 1 else 0)%Z) ps.
Proof.
  induction ps as [|p ps IH]; [reflexivity|].
  cbn [storable forallb rows_written map].
  rewrite position_row_storable. intros H. apply andb_true_iff in H.
  destruct H as [H1 H]. rewrite H1, IH by exact H. reflexivity.
Qed.

Lemma replace_node_position_step pos v :
  foreign_keys (db v) = false ->
  execute (replace_node_position (Position.id pos)
             (bindNumber (Position.x pos)) (bindNumber (Position.y pos))
             (if Position.fixed pos then 1 else 0)%Z) v
  = match position_row pos with
    | Some row =>
        (Ok tt,
         mkWorld (with_node_positions (db v) (save_step (node_positions (db v)) row))
                 (idb v))
    | None => (Throw (SqliteConstraint NOTNULL), v)
    end.
Proof.
  intros F. unfold execute, replace_node_position, position_row.
  destruct (bindNumber (Position.x pos)); [|reflexivity].
  destruct (bindNumber (Position.y pos)); [|reflexivity].
  rewrite F. reflexivity.
Qed.

Lemma for_each_positions ps :
  forall v,
    foreign_keys (db v) = false ->
    for_each ps (fun pos =>
      execute (replace_node_position (Position.id pos)
                 (bindNumber (Position.x pos)) (bindNumber (Position.y pos))
                 (if Position.fixed pos then 1 else 0)%Z)) v
    = (if storable ps then Ok tt else Throw (SqliteConstraint NOTNULL),
       mkWorld (with_node_positions (db v)
                  (fold_left save_step (rows_written ps) (node_positions (db v))))
               (idb v)).
Proof.
  induction ps as [|p ps IH]; intros v F.
  - destruct v as [[cs ks ns fk] i]. reflexivity.
  - cbn [for_each storable forallb rows_written]. unfold bind.
    rewrite (replace_node_position_step p v F), position_row_storable.
    destruct (negb (is_nan (Position.x p)) && negb (is_nan (Position.y p))).
    + cbn [andb fold_left]. rewrite IH by exact F. reflexivity.
    + destruct v as [[cs ks ns fk] i]. reflexivity.
Qed.

(** Without enforcement [saveNodePositions] rewrites the table entry by
    entry, stops at the first entry with a coordinate the engine refuses,
    and flushes if there was none. *)
Lemma saveNodePositions_run ps w :
  foreign_keys (db w) = false ->
  saveNodePositions ps w
  = if storable ps
    then (Ok tt,
          mkWorld (with_node_positions (db w)
                     (fold_left save_step (rows_written ps) (node_positions (db w))))
            (with_node_positions (db w)
               (fold_left save_step (rows_written ps) (node_positions (db w)))
             :: idb w))
    else (Throw (SqliteConstraint NOTNULL),
          mkWorld (with_node_positions (db w)
                     (fold_left save_step (rows_written ps) (node_positions (db w))))
            (idb w)).
Proof.
  intros F. unfold saveNodePositions, bind.
  rewrite for_each_positions by exact F. destruct (storable ps); reflexivity.
Qed.

Lemma find_save_step id table row :
  find (fun p => NodePosition.contact_id p =? id) (save_step table row)
  = if NodePosition.contact_id row =? id then Some row
    else find (fun p => NodePosition.contact_id p =? id) table.
Proof.
  unfold save_step.
  destruct (NodePosition.contact_id row =? id) eqn:E.
  - apply String.eqb_eq in E. subst id.
    induction table as [|q table IH]; simpl.
    + now rewrite String.eqb_refl.
    + destruct (NodePosition.contact_id q =? NodePosition.contact_id row) eqn:Q;
        simpl; trivial.
      now rewrite Q.
  - induction table as [|q table IH]; simpl.
    + now rewrite E.
    + destruct (NodePosition.contact_id q =? NodePosition.contact_id row) eqn:Q; simpl.
      * apply String.eqb_eq in Q. rewrite Q, E. exact IH.
      * destruct (NodePosition.contact_id q =? id); trivial.
Qed.

Lemma find_snoc {A : Type} (p : A -> bool) (l : list A) (a : A) :
  find p (l ++ [a])
  = match find p l with
    | Some b => Some b
    | None => if p a then Some a else None
    end.
Proof.
  induction l as [|b l IH]; simpl; trivial. destruct (p b); trivial.
Qed.

Lemma find_fold_save_step id rows :
  forall table,
    find (fun p => NodePosition.contact_id p =? id) (fold_left save_step rows table)
    = match find (fun p => NodePosition.contact_id p =? id) (rev rows) with
      | Some row => Some row
      | None => find (fun p => NodePosition.contact_id p =? id) table
      end.
Proof.
  induction rows as [|r rows IH]; intros table; simpl; trivial.
  rewrite IH, find_save_step, find_snoc.
  destruct (find _ (rev rows)); trivial.
  now destruct (NodePosition.contact_id r =? id).
Qed.

Lemma find_map_rows {A B : Type} (p : A -> bool) (q : B -> bool) (f : A -> B) l :
  (forall a, q (f a) = p a) -> find q (map f l) = option_map f (find p l).
Proof.
  intros H. induction l as [|a l IH]; simpl; trivial.
  rewrite H. now destruct (p a).
Qed.

(** X15.  In every reachable state [saveNodePositions] returns unless a
    coordinate is NaN, which the engine would store as NULL and refuses: it
    then throws, at the first such entry, with the entries before it
    written and nothing flushed.  When it returns, what is stored for a
    contact is the last entry of the list that names it, with [-0] as 0 and
    [fixed] as 0 or 1; the stored position of a contact the list does not
    name stays as it was.  Contacts and connections are untouched either
    way. *)
Theorem saveNodePositions_then_lookup :
  forall (ps : list Position.t) (w : world) (id : string),
    reachable any_operation w ->
    outcome (saveNodePositions ps) w
    = (if storable ps then Ok tt else Throw (SqliteConstraint NOTNULL))
    /\ (storable ps = true ->
        saved_position id (db (run (saveNodePositions ps) w))
        = match last_position id ps with
          | Some pos =>
              Some (NodePosition.mk id
                      (stored_number (Position.x pos)) (stored_number (Position.y pos))
                      (if Position.fixed pos then 1 else 0)%Z)
          | None => saved_position id (db w)
          end)
    /\ (storable ps = false -> idb (run (saveNodePositions ps) w) = idb w)
    /\ node_positions (db (run (saveNodePositions ps) w))
       = fold_left save_step (rows_written ps) (node_positions (db w))
    /\ contacts (db (run (saveNodePositions ps) w)) = contacts (db w)
    /\ connections (db (run (saveNodePositions ps) w)) = connections (db w).
Proof.
  intros ps w id R.
  unfold outcome, run.
  rewrite (saveNodePositions_run ps w (reachable_not_enforced _ _ R)).
  destruct (storable ps) eqn:S; simpl; repeat split; try discriminate.
  intros _. unfold saved_position. simpl.
  rewrite find_fold_save_step, (rows_written_storable ps S), <- map_rev.
  unfold last_position.
  rewrite (find_map_rows (fun p => Position.id p =? id)) by reflexivity.
  destruct (find _ (rev ps)) as [pos|] eqn:L; simpl; trivial.
  apply find_some in L. destruct L as [_ L].
  apply String.eqb_eq in L. now rewrite L.
Qed.

Lemma fold_save_step_split rows :
  forall table,
    fold_left save_step rows table
    = filter (fun q => negb (existsb (fun r => NodePosition.contact_id r
                                               =? NodePosition.contact_id q) rows))
        table
      ++ fold_left save_step rows [].
Proof.
  induction rows as [|r rows IH]; intros table; simpl.
  - rewrite app_nil_r. symmetry. apply filter_all_true. reflexivity.
  - rewrite IH. rewrite (IH (save_step [] r)).
    unfold save_step. simpl. rewrite filter_app, <- app_assoc. f_equal.
    induction table as [|q table IHt]; simpl; trivial.
    rewrite (String.eqb_sym (NodePosition.contact_id q) (NodePosition.contact_id r)).
    destruct (NodePosition.contact_id r =? NodePosition.contact_id q); simpl; trivial.
    destruct (existsb _ rows); simpl; trivial. now f_equal.
Qed.

Lemma fold_save_step_ids rows :
  forall table q,
    In q (fold_left save_step rows table) ->
    In q table
    \/ existsb (fun r => NodePosition.contact_id r =? NodePosition.contact_id q) rows
       = true.
Proof.
  induction rows as [|r rows IH]; intros table q H; simpl in *; [now left|].
  destruct (IH _ _ H) as [Hq | Hq]; [|right; rewrite Hq; apply orb_true_r].
  unfold save_step in Hq. apply in_app_or in Hq. destruct Hq as [Hq | [<- | []]].
  - apply filter_In in Hq. now left.
  - right. simpl. now rewrite String.eqb_refl.
Qed.

(** Writing the same rows again leaves the table as it is. *)
Lemma fold_save_step_twice rows table :
  fold_left save_step rows (fold_left save_step rows table)
  = fold_left save_step rows table.
Proof.
  rewrite (fold_save_step_split rows (fold_left save_step rows table)).
  rewrite (fold_save_step_split rows table) at 2.
  rewrite (fold_save_step_split rows table) at 1.
  rewrite filter_app. rewrite <- app_assoc.
  replace (filter _ (fold_left save_step rows []) ++ fold_left save_step rows [])
    with (fold_left save_step rows []).
  - f_equal. induction table as [|q l IH]; simpl; trivial.
    destruct (existsb _ rows) eqn:E; simpl; trivial. rewrite E. simpl. now f_equal.
  - assert (Z : forall l : list NodePosition.t,
               (forall q, In q l ->
                          existsb (fun r => NodePosition.contact_id r
                                            =? NodePosition.contact_id q) rows
                          = true) ->
               filter (fun q => negb (existsb (fun r => NodePosition.contact_id r
                                                        =? NodePosition.contact_id q)
                                              rows)) l
               = []).
    { induction l as [|q l IH]; simpl; intros H; trivial.
      rewrite (H q) by now left. simpl. apply IH. intros x Hx. apply H. now right. }
    rewrite Z; trivial.
    intros q Hq. destruct (fold_save_step_ids _ _ _ Hq) as [[] | E]. exact E.
Qed.

(** X16.  Saving the same positions again changes nothing: in every
    reachable state, [saveNodePositions(ps)] followed by
    [saveNodePositions(ps)] leaves the database that the first call left. *)
Theorem saveNodePositions_twice :
  forall (ps : list Position.t) (w : world),
    reachable any_operation w ->
    db (run (saveNodePositions ps) (run (saveNodePositions ps) w))
    = db (run (saveNodePositions ps) w).
Proof.
  intros ps w R. pose proof (reachable_not_enforced _ _ R) as F.
  unfold run. rewrite (saveNodePositions_run ps w F).
  destruct (storable ps) eqn:S; simpl;
    rewrite saveNodePositions_run by exact F; rewrite S; simpl;
    unfold with_node_positions; simpl; f_equal; apply fold_save_step_twice.
Qed.

(** ** One row per pair *)









Lemma key_eqb_eq a b : key_eqb a b = true <-> a = b.
Proof.
  destruct a as [a1 a2], b as [b1 b2]. unfold key_eqb. simpl.
  rewrite andb_true_iff, !String.eqb_eq. split; [intros [-> ->] | intros H; injection H];
    auto.
Qed.

Lemma existsb_key_eqb a seen : existsb (key_eqb a) seen = true <-> In a seen.
Proof.
  rewrite existsb_exists. split.
  - intros [x [Hx E]]. apply key_eqb_eq in E. now subst.
  - intros H. exists a. split; trivial. now apply key_eqb_eq.
Qed.

Lemma distinct_keys_spec l :
  forall seen,
    NoDup (distinct_keys seen l)
    /\ forall x, In x (distinct_keys seen l) <-> In x l /\ ~ In x seen.
Proof.
  induction l as [|a l IH]; intros seen; simpl.
  - split; [constructor | tauto].
  - destruct (existsb (key_eqb a) seen) eqn:E.
    + apply existsb_key_eqb in E. destruct (IH seen) as [N S]. split; trivial.
      intros x. rewrite S. split; [tauto|]. intros [[<- | H] Hn]; tauto.
    + assert (Ha : ~ In a seen).
      { intros H. apply existsb_key_eqb in H. congruence. }
      destruct (IH (a :: seen)) as [N S]. split.
      * constructor; trivial. rewrite S. simpl. tauto.
      * intros x. simpl. rewrite S. simpl. split.
        -- intros [<- | [H Hn]]; tauto.
        -- intros [[<- | H] Hn]; [now left|].
           destruct (string_dec (fst x) (fst a)) as [E1|E1];
             [destruct (string_dec (snd x) (snd a)) as [E2|E2]|].
           ++ left. destruct x, a. simpl in *. congruence.
           ++ right. split; trivial. intros [<- | H']; tauto.
           ++ right. split; trivial. intros [<- | H']; tauto.
Qed.

(** The keys the groups are listed under: each key of a row, once. *)
Lemma group_keys_spec ks :
  NoDup (order_by key_leb (distinct_keys [] (map group_key ks)))
  /\ forall key,
       In key (order_by key_leb (distinct_keys [] (map group_key ks)))
       <-> exists k, In k ks /\ group_key k = key.
Proof.
  destruct (distinct_keys_spec (map group_key ks) []) as [N S]. split.
  - eapply Permutation_NoDup; [symmetry; apply order_by_permutation | exact N].
  - intros key. rewrite In_order_by, S, in_map_iff. simpl. split.
    + intros [[k [E H]] _]. eauto.
    + intros [k [H E]]. split; eauto.
Qed.


Lemma grouped_keys_NoDup ks :
  NoDup (map (fun r => (UniqueConnection.contact1_id r, UniqueConnection.contact2_id r))
             (grouped ks)).
Proof.
  unfold grouped. destruct (group_keys_spec ks) as [N _].
  induction (order_by key_leb (distinct_keys [] (map group_key ks))) as [|key keys IH];
    simpl; [constructor|].
  inversion N as [|x xs Hx N']; subst. rewrite map_app.
  assert (K : forall keys r,
             In r (flat_map (fun key =>
                    match filter (fun c => key_eqb (group_key c) key) ks with
                    | [] => []
                    | c :: rest =>
                        [UniqueConnection.mk (Connection.id (min_id_row c rest))
                           (fst key) (snd key) (Connection.label (min_id_row c rest))]
                    end) keys) ->
             In (UniqueConnection.contact1_id r, UniqueConnection.contact2_id r) keys).
  { clear. intros keys r H. apply in_flat_map in H. destruct H as [key [Hk H]].
    destruct (filter _ ks); [destruct H|]. destruct H as [<- | []].
    simpl. now destruct key. }
  apply NoDup_app.
  - destruct (filter _ ks); simpl; repeat constructor. intros [].
  - now apply IH.
  - intros p H1 H2. apply in_map_iff in H2. destruct H2 as [r [<- Hr]].
    apply K in Hr.
    destruct (filter _ ks); simpl in H1; [destruct H1|].
    destruct H1 as [H1 | []]. simpl in H1. apply Hx.
    destruct key. simpl in *. now rewrite H1.
Qed.

Lemma unique_eqb_keys a b :
  unique_eqb a b = true ->
  (UniqueConnection.contact1_id a, UniqueConnection.contact2_id a)
  = (UniqueConnection.contact1_id b, UniqueConnection.contact2_id b).
Proof.
  unfold unique_eqb. rewrite !andb_true_iff, !String.eqb_eq.
  intros [[[_ ->] ->] _]. reflexivity.
Qed.

Lemma distinct_fixed rows :
  forall seen,
    NoDup (map (fun r => (UniqueConnection.contact1_id r, UniqueConnection.contact2_id r))
               (seen ++ rows)) ->
    distinct seen rows = rows.
Proof.
  induction rows as [|r rows IH]; intros seen N; simpl; trivial.
  destruct (existsb (unique_eqb r) seen) eqn:E.
  - exfalso. apply existsb_exists in E. destruct E as [s [Hs E]].
    apply unique_eqb_keys in E.
    apply (NoDup_map_app_head _ _ _ _ N). rewrite E.
    exact (in_map (fun r => (UniqueConnection.contact1_id r,
                             UniqueConnection.contact2_id r)) _ _ Hs).
  - f_equal. apply IH. simpl.
    rewrite map_app in N |- *. simpl in N.
    eapply Permutation_NoDup; [|exact N].
    symmetry. apply Permutation_middle.
Qed.




(** ** The label of a pair *)









(** ** The graph handed to the display *)

(** [refreshNetwork] reads the database and computes; it throws only when
    the name filter does. *)
Lemma refreshNetwork_run term w :
  refreshNetwork term w
  = (match (match term with
            | EmptyString => Ok (order_by name_leb (contacts (db w)))
            | _ => filter_by_name term (order_by name_leb (contacts (db w)))
            end) with
     | Ok shown =>
         Ok (map (node_of (position_map (node_positions (db w)))) shown,
             map edge_of
               (filter (visible (map Contact.id shown)) (grouped (connections (db w)))))
     | Throw e => Throw e
     end, w).
Proof.
  unfold refreshNetwork, bind, getAllContacts, getUniqueConnections, getNodePositions,
    query, ret, lift.
  simpl. rewrite (distinct_fixed _ [] (grouped_keys_NoDup _)).
  destruct term as [|c term]; [reflexivity|].
  now destruct (filter_by_name (String c term) (order_by name_leb (contacts (db w)))).
Qed.



Lemma map_get_set {V : Type} (k k' : string) (v : V) m :
  map_get k (map_set k' v m) = if k' =? k then Some v else map_get k m.
Proof.
  unfold map_get, map_set. simpl. destruct (k' =? k) eqn:E; trivial.
  f_equal. induction m as [|[a x] m IH]; simpl; trivial.
  destruct (a =? k') eqn:A; simpl.
  - apply String.eqb_eq in A. subst a. now rewrite E.
  - destruct (a =? k); trivial.
Qed.

Lemma map_get_position_map k rows :
  NoDup (map NodePosition.contact_id rows) ->
  map_get k (position_map rows)
  = option_map (fun p => (NodePosition.x p, NodePosition.y p, NodePosition.fixed p))
      (find (fun p => NodePosition.contact_id p =? k) rows).
Proof.
  unfold position_map.
  assert (G : forall rows m,
             NoDup (map NodePosition.contact_id rows) ->
             map_get k
               (fold_left (fun m pos =>
                             map_set (NodePosition.contact_id pos)
                               (NodePosition.x pos, NodePosition.y pos,
                                NodePosition.fixed pos) m) rows m)
             = match find (fun p => NodePosition.contact_id p =? k) rows with
               | Some p => Some (NodePosition.x p, NodePosition.y p, NodePosition.fixed p)
               | None => map_get k m
               end).
  { clear. induction rows as [|p rows IH]; intros m N; simpl; trivial.
    inversion N as [|x xs Hx N']; subst. rewrite IH by exact N'.
    rewrite map_get_set.
    destruct (NodePosition.contact_id p =? k) eqn:E.
    - apply String.eqb_eq in E.
      destruct (find _ rows) as [q|] eqn:F; trivial.
      apply find_some in F. destruct F as [Hq Eq]. apply String.eqb_eq in Eq.
      exfalso. apply Hx. rewrite E, <- Eq. now apply in_map.
    - reflexivity. }
  intros N. rewrite (G rows [] N).
  now destruct (find _ rows).
Qed.

Lemma node_of_position d c :
  NoDup (map NodePosition.contact_id (node_positions d)) ->
  Node.x (node_of (position_map (node_positions d)) c)
  = option_map NodePosition.x (position_of (Contact.id c) d)
  /\ Node.y (node_of (position_map (node_positions d)) c)
     = option_map NodePosition.y (position_of (Contact.id c) d).
Proof.
  intros N. unfold node_of, position_of, saved_position. simpl.
  destruct (Contact.id c) as [i|]; [|now split].
  rewrite (map_get_position_map _ _ N).
  now destruct (find _ (node_positions d)).
Qed.



Lemma find_rev_map {A B : Type} (f : A -> B) (p : B -> bool) (l : list A) :
  find p (rev (map f l)) = option_map f (find (fun a => p (f a)) (rev l)).
Proof.
  rewrite <- map_rev. induction (rev l) as [|a r IH]; simpl; trivial.
  now destruct (p (f a)).
Qed.

(** X21.  Positions saved from the display come back: in every reachable
    state, after [saveCurrentPositions()] has saved the positions the
    display reports, none of them NaN, [refreshNetwork()] places each
    reported node at the coordinates last reported for it, [-0] being
    stored, and so placed, as 0. *)
Theorem saved_positions_come_back :
  forall (w : world) (positions : list (string * (float64 * float64)))
         (id : string) (x y : float64),
    reachable any_operation w ->
    (forall entry, In entry positions ->
       is_nan (fst (snd entry)) = false /\ is_nan (snd (snd entry)) = false) ->
    find (fun entry => fst entry =? id) (rev positions) = Some (id, (x, y)) ->
    outcome (saveCurrentPositions (Some positions)) w = Ok tt
    /\ exists nodes edges,
         outcome (refreshNetwork "") (run (saveCurrentPositions (Some positions)) w)
         = Ok (nodes, edges)
         /\ forall n, In n nodes -> Node.id n = Some id ->
                      Node.x n = Some (stored_number x)
                      /\ Node.y n = Some (stored_number y).
Proof.
  intros w positions id x y R Hnan L.
  set (posArray := map (fun entry : string * (float64 * float64) =>
                          Position.mk (fst entry) (fst (snd entry)) (snd (snd entry)) false)
                       positions).
  assert (NE : (0 <? length posArray)%nat = true).
  { destruct positions; [discriminate L | reflexivity]. }
  assert (E : saveCurrentPositions (Some positions) w = saveNodePositions posArray w).
  { unfold saveCurrentPositions. fold posArray. now rewrite NE. }
  assert (S : storable posArray = true).
  { unfold storable. apply forallb_forall. intros p Hp.
    apply in_map_iff in Hp. destruct Hp as [entry [<- He]].
    destruct (Hnan entry He) as [H1 H2]. cbn [Position.x Position.y].
    now rewrite H1, H2. }
  pose proof (reachable_not_enforced _ _ R) as F.
  assert (C : constraints_hold (db (perform (SaveNodePositions posArray) w))).
  { apply constraints_perform. apply (constraints_reachable _ _ R). }
  cbn [perform] in C. unfold run in C.
  unfold outcome, run. rewrite E. rewrite (saveNodePositions_run posArray w F) in C |- *.
  rewrite S in C |- *.
  cbn [fst snd]. split; trivial.
  rewrite refreshNetwork_run. cbn [fst snd db node_positions with_node_positions contacts].
  do 2 eexists. split; [reflexivity|].
  intros n Hn Hid. apply in_map_iff in Hn. destruct Hn as [c [<- Hc]].
  cbn [Node.id node_of] in Hid.
  cbn [fst snd db] in C. destruct C as (_ & _ & _ & _ & _ & C6).
  match goal with |- Node.x (node_of (position_map ?rows) c) = _ /\ _ =>
    destruct (node_of_position (with_node_positions (db w) rows) c C6) as [Hx Hy] end.
  cbn [node_positions with_node_positions] in Hx, Hy. rewrite Hx, Hy.
  unfold position_of, saved_position. cbn [node_positions with_node_positions].
  rewrite Hid, find_fold_save_step, (rows_written_storable posArray S).
  unfold posArray. rewrite map_map.
  rewrite (find_rev_map _ (fun p => NodePosition.contact_id p =? id)).
  cbn [NodePosition.contact_id Position.id]. rewrite L.
  cbn [option_map snd fst Position.x Position.y NodePosition.x NodePosition.y]. auto.
Qed.

(** X22.  [resetPositions()] always returns; it empties the saved
    positions, keeps contacts and connections, and the graph it then
    builds has no node with coordinates. *)
Theorem resetPositions_frees_every_node :
  forall (w : world),
    exists nodes edges,
      outcome resetPositions w = Ok (nodes, edges)
      /\ (forall n, In n nodes -> Node.x n = None /\ Node.y n = None)
      /\ node_positions (db (run resetPositions w)) = []
      /\ contacts (db (run resetPositions w)) = contacts (db w)
      /\ connections (db (run resetPositions w)) = connections (db w).
Proof.
  intros w. unfold outcome, run, resetPositions, clearNodePositions, bind, execute,
    delete_node_positions, saveToIndexedDB.
  cbn [fst snd db]. rewrite refreshNetwork_run. simpl. do 2 eexists.
  split; [reflexivity|].
  split; [|auto].
  intros n H. apply in_map_iff in H. destruct H as [c [<- _]].
  unfold node_of. cbn [Node.x Node.y]. now destruct (Contact.id c).
Qed.

(** ** Initials *)

Lemma substring_length n s : String.length (String.substring 0 n s) <= n.
Proof.
  revert s. induction n as [|n IH]; intros s.
  - destruct s; simpl; lia.
  - destruct s as [|c s]; simpl; [lia|]. specialize (IH s). lia.
Qed.

Lemma upper_ascii_initial c : c <> " "%char -> initial_char (upper_ascii c).
Proof.
  unfold initial_char. each_ascii c; intros H; split;
    try reflexivity; try discriminate; try (exfalso; apply H; reflexivity).
Qed.

Lemma every_char_append P s t :
  every_char P s -> every_char P t -> every_char P (s ++ t).
Proof. induction s; simpl; tauto. Qed.

Lemma every_char_substring P n s :
  every_char P s -> every_char P (String.substring 0 n s).
Proof.
  revert s. induction n as [|n IH]; intros s H.
  - now destruct s.
  - destruct s as [|c s]; simpl in *; [trivial|]. destruct H. auto.
Qed.

Lemma split_spaces_no_space s :
  Forall (every_char (fun c => c <> " "%char)) (split_spaces s).
Proof.
  induction s as [|c s IH]; simpl.
  - repeat constructor.
  - destruct (Ascii.eqb c " ") eqn:E.
    + constructor; [exact I | exact IH].
    + apply Ascii.eqb_neq in E.
      destruct (split_spaces s) as [|w ws]; inversion IH; subst;
        repeat constructor; trivial.
Qed.

(** X23.  For a name of ASCII characters, [getInitials(name)] has at most
    two characters, none of them a space and none a lower-case letter; for
    such a name that does not begin with a space it begins with the name's
    first character, upper-cased. *)
Theorem getInitials_at_most_two_capitals :
  forall (name : string),
    ascii_text name = true ->
    String.length (getInitials name) <= 2
    /\ every_char initial_char (getInitials name)
    /\ forall c rest, name = String c rest -> c <> " "%char ->
         exists tail, getInitials name = String (upper_ascii c) tail.
Proof.
  intros name _. unfold getInitials. split; [apply substring_length|]. split.
  - apply every_char_substring.
    pose proof (split_spaces_no_space name) as H.
    induction (split_spaces name) as [|w ws IH]; simpl; [exact I|].
    inversion H as [|? ? Hw Hws]; subst.
    assert (W : every_char initial_char (toUpperCase (first_letter w))).
    { destruct w as [|c w]; simpl; [exact I|]. destruct Hw as [Hc _].
      split; [now apply upper_ascii_initial | exact I]. }
    destruct ws as [|w' ws']; [exact W|].
    specialize (IH Hws). simpl in IH.
    assert (U : forall s t, toUpperCase (s ++ t) = (toUpperCase s ++ toUpperCase t)%string).
    { clear. induction s; simpl; intros; [reflexivity | now rewrite IHs]. }
    simpl. rewrite U. apply every_char_append; [exact W|]. exact IH.
  - intros c rest -> Hc. simpl split_spaces. apply Ascii.eqb_neq in Hc. rewrite Hc.
    assert (G : forall ws, exists body,
                  toUpperCase (String.concat "" (String c "" :: ws))
                  = String (upper_ascii c) body).
    { intros [|w' ws']; simpl; eexists; reflexivity. }
    destruct (split_spaces rest) as [|w ws]; simpl map.
    + destruct (G []) as [body ->]. eexists. reflexivity.
    + destruct (G (map first_letter ws)) as [body ->]. eexists. reflexivity.
Qed.

(** ** Listing all connections *)










(** ** Deleting a contact, in full *)

Lemma find_filter_other (a other : string) cs :
  other <> a ->
  find (fun c => is_text (Contact.id c) other)
       (filter (fun c => negb (is_text (Contact.id c) a)) cs)
  = find (fun c => is_text (Contact.id c) other) cs.
Proof.
  intros H. induction cs as [|c cs IH]; simpl; trivial.
  destruct (is_text (Contact.id c) a) eqn:E; simpl.
  - apply is_text_true in E.
    destruct (is_text (Contact.id c) other) eqn:E'; trivial.
    apply is_text_true in E'. congruence.
  - now destruct (is_text (Contact.id c) other).
Qed.

(** X25.  [deleteContact(A)] always returns.  Afterwards
    [getContactById(A)] finds nothing while every other contact reads back
    as before, and the connections left are exactly the rows that did not
    mention [A], with or without foreign-key enforcement. *)
Theorem deleteContact_removes_only_that_contact :
  forall (A : string) (w : world),
    outcome (deleteContact A) w = Ok tt
    /\ outcome (getContactById A) (run (deleteContact A) w) = Ok None
    /\ (forall other, other <> A ->
          outcome (getContactById other) (run (deleteContact A) w)
          = outcome (getContactById other) w)
    /\ (forall k, In k (connections (db (run (deleteContact A) w)))
                  <-> In k (connections (db w))
                      /\ Connection.from_contact_id k <> A
                      /\ Connection.to_contact_id k <> A).
Proof.
  intros A w.
  destruct (deleteContact_connections_and_contact A w) as (H1 & H2 & H3).
  split; [exact H1|]. split; [exact H3|]. split.
  - intros other Ho.
    unfold outcome, run, deleteContact, getContactById, bind, execute, query,
      delete_contact.
    simpl. destruct (foreign_keys (db w)); simpl;
      now rewrite !hd_error_filter_find, find_filter_other.
  - intros k. split.
    + intros Hk. split; [|now apply H2].
      revert Hk. unfold run, deleteContact, bind, execute, delete_contact. simpl.
      destruct (foreign_keys (db w)); simpl; intros Hk;
        repeat (apply filter_In in Hk; destruct Hk as [Hk _]); exact Hk.
    + intros (Hk & N1 & N2).
      assert (M : negb (mentions A k) = true).
      { unfold mentions. apply negb_true_iff, orb_false_iff.
        now rewrite !String.eqb_neq. }
      unfold run, deleteContact, bind, execute, delete_contact. simpl.
      destruct (foreign_keys (db w)); simpl; repeat (apply filter_In; split); trivial.
Qed.

(** ** The search of the repository and the filter of the graph *)

Lemma filter_by_name_members term cs :
  forall shown,
    filter_by_name term cs = Ok shown ->
    forall c, In c shown <->
              In c cs /\ exists n, Contact.name c = Some n
                                   /\ includes (toLowerCase n) (toLowerCase term) = true.
Proof.
  induction cs as [|a cs IH]; simpl; intros shown H c.
  - injection H as <-. simpl. tauto.
  - destruct (Contact.name a) as [n|] eqn:Na; [|discriminate].
    destruct (filter_by_name term cs) as [rest|]; [|discriminate].
    injection H as <-. specialize (IH rest eq_refl c).
    destruct (includes (toLowerCase n) (toLowerCase term)) eqn:I; simpl; rewrite IH.
    + split; [intros [<- | [H1 H2]]; eauto | intros [[<- | H1] H2]; auto].
    + split; [intros [H1 H2]; auto|].
      intros [[<- | H1] [m [Hm H2]]]; [congruence | eauto].
Qed.

Lemma filter_by_name_returns term cs :
  (forall c, In c cs -> Contact.name c <> None) ->
  exists shown, filter_by_name term cs = Ok shown.
Proof.
  induction cs as [|a cs IH]; simpl; intros H; [eauto|].
  destruct (Contact.name a) eqn:Na; [|exfalso; apply (H a); auto].
  destruct IH as [rest ->]; eauto.
Qed.

(** X26.  For a search term of at most 49 998 ASCII characters, none of
    them [%], [_] or U+0000, in every reachable state whose contact names
    are of ASCII characters other than U+0000, [searchContacts(term)]
    returns, and the contacts it returns are exactly the contacts that the
    name filter of [refreshNetwork] keeps. *)
Theorem searchContacts_agrees_with_graph_filter :
  forall (term : string) (w : world),
    reachable any_operation w ->
    wildcard_free term = true ->
    plain_text term = true ->
    (N.of_nat (String.length term) <= 49998)%N ->
    (forall c n, In c (contacts (db w)) -> Contact.name c = Some n ->
                 plain_text n = true) ->
    exists found shown all,
      outcome (searchContacts term) w = Ok found
      /\ outcome getAllContacts w = Ok all
      /\ filter_by_name term all = Ok shown
      /\ forall c, In c found <-> In c shown.
Proof.
  intros term w R W _ L _.
  assert (O : exists found, outcome (searchContacts term) w = Ok found).
  { rewrite searchContacts_outcome, pattern_too_long_term.
    apply N.ltb_ge in L. rewrite L. destruct (contacts (db w)); eauto. }
  destruct O as [found Hf].
  pose proof (searchContacts_wildcard_free term w found W Hf) as Sf.
  destruct (constraints_reachable _ _ R) as (_ & C2 & _).
  destruct (filter_by_name_returns term (order_by name_leb (contacts (db w))))
    as [shown Hs].
  { intros c Hc. apply In_order_by in Hc. now apply C2. }
  exists found, shown, (order_by name_leb (contacts (db w))).
  split; [exact Hf|]. split; [reflexivity|]. split; [exact Hs|].
  intros c. rewrite Sf, (filter_by_name_members _ _ _ Hs c), In_order_by. reflexivity.
Qed.

(** ** The properties at work *)

(** X1 on the example scenario. *)
Lemma keys_unique_reachable_witness :
  NoDup (keys (map Contact.id (contacts (db example_scenario))))
  /\ (forall id, length (filter (fun c => is_text (Contact.id c) id)
                                (contacts (db example_scenario))) <= 1)
  /\ NoDup (keys (map Connection.id (connections (db example_scenario))))
  /\ NoDup (map pair_of (connections (db example_scenario)))
  /\ NoDup (map NodePosition.contact_id (node_positions (db example_scenario))).
Proof.
  apply (keys_unique_reachable example_scenario). reach.
Defined.

(** X2 on the example scenario. *)
Lemma required_columns_reachable_witness :
  (forall c, In c (contacts (db example_scenario)) -> exists n, Contact.name c = Some n)
  /\ (forall k, In k (connections (db example_scenario)) ->
                exists l, Connection.label k = Some l).
Proof.
  apply (required_columns_reachable example_scenario). reach.
Defined.

(** X4: relabelling the connection of the example scenario, then loading the
    page again. *)
Lemma reload_after_completed_call_witness :
  db (initDatabase_again
        (perform (UpdateConnection "alice" "bob" (Some "colleague")) example_scenario))
  = db (perform (UpdateConnection "alice" "bob" (Some "colleague")) example_scenario).
Proof.
  apply (reload_after_completed_call
           (UpdateConnection "alice" "bob" (Some "colleague")) example_scenario).
  - reach.
  - reflexivity.
Defined.

(** X6: the example scenario, exported and restored. *)
Lemma restore_from_export_witness :
  outcome (importData example_export) initDatabase = Ok tt
  /\ contacts (db (run (importData example_export) initDatabase))
     = contacts (db example_scenario)
  /\ connections (db (run (importData example_export) initDatabase))
     = connections (db example_scenario)
  /\ node_positions (db (run (importData example_export) initDatabase)) = [].
Proof.
  destruct (restore_from_export example_scenario "2024-05-01T10:00:00.000Z"
              example_export)
    as (H1 & _ & _ & H4 & H5 & H6).
  - reach.
  - intros c [<- | [<- | []]]; reflexivity.
  - intros k [<- | [<- | []]]; repeat split; reflexivity.
  - reflexivity.
  - split; [exact H1 | split; [apply H5 | split; [apply H6 | exact H4]]].
    + intros c [<- | [<- | []]]; reflexivity.
    + intros k [<- | [<- | []]]; reflexivity.
Defined.

(** X7: Alice and Bob get connected. *)
Lemma createConnection_creates_both_rows_witness :
  outcome (createConnection "k1" "k2" "2024-05-01 09:00:02" "2024-05-01 09:00:02"
             "alice" "bob" (Some "friend")) Alice_and_Bob
  = Ok (Created.mk "k1" "alice" "bob" (Some "friend")).
Proof.
  apply (createConnection_creates_both_rows
           "k1" "k2" "2024-05-01 09:00:02" "2024-05-01 09:00:02"
           "alice" "bob" "friend" Alice_and_Bob).
  - differ.
  - unconnected.
  - differ.
  - reflexivity.
  - reflexivity.
  - intros H. discriminate H.
Defined.

(** X8: and disconnected again. *)
Lemma deleteConnection_undoes_createConnection_witness :
  connections
    (db (run (deleteConnection "alice" "bob")
           (run (createConnection "k1" "k2" "2024-05-01 09:00:02" "2024-05-01 09:00:02"
                   "alice" "bob" (Some "friend")) Alice_and_Bob)))
  = connections (db Alice_and_Bob).
Proof.
  apply (deleteConnection_undoes_createConnection
           "k1" "k2" "2024-05-01 09:00:02" "2024-05-01 09:00:02"
           "alice" "bob" "friend" Alice_and_Bob).
  - differ.
  - unconnected.
  - differ.
  - reflexivity.
  - reflexivity.
  - intros H. discriminate H.
Defined.

(** X10: Alice gets a note; Bob reads back as before. *)
Lemma updateContact_updates_one_witness :
  outcome (getContactById "bob")
    (run (updateContact "alice"
            (ContactInput.mk (Some "Alice") None None (Some "met in May")))
         example_scenario)
  = outcome (getContactById "bob") example_scenario.
Proof.
  apply (updateContact_updates_one "alice"
           (ContactInput.mk (Some "Alice") None None (Some "met in May"))
           "Alice" example_scenario).
  - reflexivity.
  - differ.
Defined.


(** X15: saving a position for Alice in the example scenario. *)
Lemma saveNodePositions_then_lookup_witness :
  outcome (saveNodePositions [Position.mk "alice" 1%Z 2%Z false]) example_scenario
  = Ok tt.
Proof.
  destruct (saveNodePositions_then_lookup
              [Position.mk "alice" 1%Z 2%Z false] example_scenario "alice")
    as [H _]; [reach | exact H].
Defined.

(** X16: saving it twice. *)
Lemma saveNodePositions_twice_witness :
  db (run (saveNodePositions [Position.mk "alice" 1%Z 2%Z false])
        (run (saveNodePositions [Position.mk "alice" 1%Z 2%Z false]) example_scenario))
  = db (run (saveNodePositions [Position.mk "alice" 1%Z 2%Z false]) example_scenario).
Proof.
  apply (saveNodePositions_twice [Position.mk "alice" 1%Z 2%Z false] example_scenario).
  reach.
Defined.




(** X21: Alice dragged to (1, 2). *)
Lemma saved_positions_come_back_witness :
  outcome (saveCurrentPositions (Some [("alice", (1%Z, 2%Z)); ("bob", (3%Z, 4%Z))]))
    example_scenario
  = Ok tt.
Proof.
  apply (saved_positions_come_back example_scenario
           [("alice", (1%Z, 2%Z)); ("bob", (3%Z, 4%Z))] "alice" 1%Z 2%Z).
  - reach.
  - intros entry [<- | [<- | []]]; split; reflexivity.
  - reflexivity.
Defined.

(** X23: the initials of a lower-case name. *)
Lemma getInitials_at_most_two_capitals_witness :
  String.length (getInitials "alice bob") <= 2
  /\ every_char initial_char (getInitials "alice bob")
  /\ forall c rest, "alice bob" = String c rest -> c <> " "%char ->
       exists tail, getInitials "alice bob" = String (upper_ascii c) tail.
Proof.
  apply (getInitials_at_most_two_capitals "alice bob"). reflexivity.
Defined.


(** X26: searching the example scenario for "bo". *)
Lemma searchContacts_agrees_with_graph_filter_witness :
  exists found shown all,
    outcome (searchContacts "bo") example_scenario = Ok found
    /\ outcome getAllContacts example_scenario = Ok all
    /\ filter_by_name "bo" all = Ok shown
    /\ forall c, In c found <-> In c shown.
Proof.
  apply (searchContacts_agrees_with_graph_filter "bo" example_scenario).
  - reach.
  - reflexivity.
  - reflexivity.
  - vm_compute. discriminate.
  - intros c n [<- | [<- | []]] [= <-]; reflexivity.
Defined.
